(** * MicroGridsPy with thermal storage: constraint assembly and Pareto driver

    A shallow embedding of the parts of the optimisation core that build
    constraints ([energy_balance], [generator_constraints],
    [TES_constraints]), compute the discount rate ([utils]) and drive the
    epsilon-constraint sweep ([Model.solve_multi_objective]).

    Conventions.
    - The numbers the Pareto driver computes with (the anchor emissions,
      the step size, the thresholds, the recorded costs) are IEEE 754
      binary64 values, with the rounding, the infinities and the NaN of
      numpy's [float64]: module [Float64].
    - The parameters and variable values of the constraint builders, and
      the rates of [utils], are rationals [Q]: a constraint is read as the
      mathematical relation it denotes, and the rounding of the arithmetic
      done on parameters while building it is outside the model.
    - Integer labels (years, steps, periods, indices) are [Z].
    - An xarray [DataArray] of parameters is a function from coordinates to
      [Q]; [.sel] is precomposition with a coordinate update.
    - A linopy expression is a syntax tree over named variables whose
      coefficients are [DataArray]s; a constraint is a pair of expressions
      with a sense, and it is kept in the model under its name.
    - Exceptions are values of [exn]; fallible code returns [result]. *)

From Stdlib Require Import ZArith QArith Qminmax List String Bool Lia Lqa DecimalString.
From Stdlib Require Import Floats.SpecFloat.
Import ListNotations.

Open Scope Z_scope.
Open Scope Q_scope.

(* ================================================================== *)
(** ** Exceptions and results *)

Inductive exn : Type :=
| IndexError
| KeyError
| ValueError
| ZeroDivisionError
| AssertionError
| AttributeError
| RuntimeError.

Inductive result (A : Type) : Type :=
| Ok (a : A)
| Raise (e : exn).

Arguments Ok {A} a.
Arguments Raise {A} e.

Definition bind {A B : Type} (r : result A) (k : A -> result B) : result B :=
  match r with
  | Ok a => k a
  | Raise e => Raise e
  end.

Notation "x <- c ;; k" := (bind c (fun x => k))
  (at level 61, c at next level, right associativity).
Notation "c ;;; k" := (bind c (fun _ => k))
  (at level 61, right associativity).

(** [for x in xs: acc = body x acc], stopping at the first exception. *)
Fixpoint for_each {A S : Type} (xs : list A) (body : A -> S -> result S) (s : S)
  : result S :=
  match xs with
  | [] => Ok s
  | x :: xs' => s' <- body x s ;; for_each xs' body s'
  end.

(** Decimal rendering of an integer, as an f-string does it. *)
Definition show_Z (z : Z) : string := NilZero.string_of_int (Z.to_int z).

(** Indexing of a Python list or numpy vector by an integer: negative
    indices count from the end, anything else out of range raises. *)
Definition py_index {A : Type} (l : list A) (k : Z) : result A :=
  let n := Z.of_nat (List.length l) in
  let k' := if (k <? 0)%Z then (n + k)%Z else k in
  if ((0 <=? k') && (k' <? n))%Z
  then match nth_error l (Z.to_nat k') with
       | Some a => Ok a
       | None => Raise IndexError
       end
  else Raise IndexError.

(** [i // d] on Python integers. *)
Definition py_floordiv (i d : Z) : result Z :=
  if (d =? 0)%Z then Raise ZeroDivisionError else Ok (i / d)%Z.

(** [a / b] on Python floats. *)
Definition py_truediv (a b : Q) : result Q :=
  if Qeq_bool b 0 then Raise ZeroDivisionError else Ok (a / b).

Definition Qlt_bool (a b : Q) : bool := negb (Qle_bool b a).

(* ================================================================== *)
(** ** IEEE 754 binary64 numbers *)

(** The values of numpy's [float64] and their arithmetic: the Standard
    Library's specification of IEEE 754 at precision 53 and exponent
    bound 1024, rounding to nearest with ties to even. *)
Module Float64.

Definition float64 : Type := spec_float.

Definition prec : Z := 53.
Definition emax : Z := 1024.

Definition add (x y : float64) : float64 := SFadd prec emax x y.
Definition sub (x y : float64) : float64 := SFsub prec emax x y.
Definition mul (x y : float64) : float64 := SFmul prec emax x y.
Definition div (x y : float64) : float64 := SFdiv prec emax x y.

(** The [float64] a Python integer becomes when it meets one in an
    operation. *)
Definition of_int (n : Z) : float64 := binary_normalize prec emax n 0 false.

Definition is_finite (x : float64) : bool :=
  match x with
  | S754_zero _ | S754_finite _ _ _ => true
  | S754_infinity _ | S754_nan => false
  end.

Definition is_zero (x : float64) : bool :=
  match x with
  | S754_zero _ => true
  | _ => false
  end.

End Float64.

(* ================================================================== *)
(** ** [microgridspy/model/utils.py] *)

Module Utils.

Record advanced_settings : Type := {
  wacc_calculation : bool;
  equity_share : Q;
  debt_share : Q;
  cost_of_debt : Q;
  tax : Q;
  cost_of_equity : Q
}.

Record project_settings : Type := {
  discount_rate : Q
}.

Record ProjectParameters : Type := {
  advanced : advanced_settings;
  project : project_settings
}.

(** [operate_discount_rate]: the checkbox value [wacc_calculation] is
    compared with [1], which holds exactly for [True]. *)
Definition operate_discount_rate (data : ProjectParameters) : result Q :=
  let a := advanced data in
  if wacc_calculation a then
    if Qeq_bool (equity_share a) 0 then
      Ok (cost_of_debt a * (1 - tax a))
    else
      leverage <- py_truediv (debt_share a) (equity_share a) ;;
      t1 <- py_truediv (cost_of_debt a * (1 - tax a) * leverage) (1 + leverage) ;;
      t2 <- py_truediv (cost_of_equity a) (1 + leverage) ;;
      Ok (t1 + t2)
  else
    Ok (discount_rate (project data)).

End Utils.

(* ================================================================== *)
(** ** xarray data and linopy expressions *)

Module Linopy.

Inductive dim : Type :=
| scenarios | years | steps | periods
| renewable_sources | generator_types | sample_points.

Inductive label : Type :=
| Num (z : Z)
| Name (s : string).

Definition dim_eqb (a b : dim) : bool :=
  match a, b with
  | scenarios, scenarios | years, years | steps, steps | periods, periods
  | renewable_sources, renewable_sources
  | generator_types, generator_types
  | sample_points, sample_points => true
  | _, _ => false
  end.

Definition label_eqb (a b : label) : bool :=
  match a, b with
  | Num x, Num y => (x =? y)%Z
  | Name x, Name y => String.eqb x y
  | _, _ => false
  end.

(** A coordinate gives one label per dimension; an array that does not
    have a dimension ignores that component. *)
Definition coord : Type := dim -> label.

Definition origin : coord := fun _ => Num 0.

Definition assign (d : dim) (l : label) (pt : coord) : coord :=
  fun d' => if dim_eqb d d' then l else pt d'.

(** The keyword arguments of one [.sel(...)] call. *)
Definition selection : Type := list (dim * label).

Fixpoint select (s : selection) (pt : coord) : coord :=
  match s with
  | [] => pt
  | (d, l) :: s' => assign d l (select s' pt)
  end.

(** *** DataArrays of numbers *)

Definition DataArray : Type := coord -> Q.

Definition scalar (q : Q) : DataArray := fun _ => q.
Definition da_sel (s : selection) (a : DataArray) : DataArray :=
  fun pt => a (select s pt).
Definition da_add (a b : DataArray) : DataArray := fun pt => a pt + b pt.
Definition da_sub (a b : DataArray) : DataArray := fun pt => a pt - b pt.
Definition da_mul (a b : DataArray) : DataArray := fun pt => a pt * b pt.
Definition da_div (a b : DataArray) : DataArray := fun pt => a pt / b pt.
Definition da_neg (a : DataArray) : DataArray := fun pt => - a pt.

(** [.item()] of an array of one element. *)
Definition item (a : DataArray) : Q := a origin.

(** The named arrays of [param]. *)
Definition Params : Type := string -> DataArray.

(** *** The index sets *)

Record Sets : Type := {
  set_scenarios : list Z;
  set_years : list Z;
  set_steps : list Z;
  set_periods : list Z;
  set_renewable_sources : list string;
  set_generator_types : list string
}.

Definition labels_of (sets : Sets) (d : dim) : list label :=
  match d with
  | scenarios => map Num (set_scenarios sets)
  | years => map Num (set_years sets)
  | steps => map Num (set_steps sets)
  | periods => map Num (set_periods sets)
  | renewable_sources => map Name (set_renewable_sources sets)
  | generator_types => map Name (set_generator_types sets)
  | sample_points => []
  end.

(** A coordinate lies in the sets when each component belongs to its
    dimension's labels; a dimension without labels is left free. *)
Definition in_sets (sets : Sets) (pt : coord) : Prop :=
  forall d, labels_of sets d <> [] -> In (pt d) (labels_of sets d).

(** *** Linear expressions over named variables *)

Inductive LinearExpression : Type :=
| LVar (name : string)
| LConst (a : DataArray)
| LSel (s : selection) (e : LinearExpression)
| LSum (d : dim) (ls : list label) (e : LinearExpression)
| LAdd (e1 e2 : LinearExpression)
| LSub (e1 e2 : LinearExpression)
| LScale (a : DataArray) (e : LinearExpression)
| LDiv (e : LinearExpression) (a : DataArray).

(** A variable assignment gives every named variable a value at every
    coordinate. *)
Definition Assignment : Type := string -> coord -> Q.

Fixpoint sumQ (qs : list Q) : Q :=
  match qs with
  | [] => 0
  | q :: qs' => q + sumQ qs'
  end.

Fixpoint eval (rho : Assignment) (e : LinearExpression) (pt : coord) : Q :=
  match e with
  | LVar name => rho name pt
  | LConst a => a pt
  | LSel s e' => eval rho e' (select s pt)
  | LSum d ls e' => sumQ (map (fun l => eval rho e' (assign d l pt)) ls)
  | LAdd e1 e2 => eval rho e1 pt + eval rho e2 pt
  | LSub e1 e2 => eval rho e1 pt - eval rho e2 pt
  | LScale a e' => a pt * eval rho e' pt
  | LDiv e' a => eval rho e' pt / a pt
  end.

(** *** Constraints and the constraint store *)

Inductive Sense : Type := LessEq | GreaterEq | Equal.

Record Constraint : Type := {
  lhs : LinearExpression;
  sense : Sense;
  rhs : LinearExpression
}.

Definition compare (s : Sense) (a b : Q) : Prop :=
  match s with
  | LessEq => a <= b
  | GreaterEq => b <= a
  | Equal => a == b
  end.

Definition holds (sets : Sets) (rho : Assignment) (c : Constraint) : Prop :=
  forall pt, in_sets sets pt ->
    compare (sense c) (eval rho (lhs c) pt) (eval rho (rhs c) pt).

Definition Constraints : Type := list (string * Constraint).

Definition has_name {C : Type} (name : string) (cs : list (string * C)) : bool :=
  existsb (fun nc => String.eqb name (fst nc)) cs.

(** [model.add_constraints(c, name=name)]: a name already in the model
    is refused. *)
Definition add_constraints {C : Type} (c : C) (name : string) (cs : list (string * C))
  : result (list (string * C)) :=
  if has_name name cs then Raise ValueError else Ok (cs ++ [(name, c)]).

(** [model.remove_constraints(name)]. *)
Definition remove_constraints {C : Type} (name : string) (cs : list (string * C))
  : result (list (string * C)) :=
  if has_name name cs
  then Ok (filter (fun nc => negb (String.eqb name (fst nc))) cs)
  else Raise KeyError.

Definition feasible (sets : Sets) (rho : Assignment) (cs : Constraints) : Prop :=
  forall name c, In (name, c) cs -> holds sets rho c.

(** [m'] is [m] with further constraints appended. *)
Definition extends {C : Type} (m m' : list (string * C)) : Prop :=
  exists ext, m' = m ++ ext.

End Linopy.

(* ================================================================== *)
(** ** What the constraint modules receive *)

Module Project.
Import Linopy.
Local Open Scope string_scope.

(** The fields of [settings], [sets] and [param] that the constraint
    modules read. *)
Record Config : Type := {
  sets : Sets;
  param : Params;
  (* settings.advanced_settings *)
  step_duration : Z;
  milp_formulation : bool;
  brownfield : bool;
  capacity_expansion : bool;
  grid_connection_type : Z;
  (* settings.project_settings *)
  lost_load_fraction : Q;
  renewable_penetration : Q;
  (* settings.generator_params *)
  partial_load : bool;
  (* settings.tes_params *)
  tes_storage_efficiency : DataArray;
  (* the boolean array param['RES_CONNECTED_TO_BATTERY'] *)
  RES_CONNECTED_TO_BATTERY : string -> bool;
  (* param['GENERATOR_SAMPLED_RELATIVE_OUTPUT'].shape[1] *)
  sampled_points : Z
}.

Definition years_of (cfg : Config) : list Z := set_years (sets cfg).
Definition steps_of (cfg : Config) : list Z := set_steps (sets cfg).
Definition periods_of (cfg : Config) : list Z := set_periods (sets cfg).

(** [var[name].sel(...)] and [param[name].sel(...)]. *)
Definition var (name : string) (s : selection) : LinearExpression :=
  LSel s (LVar name).

Definition par (cfg : Config) (name : string) (s : selection) : DataArray :=
  da_sel s (param cfg name).

Fixpoint map_result {A B : Type} (f : A -> result B) (l : list A) : result (list B) :=
  match l with
  | [] => Ok []
  | x :: l' => y <- f x ;; ys <- map_result f l' ;; Ok (y :: ys)
  end.

Definition range_len {A : Type} (l : list A) : list Z :=
  map Z.of_nat (seq 0 (List.length l)).

(** [[(years[i] - years[0] + offset, steps[i // step_duration])
      for i in range(len(years))]]. *)
Definition years_steps_tuples (cfg : Config) (offset : Z) : result (list (Z * Z)) :=
  map_result
    (fun i =>
       yi <- py_index (years_of cfg) i ;;
       y0 <- py_index (years_of cfg) 0 ;;
       q <- py_floordiv i (step_duration cfg) ;;
       s <- py_index (steps_of cfg) q ;;
       Ok ((yi - y0 + offset)%Z, s))
    (range_len (years_of cfg)).

(** [years_steps_tuples[year - years[0]][1]]. *)
Definition step_of_year (cfg : Config) (tuples : list (Z * Z)) (year : Z) : result Z :=
  y0 <- py_index (years_of cfg) 0 ;;
  t <- py_index tuples (year - y0) ;;
  Ok (snd t).

(** [sum(values)] of Python: [((0 + v1) + v2) + ...]. *)
Definition py_sum (values : list LinearExpression) : LinearExpression :=
  fold_left LAdd values (LConst (scalar 0)).

(** A dict filled by [d[k] = v]. *)
Fixpoint dict_set {V : Type} (k : string) (v : V) (d : list (string * V))
  : list (string * V) :=
  match d with
  | [] => [(k, v)]
  | (k', v') :: d' =>
      if String.eqb k k' then (k, v) :: d' else (k', v') :: dict_set k v d'
  end.

End Project.

(* ================================================================== *)
(** ** [microgridspy/model/constraints/energy_balance.py] *)

Module EnergyBalance.
Import Linopy Project.
Local Open Scope string_scope.

Section WithConfig.

Variable cfg : Config.
Variables has_battery has_generator has_grid_connection : bool.

Definition res_net (res : string) (step year : Z) : LinearExpression :=
  LSub (var "res_energy_production" [(steps, Num step); (renewable_sources, Name res)])
       (var "curtailment" [(years, Num year); (renewable_sources, Name res)]).

(** What the loop over the years carries for one year. *)
Record Balance : Type := {
  model : Constraints;
  yearly_energy_production : LinearExpression;
  yearly_conversion_losses : LinearExpression
}.

(** The inverter losses of one source. *)
Definition source_losses (year step : Z) (res : string) : LinearExpression :=
  LScale (da_sub (scalar 1) (par cfg "RES_INVERTER_EFFICIENCY" [(renewable_sources, Name res)]))
         (res_net res step year).

Definition res_positive_name (year : Z) (res : string) : string :=
  "Renewable Energy Production Positive - Year " ++ show_Z year ++ " - " ++ res.

(** [for res in sets.renewable_sources.values]: positivity and inverter
    losses of each source; the losses are collected in a dict. *)
Definition res_block (year step : Z) (res : string)
           (st : Constraints * list (string * LinearExpression))
  : result (Constraints * list (string * LinearExpression)) :=
  let '(m, res_yearly_conversion_losses) := st in
  m <- add_constraints
         {| lhs := res_net res step year; sense := GreaterEq; rhs := LConst (scalar 0) |}
         (res_positive_name year res)
         m ;;
  m <- add_constraints
         {| lhs := source_losses year step res; sense := Equal;
            rhs := var "res_conversion_losses" [(renewable_sources, Name res); (years, Num year)] |}
         ("RES ConversionLosses - " ++ res ++ " - Year " ++ show_Z year)
         m ;;
  Ok (m, dict_set res (source_losses year step res) res_yearly_conversion_losses).

Definition battery_block (year step : Z) (b : Balance) : result Balance :=
  let Y := [(years, Num year)] in
  let battery_system_energy := LSub (var "battery_outflow" Y) (var "battery_inflow" Y) in
  let production := LAdd (yearly_energy_production b) battery_system_energy in
  if existsb (RES_CONNECTED_TO_BATTERY cfg) (set_renewable_sources (sets cfg)) then
    let battery_system_energy :=
      fold_left
        (fun e res => if RES_CONNECTED_TO_BATTERY cfg res
                      then LAdd e (res_net res step year) else e)
        (set_renewable_sources (sets cfg)) battery_system_energy in
    m <- add_constraints
           {| lhs := battery_system_energy; sense := Equal; rhs := var "dc_system_energy" Y |}
           ("DC System Energy - Year " ++ show_Z year) (model b) ;;
    m <- (if milp_formulation cfg then
            m <- add_constraints
                   {| lhs := var "dc_system_energy_positive" Y; sense := LessEq;
                      rhs := LScale (par cfg "M" Y) (var "single_flow_dc_system" Y) |}
                   ("DC System Energy Positive Constraint - Year " ++ show_Z year) m ;;
            add_constraints
              {| lhs := var "dc_system_energy_negative" Y; sense := GreaterEq;
                 rhs := LScale (da_neg (par cfg "M" Y))
                               (LSub (var "ones" Y) (var "single_flow_dc_system" Y)) |}
              ("DC System Energy Negative Constraint - Year " ++ show_Z year) m
          else
            add_constraints
              {| lhs := LAdd (var "dc_system_energy_positive" Y)
                             (var "dc_system_energy_negative" Y);
                 sense := Equal; rhs := var "dc_system_energy" Y |}
              ("DC System Energy Split - Year " ++ show_Z year) m) ;;
    m <- add_constraints
           {| lhs := var "dc_system_energy_positive" Y; sense := GreaterEq;
              rhs := LConst (scalar 0) |}
           ("DC System Energy Positive - Year " ++ show_Z year) m ;;
    m <- add_constraints
           {| lhs := var "dc_system_energy_negative" Y; sense := LessEq;
              rhs := LConst (scalar 0) |}
           ("DC System Energy Negative - Year " ++ show_Z year) m ;;
    m <- add_constraints
           {| lhs := var "dc_system_feed_in_losses" Y; sense := Equal;
              rhs := LScale (scalar (1 - item (param cfg "BATTERY_INVERTER_EFFICIENCY_DC_AC")))
                            (var "dc_system_energy_positive" Y) |}
           ("DC System Feed In Losses - Year " ++ show_Z year) m ;;
    inv <- py_truediv 1 (item (param cfg "BATTERY_INVERTER_EFFICIENCY_AC_DC")) ;;
    m <- add_constraints
           {| lhs := var "dc_system_charge_losses" Y; sense := Equal;
              rhs := LScale (scalar (inv - 1)) (var "dc_system_energy_negative" Y) |}
           ("DC System Charge Losses - Year " ++ show_Z year) m ;;
    Ok {| model := m;
          yearly_energy_production := production;
          yearly_conversion_losses :=
            LAdd (yearly_conversion_losses b)
                 (LSub (var "dc_system_feed_in_losses" Y) (var "dc_system_charge_losses" Y)) |}
  else
    inv <- py_truediv 1 (item (param cfg "BATTERY_INVERTER_EFFICIENCY_AC_DC")) ;;
    let battery_losses :=
      LAdd (LScale (scalar (1 - item (param cfg "BATTERY_INVERTER_EFFICIENCY_DC_AC")))
                   (var "battery_outflow" Y))
           (LScale (scalar (inv - 1)) (var "battery_inflow" Y)) in
    m <- add_constraints
           {| lhs := battery_losses; sense := Equal;
              rhs := var "battery_conversion_losses" Y |}
           ("Battery ConversionLosses - Year " ++ show_Z year) (model b) ;;
    Ok {| model := m;
          yearly_energy_production := production;
          yearly_conversion_losses := LAdd (yearly_conversion_losses b) battery_losses |}.

(** [for generator in sets.generator_types.values]. *)
Definition generator_block (year : Z) (generator : string) (b : Balance) : result Balance :=
  let YG := [(years, Num year); (generator_types, Name generator)] in
  let production :=
    LAdd (yearly_energy_production b) (var "generator_energy_production" YG) in
  let generator_loss :=
    LScale (da_sub (scalar 1)
                   (par cfg "GENERATOR_RECTIFIER_EFFICIENCY" [(generator_types, Name generator)]))
           (var "generator_energy_production" [(generator_types, Name generator); (years, Num year)]) in
  m <- add_constraints
         {| lhs := generator_loss; sense := Equal;
            rhs := var "generator_conversion_losses"
                       [(generator_types, Name generator); (years, Num year)] |}
         ("Generator ConversionLosses - " ++ generator ++ " - Year " ++ show_Z year)
         (model b) ;;
  Ok {| model := m;
        yearly_energy_production := production;
        yearly_conversion_losses := LAdd (yearly_conversion_losses b) generator_loss |}.

Definition grid_block (year : Z) (b : Balance) : result Balance :=
  let Y := [(years, Num year)] in
  let from_grid_loss :=
    LScale (da_sub (scalar 1) (param cfg "GRID_TO_MICROGRID_EFFICIENCY"))
           (var "energy_from_grid" Y) in
  let '(production, grid_losses) :=
    if (grid_connection_type cfg =? 1)%Z then
      (LAdd (yearly_energy_production b)
            (LSub (var "energy_from_grid" Y) (var "energy_to_grid" Y)),
       LAdd from_grid_loss
            (LScale (da_sub (da_div (scalar 1) (param cfg "MICROGRID_TO_GRID_EFFICIENCY"))
                            (scalar 1))
                    (var "energy_to_grid" Y)))
    else
      (LAdd (yearly_energy_production b) (var "energy_from_grid" Y), from_grid_loss) in
  m <- add_constraints
         {| lhs := grid_losses; sense := Equal; rhs := var "grid_conversion_losses" Y |}
         ("Grid ConversionLosses - Year " ++ show_Z year) (model b) ;;
  Ok {| model := m;
        yearly_energy_production := production;
        yearly_conversion_losses := LAdd (yearly_conversion_losses b) grid_losses |}.

Definition when (c : bool) (f : Balance -> result Balance) (b : Balance) : result Balance :=
  if c then f b else Ok b.

(** The body of [for year in sets.years.values]. *)
Definition balance_year (tuples : list (Z * Z)) (year : Z) (m : Constraints)
  : result Constraints :=
  step <- step_of_year cfg tuples year ;;
  let total_res_energy_production :=
    LSum renewable_sources (labels_of (sets cfg) renewable_sources)
         (LVar "res_energy_production") in
  let total_curtailment :=
    LSum renewable_sources (labels_of (sets cfg) renewable_sources) (LVar "curtailment") in
  let production :=
    LSub (LSel [(steps, Num step)] total_res_energy_production)
         (LSel [(years, Num year)] total_curtailment) in
  r <- for_each (set_renewable_sources (sets cfg)) (res_block year step) (m, []) ;;
  let '(m, res_yearly_conversion_losses) := r in
  let b := {| model := m;
              yearly_energy_production := production;
              yearly_conversion_losses :=
                LAdd (LConst (scalar 0)) (py_sum (map snd res_yearly_conversion_losses)) |} in
  b <- when has_battery (battery_block year step) b ;;
  b <- when has_generator
            (for_each (set_generator_types (sets cfg)) (generator_block year)) b ;;
  b <- when has_grid_connection (grid_block year) b ;;
  let production :=
    if Qlt_bool 0 (lost_load_fraction cfg)
    then LAdd (yearly_energy_production b) (var "lost_load" [(years, Num year)])
    else yearly_energy_production b in
  add_constraints
    {| lhs := LSub production (yearly_conversion_losses b); sense := Equal;
       rhs := LConst (par cfg "DEMAND" [(years, Num year)]) |}
    ("Energy Balance Constraint - Year " ++ show_Z year) (model b).

Definition sum_res_periods (name : string) : LinearExpression :=
  LSum renewable_sources (labels_of (sets cfg) renewable_sources)
       (LSum periods (labels_of (sets cfg) periods) (LVar name)).

Definition add_renewable_penetration_constraint (m : Constraints) : result Constraints :=
  tuples <- years_steps_tuples cfg 0 ;;
  for_each (years_of cfg)
    (fun year m =>
       step <- step_of_year cfg tuples year ;;
       let yearly_res_production :=
         LSub (LSel [(steps, Num step)] (sum_res_periods "res_energy_production"))
              (LSel [(years, Num year)] (sum_res_periods "curtailment")) in
       let total := yearly_res_production in
       let total :=
         if has_generator
         then LAdd total
                (LSel [(years, Num year)]
                   (LSum generator_types (labels_of (sets cfg) generator_types)
                      (LSum periods (labels_of (sets cfg) periods)
                         (LVar "generator_energy_production"))))
         else total in
       let total :=
         if has_grid_connection
         then LAdd total
                (LSel [(years, Num year)]
                   (LSum periods (labels_of (sets cfg) periods) (LVar "energy_from_grid")))
         else total in
       add_constraints
         {| lhs := yearly_res_production; sense := GreaterEq;
            rhs := LScale (param cfg "MINIMUM_RENEWABLE_PENETRATION") total |}
         ("Renewable Penetration Constraint - Year " ++ show_Z year) m)
    m.

Definition add_lost_load_constraint (m : Constraints) : result Constraints :=
  for_each (years_of cfg)
    (fun year m =>
       add_constraints
         {| lhs := var "lost_load" [(years, Num year)]; sense := LessEq;
            rhs := LConst (da_mul (par cfg "DEMAND" [(years, Num year)])
                                  (param cfg "LOST_LOAD_FRACTION")) |}
         ("Lost Load Constraint - Year " ++ show_Z year) m)
    m.

Definition add_energy_balance_constraints (m : Constraints) : result Constraints :=
  tuples <- years_steps_tuples cfg 0 ;;
  m <- for_each (years_of cfg) (balance_year tuples) m ;;
  m <- (if Qlt_bool 0 (renewable_penetration cfg)
        then add_renewable_penetration_constraint m else Ok m) ;;
  if Qlt_bool 0 (lost_load_fraction cfg) then add_lost_load_constraint m else Ok m.

(** A block extends the model, adds [dp] to the production and [dl] to the
    losses. *)
Definition adds (dp dl : Assignment -> coord -> Q) (b b' : Balance) : Prop :=
  extends (model b) (model b')
  /\ (forall rho pt,
        eval rho (yearly_energy_production b') pt
        == eval rho (yearly_energy_production b) pt + dp rho pt)
  /\ (forall rho pt,
        eval rho (yearly_conversion_losses b') pt
        == eval rho (yearly_conversion_losses b) pt + dl rho pt).

(** *** The value of the yearly production *)

Definition res_production (rho : Assignment) (pt : coord) (year step : Z) : Q :=
  sumQ (map (fun l => rho "res_energy_production"
                          (assign renewable_sources l (assign steps (Num step) pt)))
            (labels_of (sets cfg) renewable_sources))
  - sumQ (map (fun l => rho "curtailment"
                            (assign renewable_sources l (assign years (Num year) pt)))
              (labels_of (sets cfg) renewable_sources)).

Definition battery_net_outflow (rho : Assignment) (pt : coord) (year : Z) : Q :=
  rho "battery_outflow" (assign years (Num year) pt)
  - rho "battery_inflow" (assign years (Num year) pt).

Definition generator_production (rho : Assignment) (pt : coord) (year : Z) : Q :=
  sumQ (map (fun gen => rho "generator_energy_production"
                            (select [(years, Num year); (generator_types, Name gen)] pt))
            (set_generator_types (sets cfg))).

Definition net_grid_import (rho : Assignment) (pt : coord) (year : Z) : Q :=
  if (grid_connection_type cfg =? 1)%Z
  then rho "energy_from_grid" (assign years (Num year) pt)
       - rho "energy_to_grid" (assign years (Num year) pt)
  else rho "energy_from_grid" (assign years (Num year) pt).

(** *** The value of the yearly conversion losses *)

Definition res_losses (rho : Assignment) (pt : coord) (year step : Z) : Q :=
  sumQ (map (fun res =>
               (1 - param cfg "RES_INVERTER_EFFICIENCY"
                          (assign renewable_sources (Name res) pt))
               * (rho "res_energy_production"
                      (select [(steps, Num step); (renewable_sources, Name res)] pt)
                  - rho "curtailment"
                        (select [(years, Num year); (renewable_sources, Name res)] pt)))
            (set_renewable_sources (sets cfg))).

Definition battery_losses (rho : Assignment) (pt : coord) (year : Z) : Q :=
  let here := assign years (Num year) pt in
  if existsb (RES_CONNECTED_TO_BATTERY cfg) (set_renewable_sources (sets cfg))
  then rho "dc_system_feed_in_losses" here - rho "dc_system_charge_losses" here
  else (1 - item (param cfg "BATTERY_INVERTER_EFFICIENCY_DC_AC")) * rho "battery_outflow" here
       + (1 / item (param cfg "BATTERY_INVERTER_EFFICIENCY_AC_DC") - 1)
         * rho "battery_inflow" here.

Definition generator_losses (rho : Assignment) (pt : coord) (year : Z) : Q :=
  sumQ (map (fun gen =>
               (1 - param cfg "GENERATOR_RECTIFIER_EFFICIENCY"
                          (assign generator_types (Name gen) pt))
               * rho "generator_energy_production"
                     (select [(generator_types, Name gen); (years, Num year)] pt))
            (set_generator_types (sets cfg))).

Definition grid_losses (rho : Assignment) (pt : coord) (year : Z) : Q :=
  let here := assign years (Num year) pt in
  if (grid_connection_type cfg =? 1)%Z
  then (1 - param cfg "GRID_TO_MICROGRID_EFFICIENCY" pt) * rho "energy_from_grid" here
       + (1 / param cfg "MICROGRID_TO_GRID_EFFICIENCY" pt - 1) * rho "energy_to_grid" here
  else (1 - param cfg "GRID_TO_MICROGRID_EFFICIENCY" pt) * rho "energy_from_grid" here.

Definition expected_losses (rho : Assignment) (pt : coord) (year step : Z) : Q :=
  res_losses rho pt year step
  + (if has_battery then battery_losses rho pt year else 0)
  + (if has_generator then generator_losses rho pt year else 0)
  + (if has_grid_connection then grid_losses rho pt year else 0).

Definition expected_production (rho : Assignment) (pt : coord) (year step : Z) : Q :=
  res_production rho pt year step
  + (if has_battery then battery_net_outflow rho pt year else 0)
  + (if has_generator then generator_production rho pt year else 0)
  + (if has_grid_connection then net_grid_import rho pt year else 0)
  + (if Qlt_bool 0 (lost_load_fraction cfg)
     then rho "lost_load" (assign years (Num year) pt) else 0).

(** *** The loss variables that the model reports *)

Definition reported_losses (rho : Assignment) (pt : coord) (year : Z) : Q :=
  sumQ (map (fun res => rho "res_conversion_losses"
                            (select [(renewable_sources, Name res); (years, Num year)] pt))
            (set_renewable_sources (sets cfg)))
  + (if has_battery then
       if existsb (RES_CONNECTED_TO_BATTERY cfg) (set_renewable_sources (sets cfg))
       then rho "dc_system_feed_in_losses" (assign years (Num year) pt)
            - rho "dc_system_charge_losses" (assign years (Num year) pt)
       else rho "battery_conversion_losses" (assign years (Num year) pt)
     else 0)
  + (if has_generator then
       sumQ (map (fun gen => rho "generator_conversion_losses"
                                 (select [(generator_types, Name gen); (years, Num year)] pt))
                 (set_generator_types (sets cfg)))
     else 0)
  + (if has_grid_connection
     then rho "grid_conversion_losses" (assign years (Num year) pt) else 0).

(** What the constraints of one source say in one year: curtailment within
    the production, and the reported inverter losses. *)
Definition res_facts (rho : Assignment) (pt : coord) (year step : Z) (res : string) : Prop :=
  rho "curtailment" (select [(years, Num year); (renewable_sources, Name res)] pt)
  <= rho "res_energy_production"
         (select [(steps, Num step); (renewable_sources, Name res)] pt)
  /\ (1 - param cfg "RES_INVERTER_EFFICIENCY" (assign renewable_sources (Name res) pt))
     * (rho "res_energy_production"
            (select [(steps, Num step); (renewable_sources, Name res)] pt)
        - rho "curtailment"
              (select [(years, Num year); (renewable_sources, Name res)] pt))
     == rho "res_conversion_losses"
            (select [(renewable_sources, Name res); (years, Num year)] pt).

Definition generator_loss_fact (rho : Assignment) (pt : coord) (year : Z) (gen : string)
  : Prop :=
  (1 - param cfg "GENERATOR_RECTIFIER_EFFICIENCY" (assign generator_types (Name gen) pt))
  * rho "generator_energy_production"
        (select [(generator_types, Name gen); (years, Num year)] pt)
  == rho "generator_conversion_losses"
         (select [(generator_types, Name gen); (years, Num year)] pt).

(** *** The two sides of the renewable penetration constraint *)

Definition over_periods (f : label -> Q) : Q :=
  sumQ (map f (labels_of (sets cfg) periods)).

Definition penetration_res_production (rho : Assignment) (pt : coord) (year step : Z) : Q :=
  sumQ (map (fun res =>
               over_periods (fun p =>
                 rho "res_energy_production"
                     (assign periods p (assign renewable_sources res
                                               (assign steps (Num step) pt)))))
            (labels_of (sets cfg) renewable_sources))
  - sumQ (map (fun res =>
                 over_periods (fun p =>
                   rho "curtailment"
                       (assign periods p (assign renewable_sources res
                                                 (assign years (Num year) pt)))))
              (labels_of (sets cfg) renewable_sources)).

Definition penetration_total_production (rho : Assignment) (pt : coord) (year step : Z) : Q :=
  penetration_res_production rho pt year step
  + (if has_generator then
       sumQ (map (fun gen =>
                    over_periods (fun p =>
                      rho "generator_energy_production"
                          (assign periods p (assign generator_types gen
                                                    (assign years (Num year) pt)))))
                 (labels_of (sets cfg) generator_types))
     else 0)
  + (if has_grid_connection then
       over_periods (fun p => rho "energy_from_grid"
                                  (assign periods p (assign years (Num year) pt)))
     else 0).

End WithConfig.

End EnergyBalance.

(* ================================================================== *)
(** ** [microgridspy/model/constraints/generator_constraints.py] *)

Module Generator.
Import Linopy Project.
Local Open Scope string_scope.

Section WithConfig.

Variable cfg : Config.

Definition gen_sel (gen : string) : selection := [(generator_types, Name gen)].

(** The bound from the sized units alone, and the existing capacity. *)
Definition new_capacity (step : Z) (gen : string) : LinearExpression :=
  LSel (gen_sel gen)
       (LScale (param cfg "GENERATOR_NOMINAL_CAPACITY")
               (var "generator_units" [(steps, Num step)])).

Definition existing_capacity (gen : string) : LinearExpression :=
  LConst (par cfg "GENERATOR_EXISTING_CAPACITY" (gen_sel gen)).

(** The inner loop body of the brownfield branch. *)
Definition max_production_brownfield (year step : Z) (gen : string) (m : Constraints)
  : result Constraints :=
  y0 <- py_index (years_of cfg) 0 ;;
  let total_age :=
    item (par cfg "GENERATOR_EXISTING_YEARS" (gen_sel gen)) + inject_Z (year - y0) in
  let lifetime_exceeded :=
    Qlt_bool (item (par cfg "GENERATOR_LIFETIME" (gen_sel gen))) total_age in
  let max_production := new_capacity step gen in
  let max_production :=
    if negb lifetime_exceeded
    then LAdd max_production (existing_capacity gen)
    else max_production in
  add_constraints
    {| lhs := var "generator_energy_production" [(years, Num year); (generator_types, Name gen)];
       sense := LessEq; rhs := max_production |}
    ("Generator Energy Production Constraint - Year " ++ show_Z year ++ ", Type " ++ gen)
    m.

Definition add_generator_max_energy_production_constraint (m : Constraints)
  : result Constraints :=
  if brownfield cfg then
    tuples <- years_steps_tuples cfg 1 ;;
    for_each (years_of cfg)
      (fun year m =>
         step <- step_of_year cfg tuples year ;;
         for_each (set_generator_types (sets cfg))
                  (max_production_brownfield year step) m)
      m
  else
    add_constraints
      {| lhs := LVar "generator_energy_production"; sense := LessEq;
         rhs := LScale (param cfg "GENERATOR_NOMINAL_CAPACITY") (LVar "generator_units") |}
      "Generator Energy Production Constraint" m.

(** [bool(a)] for an array [a] that still has the dimension
    [generator_types] (the sampled relative outputs are a table with one
    row per generator type and are selected by sample point only): defined
    for a single element, ambiguous otherwise. *)
Definition truth_value (a : coord -> bool) : result bool :=
  match set_generator_types (sets cfg) with
  | [g] => Ok (a (assign generator_types (Name g) origin))
  | _ => Raise ValueError
  end.

(** [p0], [p1]: the sampled relative output at a sample point times the
    nominal capacity of [gen]. *)
Definition sampled_power (gen : string) (k : Z) : DataArray :=
  da_mul (par cfg "GENERATOR_SAMPLED_RELATIVE_OUTPUT" [(sample_points, Num k)])
         (par cfg "GENERATOR_NOMINAL_CAPACITY" (gen_sel gen)).

(** [fc0], [fc1]: the fuel consumed at that output. *)
Definition sampled_fuel (gen : string) (k : Z) : DataArray :=
  da_div (sampled_power gen k)
         (da_mul (par cfg "GENERATOR_SAMPLED_EFFICIENCY"
                      [(sample_points, Num k); (generator_types, Name gen)])
                 (par cfg "FUEL_LHV" (gen_sel gen))).

Definition partial_load_constraint (year step : Z) (gen : string) (seg : Z)
           (slope : DataArray) : Constraint :=
  let YG := [(years, Num year); (generator_types, Name gen)] in
  let SG := [(steps, Num step); (generator_types, Name gen)] in
  {| lhs := var "generator_fuel_consumption" YG; sense := GreaterEq;
     rhs := LAdd (LScale slope
                    (LSub (var "generator_energy_production" YG)
                          (LScale (sampled_power gen seg) (var "generator_units" SG))))
                 (LScale (sampled_fuel gen seg) (var "generator_units" SG)) |}.

(** The body of [for seg in range(n_segments)]. *)
Definition partial_load_segment (year step : Z) (gen : string) (seg : Z) (m : Constraints)
  : result Constraints :=
  let p0 := sampled_power gen seg in
  let p1 := sampled_power gen (seg + 1) in
  let fc0 := sampled_fuel gen seg in
  let fc1 := sampled_fuel gen (seg + 1) in
  nonzero <- truth_value (fun pt => negb (Qeq_bool (da_sub p1 p0 pt) 0)) ;;
  let slope := if nonzero then da_div (da_sub fc1 fc0) (da_sub p1 p0) else scalar 0 in
  add_constraints
    (partial_load_constraint year step gen seg slope)
    ("Partial Load Constraint - Segment " ++ show_Z seg ++ ", Year " ++ show_Z year
       ++ ", Type " ++ gen)
    m.

(** The body of [for gen in sets.generator_types.values]. *)
Definition fuel_consumption_gen (year step : Z) (gen : string) (m : Constraints)
  : result Constraints :=
  let YG := [(years, Num year); (generator_types, Name gen)] in
  if negb (partial_load cfg) then
    add_constraints
      {| lhs := var "generator_fuel_consumption" YG; sense := Equal;
         rhs := LDiv (var "generator_energy_production" YG)
                     (da_mul (par cfg "GENERATOR_NOMINAL_EFFICIENCY" (gen_sel gen))
                             (par cfg "FUEL_LHV" (gen_sel gen))) |}
      ("Fuel Consumption Constraint - Year " ++ show_Z year ++ ", Type " ++ gen)
      m
  else
    let n_segments := (sampled_points cfg - 1)%Z in
    for_each (map Z.of_nat (seq 0 (Z.to_nat n_segments)))
             (partial_load_segment year step gen) m.

Definition add_generator_fuel_consumption_constraints (m : Constraints)
  : result Constraints :=
  tuples <- years_steps_tuples cfg 1 ;;
  for_each (years_of cfg)
    (fun year m =>
       step <- step_of_year cfg tuples year ;;
       for_each (set_generator_types (sets cfg)) (fuel_consumption_gen year step) m)
    m.

(** The body of [for step in sets.steps.values[1:]]; selecting the label
    [step - 1] fails when it is not a step. *)
Definition capacity_expansion_step (step : Z) (m : Constraints) : result Constraints :=
  if existsb (Z.eqb (step - 1)) (steps_of cfg) then
    add_constraints
      {| lhs := var "generator_units" [(steps, Num step)]; sense := GreaterEq;
         rhs := var "generator_units" [(steps, Num (step - 1))] |}
      ("Generator Min Step Units Constraint - Step " ++ show_Z step) m
  else Raise KeyError.

Definition add_generator_capacity_expansion_constraints (m : Constraints)
  : result Constraints :=
  for_each (tl (steps_of cfg)) capacity_expansion_step m.

Definition add_generator_constraints (m : Constraints) : result Constraints :=
  m <- add_generator_max_energy_production_constraint m ;;
  m <- add_generator_fuel_consumption_constraints m ;;
  if capacity_expansion cfg
  then add_generator_capacity_expansion_constraints m
  else Ok m.

(** *** The values that the bounds compare *)

(** [not lifetime_exceeded] for a first year [y0]. *)
Definition existing_capacity_counts (y0 year : Z) (gen : string) : bool :=
  Qle_bool (item (par cfg "GENERATOR_EXISTING_YEARS" (gen_sel gen)) + inject_Z (year - y0))
           (item (par cfg "GENERATOR_LIFETIME" (gen_sel gen))).

(** The most that generator [gen] may produce in [year]: the units sized
    at [step] times the nominal capacity, plus the existing capacity while
    it lasts. *)
Definition production_bound (rho : Assignment) (pt : coord) (y0 year step : Z)
           (gen : string) : Q :=
  let here := assign generator_types (Name gen) pt in
  param cfg "GENERATOR_NOMINAL_CAPACITY" here
  * rho "generator_units" (select [(steps, Num step)] here)
  + (if existing_capacity_counts y0 year gen
     then param cfg "GENERATOR_EXISTING_CAPACITY" here else 0).

(** The slope of segment [seg] of the fuel curve of [gen]. *)
Definition segment_slope (gen : string) (seg : Z) : DataArray :=
  if Qeq_bool (da_sub (sampled_power gen (seg + 1)) (sampled_power gen seg)
                      (assign generator_types (Name gen) origin)) 0
  then scalar 0
  else da_div (da_sub (sampled_fuel gen (seg + 1)) (sampled_fuel gen seg))
              (da_sub (sampled_power gen (seg + 1)) (sampled_power gen seg)).

(** The fuel that the secant through the sample points [seg], [seg + 1]
    asks for. *)
Definition secant_fuel (rho : Assignment) (pt : coord) (year step : Z)
           (gen : string) (seg : Z) : Q :=
  let production :=
    rho "generator_energy_production"
        (select [(years, Num year); (generator_types, Name gen)] pt) in
  let units :=
    rho "generator_units" (select [(steps, Num step); (generator_types, Name gen)] pt) in
  segment_slope gen seg pt * (production - sampled_power gen seg pt * units)
  + sampled_fuel gen seg pt * units.

End WithConfig.

End Generator.

(* ================================================================== *)
(** ** [microgridspy/model/constraints/TES_constraints.py] *)

Module TES.
Import Linopy Project.
Local Open Scope string_scope.

Section WithConfig.

Variable cfg : Config.

Definition at_ (year period : Z) : selection := [(years, Num year); (periods, Num period)].

(** [var["tes_soc"].sel(years=y, periods=p)] for labels computed from the
    loop variables: a label that is not in the index raises. *)
Definition sel_soc (year period : Z) : result LinearExpression :=
  if existsb (Z.eqb year) (years_of cfg) && existsb (Z.eqb period) (periods_of cfg)
  then Ok (var "tes_soc" (at_ year period))
  else Raise KeyError.

(** The body of the two nested loops of the state-of-charge dynamics. *)
Definition soc_dynamics (first_year first_period last_period : Z)
           (delta_time tes_capacity tes_initial_soc_fraction : Q)
           (year period : Z) (m : Constraints) : result Constraints :=
  let soc := var "tes_soc" (at_ year period) in
  let charge := var "tes_charge" (at_ year period) in
  let discharge := var "tes_discharge" (at_ year period) in
  soc_previous <-
    (if (year =? first_year)%Z && (period =? first_period)%Z then
       Ok (LAdd (LScale (scalar 0) soc)
                (LConst (scalar (tes_capacity * tes_initial_soc_fraction))))
     else if (period =? first_period)%Z then
       sel_soc (year - 1) last_period
     else
       sel_soc year (period - 1)) ;;
  add_constraints
    {| lhs := soc; sense := Equal;
       rhs := LAdd (LScale (scalar (item (da_sel (at_ year period)
                                                  (tes_storage_efficiency cfg))))
                           soc_previous)
                   (LScale (scalar delta_time) (LSub charge discharge)) |}
    ("TES State of Charge Constraint - Year " ++ show_Z year
       ++ ", Period " ++ show_Z period)
    m.

Definition soc_bounds (tes_capacity : Q) (year : Z) (m : Constraints)
  : result Constraints :=
  m <- add_constraints
         {| lhs := var "tes_soc" [(years, Num year)]; sense := LessEq;
            rhs := LConst (scalar tes_capacity) |}
         ("TES Maximum Charge Constraint - Year " ++ show_Z year) m ;;
  add_constraints
    {| lhs := var "tes_soc" [(years, Num year)]; sense := GreaterEq;
       rhs := LConst (scalar 0) |}
    ("TES Minimum Charge Constraint - Year " ++ show_Z year) m.

Definition add_tes_state_of_charge_constraints (m : Constraints) : result Constraints :=
  first_year <- py_index (years_of cfg) 0 ;;
  first_period <- py_index (periods_of cfg) 0 ;;
  last_period <- py_index (periods_of cfg) (-1) ;;
  let delta_time := item (param cfg "DELTA_TIME") in
  let tes_capacity := item (param cfg "TES_CAPACITY") in
  let tes_initial_soc_fraction := item (param cfg "TES_INITIAL_SOC") in
  m <- for_each (years_of cfg)
         (fun year m =>
            for_each (periods_of cfg)
              (soc_dynamics first_year first_period last_period
                            delta_time tes_capacity tes_initial_soc_fraction year) m)
         m ;;
  for_each (years_of cfg) (soc_bounds tes_capacity) m.

(** The body of [for period in sets.periods.values] of the flow
    constraints. *)
Definition mode_bounds (M_charge M_discharge : Q) (year period : Z) (m : Constraints)
  : result Constraints :=
  let mode := var "tes_mode" (at_ year period) in
  m <- add_constraints
         {| lhs := var "tes_charge" (at_ year period); sense := LessEq;
            rhs := LScale (scalar M_charge) mode |}
         ("TES Charge Allowed - Year " ++ show_Z year ++ " Period " ++ show_Z period) m ;;
  add_constraints
    {| lhs := var "tes_discharge" (at_ year period); sense := LessEq;
       rhs := LScale (scalar M_discharge)
                     (LSub (LAdd (LScale (scalar 0) mode) (LConst (scalar 1))) mode) |}
    ("TES Discharge Allowed - Year " ++ show_Z year ++ " Period " ++ show_Z period) m.

(** The body of [for year in years] of the flow constraints. *)
Definition flow_bounds (M_charge M_discharge : Q) (year : Z) (m : Constraints)
  : result Constraints :=
  let Y := [(years, Num year)] in
  m <- add_constraints
         {| lhs := var "tes_charge" Y; sense := LessEq;
            rhs := LConst (param cfg "TES_MAX_CHARGE_RATE") |}
         ("TES Maximum Charge Flow Constraint - Year " ++ show_Z year) m ;;
  m <- add_constraints
         {| lhs := var "tes_discharge" Y; sense := LessEq;
            rhs := LConst (param cfg "TES_MAX_DISCHARGE_RATE") |}
         ("TES Maximum Discharge Flow Constraint - Year " ++ show_Z year) m ;;
  m <- add_constraints
         {| lhs := var "tes_charge" Y; sense := GreaterEq; rhs := LConst (scalar 0) |}
         ("TES Minimum Charge Flow Constraint - Year " ++ show_Z year) m ;;
  m <- add_constraints
         {| lhs := var "tes_discharge" Y; sense := GreaterEq; rhs := LConst (scalar 0) |}
         ("TES Minimum Discharge Flow Constraint - Year " ++ show_Z year) m ;;
  for_each (periods_of cfg) (mode_bounds M_charge M_discharge year) m.

Definition add_tes_flow_constraints (m : Constraints) : result Constraints :=
  let delta_time := item (param cfg "DELTA_TIME") in
  let tes_capacity := item (param cfg "TES_CAPACITY") in
  M_charge <- py_truediv tes_capacity delta_time ;;
  M_discharge <- py_truediv tes_capacity delta_time ;;
  for_each (years_of cfg) (flow_bounds M_charge M_discharge) m.

Definition add_tes_production_constraints (m : Constraints) : result Constraints :=
  let tes_cop := param cfg "TES_COP" in
  let q_per_kg := param cfg "TES_Q_PER_KG" in
  m <- add_constraints
         {| lhs := LScale q_per_kg (LVar "tes_ice_production"); sense := Equal;
            rhs := LScale tes_cop (LVar "tes_electric_consumption") |}
         "TES Ice Production Constraint" m ;;
  m <- add_constraints
         {| lhs := LVar "tes_electric_consumption"; sense := LessEq;
            rhs := LVar "tes_compressor_capacity" |}
         "TES Compressor Capacity - Electric Limit" m ;;
  let max_ice_production :=
    LDiv (LScale tes_cop (LVar "tes_compressor_capacity")) q_per_kg in
  m <- add_constraints
         {| lhs := LVar "tes_ice_production"; sense := LessEq; rhs := max_ice_production |}
         "TES Compressor Capacity - Ice Production Limit" m ;;
  m <- add_constraints
         {| lhs := LVar "tes_charge"; sense := Equal; rhs := LVar "tes_ice_production" |}
         "TES Charge-Production Coupling Constraint" m ;;
  m <- add_constraints
         {| lhs := LVar "tes_compressor_capacity"; sense := LessEq;
            rhs := LConst (param cfg "TES_COMPRESSOR_CAPACITY_MAX") |}
         "TES Compressor Installed Capacity Limit" m ;;
  add_constraints
    {| lhs := LSum periods (labels_of (sets cfg) periods)
                   (LScale q_per_kg (LVar "tes_discharge"));
       sense := LessEq;
       rhs := LSum periods (labels_of (sets cfg) periods)
                   (LScale tes_cop (LVar "tes_electric_consumption")) |}
    "TES Energy Conservation Constraint" m.

Definition add_tes_constraints (m : Constraints) : result Constraints :=
  m <- add_tes_state_of_charge_constraints m ;;
  m <- add_tes_flow_constraints m ;;
  add_tes_production_constraints m.

(** The state of charge that the dynamics of [(year, period)] start from. *)
Definition previous_soc (rho : Assignment) (pt : coord) (year period : Z) : result Q :=
  first_year <- py_index (years_of cfg) 0 ;;
  first_period <- py_index (periods_of cfg) 0 ;;
  last_period <- py_index (periods_of cfg) (-1) ;;
  Ok (if (year =? first_year)%Z && (period =? first_period)%Z then
        item (param cfg "TES_CAPACITY") * item (param cfg "TES_INITIAL_SOC")
      else if (period =? first_period)%Z then
        rho "tes_soc" (select (at_ (year - 1) last_period) pt)
      else
        rho "tes_soc" (select (at_ year (period - 1)) pt)).

(** [add_tes_overlap_constraints]: [tes_overlap] below both flows. *)
Definition overlap_bounds (year period : Z) (m : Constraints) : result Constraints :=
  let overlap := var "tes_overlap" (at_ year period) in
  m <- add_constraints
         {| lhs := overlap; sense := LessEq; rhs := var "tes_charge" (at_ year period) |}
         ("TES Overlap Charge Limit - Year " ++ show_Z year ++ " Period " ++ show_Z period)
         m ;;
  add_constraints
    {| lhs := overlap; sense := LessEq; rhs := var "tes_discharge" (at_ year period) |}
    ("TES Overlap Discharge Limit - Year " ++ show_Z year ++ " Period " ++ show_Z period)
    m.

Definition add_tes_overlap_constraints (m : Constraints) : result Constraints :=
  for_each (years_of cfg)
    (fun year m => for_each (periods_of cfg) (overlap_bounds year) m) m.

End WithConfig.

End TES.

(* ================================================================== *)
(** ** [microgridspy/model/model.py]: the solve drivers *)

Module Model.
Import Linopy.

Import Float64.

(** [q / n] for a numpy value [q] and a Python integer [n]: a zero
    divisor gives an infinity or a NaN and a warning, not an exception. *)
Definition np_div_int (q : float64) (n : Z) : float64 :=
  Float64.div q (of_int n).

(** [q + i * s] for a numpy value [q], a Python integer [i] and a numpy
    value [s]. *)
Definition np_add_mul (q : float64) (i : Z) (s : float64) : float64 :=
  Float64.add q (Float64.mul (of_int i) s).

(** A constraint in the model: one added by [_build], or the emissions
    cap of the sweep, [total_emissions <= emission_threshold]. *)
Inductive ModelConstraint : Type :=
| Built (c : Constraint)
| UpperBound (e : LinearExpression) (bound : float64).

(** A solution data set, restricted to its scalar entries. *)
Definition Dataset : Type := list (string * float64).

Fixpoint get (ds : Dataset) (key : string) : option float64 :=
  match ds with
  | [] => None
  | (k, v) :: ds' => if String.eqb key k then Some v else get ds' key
  end.

(** The part of the object that the drivers read and write: the linopy
    model (objective and named constraints), [self.solution], and the
    number of calls of [_solve] made so far. *)
Record State : Type := {
  objective : option LinearExpression;
  constraints : list (string * ModelConstraint);
  solution : option Dataset;
  solve_calls : nat
}.

Definition set_objective (o : option LinearExpression) (st : State) : State :=
  {| objective := o; constraints := constraints st;
     solution := solution st; solve_calls := solve_calls st |}.
Definition set_constraints (cs : list (string * ModelConstraint)) (st : State) : State :=
  {| objective := objective st; constraints := cs;
     solution := solution st; solve_calls := solve_calls st |}.
Definition set_solution (ds : option Dataset) (st : State) : State :=
  {| objective := objective st; constraints := constraints st;
     solution := ds; solve_calls := solve_calls st |}.
Definition count_call (st : State) : State :=
  {| objective := objective st; constraints := constraints st;
     solution := solution st; solve_calls := S (solve_calls st) |}.

(** Methods run on the object: the state survives an exception. *)
Definition M (A : Type) : Type := State -> result A * State.

Definition ret {A : Type} (a : A) : M A := fun st => (Ok a, st).
Definition raise {A : Type} (e : exn) : M A := fun st => (Raise e, st).
Definition mbind {A B : Type} (m : M A) (k : A -> M B) : M B :=
  fun st =>
    match m st with
    | (Ok a, st') => k a st'
    | (Raise e, st') => (Raise e, st')
    end.

Notation "x <~ c ;; k" := (mbind c (fun x => k))
  (at level 61, c at next level, right associativity).
Notation "c ~~; k" := (mbind c (fun _ => k))
  (at level 61, right associativity).

(** What one call of the external solver does, as [_solve] sees it: the
    solver is not installed; the call raises; the call returns but the
    read of [self.model.solution] that follows raises, the model holding
    no solution (an infeasible or unbounded problem); or that read gives a
    data set. *)
Inductive SolverOutcome : Type :=
| NotAvailable
| SolverFailure
| NoSolution
| Solved (ds : Dataset).

Section Drivers.

(** The solver is an external service: its answer may depend on the
    model it is given and on which call this is.  [Solved ds] stands for
    the data set [_solve] returns, after the thermal demand has been
    merged into it. *)
Variable solver :
  nat -> option LinearExpression -> list (string * ModelConstraint) -> SolverOutcome.

(** [self._build()]: sets, parameters, variables and constraints. *)
Variable _build : M unit.

Variable scenario_labels : list label.
Variable SCENARIO_WEIGHTS : DataArray.
Variable optimization_goal : Z.

(** [self.model.add_objective(expr, overwrite=...)]. *)
Definition add_objective (expr : LinearExpression) (overwrite : bool) : M unit :=
  fun st =>
    match objective st, overwrite with
    | Some _, false => (Raise AssertionError, st)
    | _, _ => (Ok tt, set_objective (Some expr) st)
    end.

Definition model_add_constraints (c : ModelConstraint) (name : string) : M unit :=
  fun st =>
    match Linopy.add_constraints c name (constraints st) with
    | Ok cs => (Ok tt, set_constraints cs st)
    | Raise e => (Raise e, st)
    end.

Definition model_remove_constraints (name : string) : M unit :=
  fun st =>
    match Linopy.remove_constraints name (constraints st) with
    | Ok cs => (Ok tt, set_constraints cs st)
    | Raise e => (Raise e, st)
    end.

(** [_solve]: [None] when the solver is not installed, [RuntimeError]
    when the solver call raises, [AttributeError] from the read of
    [self.model.solution] (outside the [try]) when the call left no
    solution, else the solution, also stored in [self.solution].  The
    preparation of the problem and log file paths catches its own
    exceptions and does not touch the model. *)
Definition _solve : M (option Dataset) :=
  fun st =>
    match solver (solve_calls st) (objective st) (constraints st) with
    | NotAvailable => (Ok None, count_call st)
    | SolverFailure => (Raise RuntimeError, count_call st)
    | NoSolution => (Raise AttributeError, count_call st)
    | Solved ds => (Ok (Some ds), set_solution (Some ds) (count_call st))
    end.

(** [solution.get(key).values]: an attribute lookup on [None] raises. *)
Definition get_values (sol : option Dataset) (key : string) : M float64 :=
  match sol with
  | None => raise AttributeError
  | Some ds =>
      match get ds key with
      | None => raise AttributeError
      | Some q => ret q
      end
  end.

Definition weighted_sum (var : string) : LinearExpression :=
  LSum scenarios scenario_labels (LScale SCENARIO_WEIGHTS (LVar var)).

Definition cost_objective : LinearExpression :=
  if (optimization_goal =? 0)%Z
  then weighted_sum "scenario_net_present_cost"
  else weighted_sum "total_scenario_variable_cost_nonact".

Definition cost_objective_variable : string :=
  if (optimization_goal =? 0)%Z then "Net Present Cost" else "Total Variable Cost".

Definition emissions_objective : LinearExpression :=
  weighted_sum "scenario_co2_emission".

Definition co2_threshold (i : Z) : string :=
  ("co2_threshold_" ++ show_Z i)%string.

(** The lists the sweep appends to. *)
Record Sweep : Type := {
  npc_values : list float64;
  co2_values : list float64;
  solutions : list (option Dataset)
}.

(** The body of [for i in range(num_points)]. *)
Definition sweep_step (min_co2 emission_step : float64) (i : Z) (acc : Sweep)
  : M Sweep :=
  let emission_threshold := np_add_mul min_co2 i emission_step in
  let total_emissions := weighted_sum "scenario_co2_emission" in
  model_add_constraints (UpperBound total_emissions emission_threshold)
                        (co2_threshold i) ~~;
  add_objective cost_objective true ~~;
  solution <~ _solve ;;
  let solutions' := solutions acc ++ [solution] in
  npc <~ get_values solution cost_objective_variable ;;
  model_remove_constraints (co2_threshold i) ~~;
  ret {| npc_values := npc_values acc ++ [npc];
         co2_values := co2_values acc ++ [emission_threshold];
         solutions := solutions' |}.

Fixpoint sweep (min_co2 emission_step : float64) (range : list Z) (acc : Sweep)
  : M Sweep :=
  match range with
  | [] => ret acc
  | i :: range' =>
      acc' <~ sweep_step min_co2 emission_step i acc ;;
      sweep min_co2 emission_step range' acc'
  end.

(** [range(n)]. *)
Definition py_range (n : Z) : list Z :=
  map Z.of_nat (seq 0 (Z.to_nat n)).

Definition solve_multi_objective (num_points : Z)
  : M (list (float64 * float64) * list (option Dataset)) :=
  _build ~~;
  (* Step 1: minimize cost without CO2 constraint *)
  add_objective cost_objective false ~~;
  solution <~ _solve ;;
  let solutions1 := [solution] in
  max_co2 <~ get_values solution "Total CO2 Emissions" ;;
  (* Step 2: minimize CO2 emissions *)
  add_objective emissions_objective true ~~;
  solution <~ _solve ;;
  min_co2 <~ get_values solution "Total CO2 Emissions" ;;
  let solutions2 := solutions1 ++ [solution] in
  let emission_step := np_div_int (Float64.sub max_co2 min_co2) (num_points - 1) in
  acc <~ sweep min_co2 emission_step (py_range num_points)
           {| npc_values := []; co2_values := []; solutions := solutions2 |} ;;
  ret (combine (co2_values acc) (npc_values acc), solutions acc).

(** [solve_single_objective]: build, set the objective of the project's
    optimization goal, solve. *)
Definition solve_single_objective : M (option Dataset) :=
  _build ~~;
  (if (optimization_goal =? 0)%Z
   then add_objective (weighted_sum "scenario_net_present_cost") false
   else add_objective (weighted_sum "total_scenario_variable_cost_nonact") false) ~~;
  _solve.

(** [get_solution_variable]: a lookup in [self.solution]. *)
Definition get_solution_variable (variable_name : string) : M float64 :=
  fun st =>
    match solution st with
    | None => (Raise ValueError, st)
    | Some ds =>
        match get ds variable_name with
        | None => (Raise ValueError, st)
        | Some q => (Ok q, st)
        end
    end.

(** *** Vocabulary for the properties of the sweep *)

(** The model of sweep iteration [i]: the built constraints and the one
    emissions cap of this iteration. *)
Definition capped (base : list (string * ModelConstraint))
           (min_co2 emission_step : float64) (i : Z)
  : list (string * ModelConstraint) :=
  base ++ [(co2_threshold i,
            UpperBound (weighted_sum "scenario_co2_emission")
                       (np_add_mul min_co2 i emission_step))].

(** The state in which the sweep starts, when [_build] left [st1] and the
    second anchor solve returned [s2]. *)
Definition after_anchors (st1 : State) (s2 : Dataset) : State :=
  {| objective := Some emissions_objective; constraints := constraints st1;
     solution := Some s2; solve_calls := S (S (solve_calls st1)) |}.

(** A run raises before any solver call has been made. *)
Definition raises_before_solving {A : Type} (m : M A) (st : State) : Prop :=
  exists e st', m st = (Raise e, st') /\ solve_calls st' = solve_calls st.

End Drivers.

End Model.

(* ================================================================== *)
(** ** [microgridspy/model/constraints/project_emissions.py] *)

Module Emissions.
Import Linopy Project.
Local Open Scope string_scope.

Section WithConfig.

Variable cfg : Config.

(** [settings.grid_params.national_grid_specific_co2_emissions]. *)
Variable national_grid_specific_co2_emissions : Q.

(** The dimensions of each variable, which [.sum()] without argument
    sums over. *)
Variable var_dims : string -> list dim.

(** [var[name].sel(steps=step)] for a computed label. *)
Definition sel_step (name : string) (step : Z) : result LinearExpression :=
  if existsb (Z.eqb step) (steps_of cfg)
  then Ok (var name [(steps, Num step)])
  else Raise KeyError.

(** The units installed at [step]: all of them at the step labelled 1, the
    increase over the step before otherwise. *)
Definition delta_units (name : string) (step : Z) : result LinearExpression :=
  if (step =? 1)%Z then Ok (var name [(steps, Num step)])
  else
    previous <- sel_step name (step - 1) ;;
    Ok (LSub (var name [(steps, Num step)]) previous).

Definition sum_over (d : option dim) (e : LinearExpression) : LinearExpression :=
  match d with
  | Some d' => LSum d' (labels_of (sets cfg) d') e
  | None => e
  end.

(** The loop shared by the three installation-emission functions:
    [emissions += (delta_units * CAPACITY * UNIT_CO2_EMISSION)], summed
    over the technology dimension where there is one. *)
Definition installation_emissions (units capacity factor : string) (technology : option dim)
  : result LinearExpression :=
  for_each (steps_of cfg)
    (fun step emissions =>
       delta <- delta_units units step ;;
       Ok (LAdd emissions
                (sum_over technology
                   (LScale (param cfg factor) (LScale (param cfg capacity) delta)))))
    (LConst (scalar 0)).

Definition sum_steps (name : string) : LinearExpression :=
  LSum steps (labels_of (sets cfg) steps) (LVar name).

Definition add_res_emissions_constraints (m : Constraints) : result Constraints :=
  res_emissions <- installation_emissions "res_units" "RES_NOMINAL_CAPACITY"
                     "RES_UNIT_CO2_EMISSION" (Some renewable_sources) ;;
  add_constraints
    {| lhs := sum_steps "res_emission"; sense := Equal; rhs := res_emissions |}
    "RES Emissions Constraint" m.

Definition add_battery_emissions_constraints (m : Constraints) : result Constraints :=
  battery_emissions <- installation_emissions "battery_units" "BATTERY_NOMINAL_CAPACITY"
                         "BATTERY_UNIT_CO2_EMISSION" None ;;
  add_constraints
    {| lhs := sum_steps "battery_emission"; sense := Equal; rhs := battery_emissions |}
    "Battery Emissions Constraint" m.

Definition add_generator_emissions_constraints (m : Constraints) : result Constraints :=
  generator_emissions <- installation_emissions "generator_units" "GENERATOR_NOMINAL_CAPACITY"
                           "GENERATOR_UNIT_CO2_EMISSION" (Some generator_types) ;;
  m <- add_constraints
         {| lhs := sum_steps "gen_emission"; sense := Equal; rhs := generator_emissions |}
         "Generator Emissions Constraint" m ;;
  add_constraints
    {| lhs := LVar "fuel_emission"; sense := Equal;
       rhs := LScale (param cfg "FUEL_CO2_EMISSION") (LVar "generator_fuel_consumption") |}
    "Fuel Emissions Constraint" m.

Definition sum_dims (ds : list dim) (e : LinearExpression) : LinearExpression :=
  fold_right (fun d acc => LSum d (labels_of (sets cfg) d) acc) e ds.

Definition add_grid_emission_constraints (m : Constraints) : result Constraints :=
  let grid_factor := national_grid_specific_co2_emissions / 1000 in
  m <- add_constraints
         {| lhs := LVar "grid_emission"; sense := Equal;
            rhs := LScale (scalar grid_factor) (LVar "energy_from_grid") |}
         "Grid Emission Calculation" m ;;
  add_constraints
    {| lhs := LVar "scenario_grid_emission"; sense := Equal;
       rhs := sum_dims [years; periods] (LVar "grid_emission") |}
    "Scenario Grid Emission Calculation" m.

(** [var[name].sum()]. *)
Definition sum_all (name : string) : LinearExpression :=
  sum_dims (var_dims name) (LVar name).

Definition add_project_emissions (has_battery has_generator has_grid_connection : bool)
           (m : Constraints) : result Constraints :=
  m <- add_res_emissions_constraints m ;;
  let total_emissions := sum_all "res_emission" in
  r <- (if has_battery then
          m <- add_battery_emissions_constraints m ;;
          Ok (m, LAdd total_emissions (sum_all "battery_emission"))
        else Ok (m, total_emissions)) ;;
  let '(m, total_emissions) := r in
  r <- (if has_generator then
          m <- add_generator_emissions_constraints m ;;
          Ok (m, LAdd (LAdd total_emissions (sum_all "gen_emission"))
                      (sum_dims [years; generator_types; periods] (LVar "fuel_emission")))
        else Ok (m, total_emissions)) ;;
  let '(m, total_emissions) := r in
  r <- (if has_grid_connection then
          m <- add_grid_emission_constraints m ;;
          Ok (m, LAdd total_emissions (LVar "scenario_grid_emission"))
        else Ok (m, total_emissions)) ;;
  let '(m, total_emissions) := r in
  m <- add_constraints
         {| lhs := LVar "scenario_co2_emission"; sense := Equal; rhs := total_emissions |}
         "Total Scenario Emissions Constraint" m ;;
  add_constraints
    {| lhs := LVar "total_emission"; sense := Equal;
       rhs := LSum scenarios (labels_of (sets cfg) scenarios)
                   (LScale (param cfg "SCENARIO_WEIGHTS") (LVar "scenario_co2_emission")) |}
    "Total Emissions Weighted Constraint" m.

(** The installation emissions of the units present at step [step]. *)
Definition emissions_of_units (rho : Assignment) (pt : coord)
           (units capacity factor : string) (technology : option dim) (step : Z) : Q :=
  eval rho (sum_over technology
              (LScale (param cfg factor)
                      (LScale (param cfg capacity) (var units [(steps, Num step)])))) pt.

End WithConfig.

End Emissions.

(* ================================================================== *)
(** ** [microgridspy/model/constraints/grid_constraints.py] *)

Module Grid.
Import Linopy Project.
Local Open Scope string_scope.

Section WithConfig.

Variable cfg : Config.

(** [settings.grid_params]. *)
Variable year_grid_connection : Z.
Variable maximum_grid_power : Q.

Definition availability (year : Z) : DataArray :=
  par cfg "GRID_AVAILABILITY" [(years, Num year)].

(** The loop body of [add_maximum_power_from_grid_constraint]. *)
Definition power_from_grid_year (year : Z) (m : Constraints) : result Constraints :=
  let Y := [(years, Num year)] in
  if (year_grid_connection <=? year)%Z then
    if milp_formulation cfg then
      add_constraints
        {| lhs := var "energy_from_grid" Y; sense := LessEq;
           rhs := LScale (scalar maximum_grid_power)
                         (LScale (availability year) (var "single_flow_grid" Y)) |}
        ("Maximum Power From Grid - Year " ++ show_Z year) m
    else
      add_constraints
        {| lhs := var "energy_from_grid" Y; sense := LessEq;
           rhs := LConst (da_mul (availability year) (scalar maximum_grid_power)) |}
        ("Maximum Power From Grid - Year " ++ show_Z year) m
  else
    add_constraints
      {| lhs := var "energy_from_grid" Y; sense := Equal; rhs := LConst (scalar 0) |}
      ("No Power From Grid - Year " ++ show_Z year) m.

(** The loop body of [add_maximum_power_to_grid_constraint]. *)
Definition power_to_grid_year (year : Z) (m : Constraints) : result Constraints :=
  let Y := [(years, Num year)] in
  if (year_grid_connection <=? year)%Z then
    if milp_formulation cfg then
      add_constraints
        {| lhs := var "energy_to_grid" Y; sense := LessEq;
           rhs := LScale (scalar maximum_grid_power)
                         (LScale (availability year)
                                 (LSub (LConst (scalar 1)) (var "single_flow_grid" Y))) |}
        ("Maximum Power To Grid - Year " ++ show_Z year) m
    else
      add_constraints
        {| lhs := var "energy_to_grid" Y; sense := LessEq;
           rhs := LConst (da_mul (availability year) (scalar maximum_grid_power)) |}
        ("Maximum Power To Grid - Year " ++ show_Z year) m
  else
    add_constraints
      {| lhs := var "energy_to_grid" Y; sense := Equal; rhs := LConst (scalar 0) |}
      ("No Power To Grid - Year " ++ show_Z year) m.

Definition add_maximum_power_from_grid_constraint (m : Constraints) : result Constraints :=
  for_each (years_of cfg) power_from_grid_year m.

Definition add_maximum_power_to_grid_constraint (m : Constraints) : result Constraints :=
  for_each (years_of cfg) power_to_grid_year m.

Definition add_grid_constraints (m : Constraints) : result Constraints :=
  m <- add_maximum_power_from_grid_constraint m ;;
  if (grid_connection_type cfg =? 1)%Z
  then add_maximum_power_to_grid_constraint m
  else Ok m.

End WithConfig.

End Grid.

(* ================================================================== *)
(** ** [microgridspy/model/constraints/compressor_constraints.py] *)

Module Compressor.
Import Linopy Project.
Local Open Scope string_scope.

Section WithConfig.

Variable cfg : Config.

(** [settings.advanced_settings.use_compressor]. *)
Variable use_compressor : bool.

Definition capacity_year (year : Z) (m : Constraints) : result Constraints :=
  add_constraints
    {| lhs := var "compressor_cooling_output" [(years, Num year)]; sense := LessEq;
       rhs := LVar "compressor_capacity" |}
    ("Compressor Capacity Constraint - Year " ++ show_Z year) m.

Definition add_compressor_constraints (m : Constraints) : result Constraints :=
  if negb use_compressor then Ok m
  else
    m <- add_constraints
           {| lhs := LVar "compressor_cooling_output"; sense := Equal;
              rhs := LScale (param cfg "COP_DIRECT") (LVar "compressor_electric_consumption") |}
           "Compressor COP Constraint" m ;;
    for_each (years_of cfg) capacity_year m.

End WithConfig.

End Compressor.

(* ================================================================== *)
(** ** [config/solver_settings.py] *)

Module SolverSettings.
Local Open Scope string_scope.

(** The values of the option dictionaries. *)
Inductive OptionValue : Type :=
| IntOption (z : Z)
| FloatOption (q : Q)
| TextOption (s : string).

Definition get_gurobi_settings (milp_formulation : bool) : list (string * OptionValue) :=
  if milp_formulation then
    [("Method", IntOption 3);
     ("BarHomogeneous", IntOption 1);
     ("Crossover", IntOption 1);
     ("MIPFocus", IntOption 1);
     ("BarConvTol", FloatOption (1 # 1000));
     ("OptimalityTol", FloatOption (1 # 1000));
     ("FeasibilityTol", FloatOption (1 # 10000))]
  else
    [("Method", IntOption 2);
     ("BarHomogeneous", IntOption 0);
     ("Crossover", IntOption 0);
     ("BarConvTol", FloatOption (1 # 10000));
     ("OptimalityTol", FloatOption (1 # 10000));
     ("FeasibilityTol", FloatOption (1 # 10000));
     ("IterationLimit", IntOption 10000)].

Definition get_solver_settings (solver : string) (milp_formulation : bool)
  : list (string * OptionValue) :=
  if String.eqb solver "gurobi" then get_gurobi_settings milp_formulation
  else if String.eqb solver "glpk" then
    [("msg_lev", TextOption "GLP_MSG_ON"); ("tm_lim", IntOption 60000)]
  else if String.eqb solver "scip" then
    [("limits/time", FloatOption 600);
     ("display/verblevel", IntOption 4);
     ("display/freq", IntOption 1);
     ("heuristics/undercover/freq", IntOption (-1));
     ("presolving/maxrounds", IntOption 10);
     ("separating/maxrounds", IntOption 10)]
  else [].

End SolverSettings.

(* ================================================================== *)
(** ** Example inputs *)

Module Examples.
Import Linopy Model Float64.

(** A solver that answers every call; the first call is the costly
    high-emission optimum, the second the low-emission one. *)
Definition ex_co2 (k : nat) : float64 :=
  match k with
  | O => of_int 100
  | _ => of_int 40
  end.

Definition ex_npc (k : nat) : float64 :=
  match k with
  | 0%nat => of_int 500
  | 1%nat => of_int 1500
  | 2%nat => of_int 1500
  | 3%nat => of_int 900
  | _ => of_int 500
  end.

Definition ex_dataset (k : nat) : Dataset :=
  [("Total CO2 Emissions"%string, ex_co2 k); ("Net Present Cost"%string, ex_npc k)].

Definition ex_solver (k : nat) (_ : option LinearExpression)
           (_ : list (string * ModelConstraint)) : SolverOutcome :=
  Solved (ex_dataset k).

(** The [float64] of the decimal literal [n/d], for integers that are
    floats themselves: the correctly rounded quotient. *)
Definition ex_decimal (n d : Z) : float64 := Float64.div (of_int n) (of_int d).

(** A solver whose anchor solves report emissions of 0.9 and of 0.2. *)
Definition ex_decimal_dataset (k : nat) : Dataset :=
  [("Total CO2 Emissions"%string,
    match k with
    | O => ex_decimal 9 10
    | _ => ex_decimal 2 10
    end);
   ("Net Present Cost"%string, ex_npc k)].

Definition ex_decimal_solver (k : nat) (_ : option LinearExpression)
           (_ : list (string * ModelConstraint)) : SolverOutcome :=
  Solved (ex_decimal_dataset k).

(** The solver [ex_solver], raising at call [bad]. *)
Definition ex_failing_solver (bad k : nat) (o : option LinearExpression)
           (cs : list (string * ModelConstraint)) : SolverOutcome :=
  if Nat.eqb k bad then SolverFailure else ex_solver k o cs.

Definition ex_balance : Constraint :=
  {| lhs := LVar "x"; sense := Equal; rhs := LConst (scalar 1) |}.

Definition ex_build : M unit :=
  model_add_constraints (Built ex_balance) "Energy Balance Constraint - Year 0".

Definition ex_st0 : State :=
  {| objective := None; constraints := []; solution := None; solve_calls := 0 |}.

Definition ex_st1 : State :=
  {| objective := None;
     constraints := [("Energy Balance Constraint - Year 0"%string, Built ex_balance)];
     solution := None; solve_calls := 0 |}.

Definition ex_run (solver : nat -> option LinearExpression ->
                            list (string * ModelConstraint) -> SolverOutcome)
           (num_points : Z) :=
  solve_multi_objective solver ex_build [Num 0] (scalar 1) 0 num_points ex_st0.

(** Financing settings with the given shares. *)
Definition wacc_example (w : bool) (e d : Q) : Utils.ProjectParameters :=
  {| Utils.advanced :=
       {| Utils.wacc_calculation := w;
          Utils.equity_share := e;
          Utils.debt_share := d;
          Utils.cost_of_debt := 6 # 100;
          Utils.tax := 25 # 100;
          Utils.cost_of_equity := 12 # 100 |};
     Utils.project := {| Utils.discount_rate := 1 # 10 |} |}.

(** A six-year brownfield project with two investment steps, one solar
    source and diesel generation with a three-point efficiency curve; the
    existing generator is nine years old and lasts ten. *)
Definition ex_param (name : string) : DataArray :=
  if String.eqb name "GENERATOR_EXISTING_YEARS" then scalar 9
  else if String.eqb name "GENERATOR_LIFETIME" then scalar 10
  else if String.eqb name "GENERATOR_NOMINAL_CAPACITY" then scalar 100
  else if String.eqb name "GENERATOR_EXISTING_CAPACITY" then scalar 50
  else if String.eqb name "GENERATOR_SAMPLED_RELATIVE_OUTPUT" then
    fun pt => match pt sample_points with
              | Num 0 => 0
              | Num 1 => 1 # 2
              | _ => 1
              end
  else if String.eqb name "GENERATOR_SAMPLED_EFFICIENCY" then
    fun pt => match pt sample_points with
              | Num 0 => 2 # 10
              | Num 1 => 3 # 10
              | _ => 35 # 100
              end
  else if String.eqb name "FUEL_LHV" then scalar 10
  else if String.eqb name "DELTA_TIME" then scalar 1
  else if String.eqb name "TES_CAPACITY" then scalar 100
  else if String.eqb name "TES_INITIAL_SOC" then scalar (1 # 2)
  else if String.eqb name "DEMAND" then scalar 80
  else scalar (9 # 10).

Definition ex_config (gens : list string) : Project.Config :=
  {| Project.sets :=
       {| set_scenarios := [0%Z];
          set_years := [0; 1; 2; 3; 4; 5]%Z;
          set_steps := [1; 2]%Z;
          set_periods := [0; 1; 2]%Z;
          set_renewable_sources := ["Solar"%string];
          set_generator_types := gens |};
     Project.param := ex_param;
     Project.step_duration := 3;
     Project.milp_formulation := true;
     Project.brownfield := true;
     Project.capacity_expansion := true;
     Project.grid_connection_type := 1;
     Project.lost_load_fraction := 1 # 10;
     Project.renewable_penetration := 0;
     Project.partial_load := true;
     Project.tes_storage_efficiency := scalar (99 # 100);
     Project.RES_CONNECTED_TO_BATTERY := fun _ => false;
     Project.sampled_points := 3 |}.

Definition ex_cfg : Project.Config := ex_config ["Diesel"%string].
Definition ex_cfg_two : Project.Config := ex_config ["Diesel"%string; "Gas"%string].

(** The constraints a module leaves in an empty model ([[]] if it raises). *)
Definition built (r : result Constraints) : Constraints :=
  match r with
  | Ok m => m
  | Raise _ => []
  end.

Definition ex_generator_model : Constraints :=
  built (Generator.add_generator_constraints ex_cfg []).

Definition ex_max_production_model : Constraints :=
  built (Generator.add_generator_max_energy_production_constraint ex_cfg []).

Definition ex_energy_balance_model : Constraints :=
  built (EnergyBalance.add_energy_balance_constraints ex_cfg true true true []).

Definition ex_tes_soc_model : Constraints :=
  built (TES.add_tes_state_of_charge_constraints ex_cfg []).

Definition ex_tes_flow_model : Constraints :=
  built (TES.add_tes_flow_constraints ex_cfg []).

(** The results of a three-point sweep with the solver that always
    answers. *)
Definition ex_front : list (float64 * float64) :=
  match fst (ex_run ex_solver 3) with
  | Ok (front, _) => front
  | Raise _ => []
  end.

Definition ex_solutions : list (option Dataset) :=
  match fst (ex_run ex_solver 3) with
  | Ok (_, sols) => sols
  | Raise _ => []
  end.

(** A solver that is not installed. *)
Definition ex_no_solver (k : nat) (o : option LinearExpression)
           (cs : list (string * ModelConstraint)) : SolverOutcome :=
  NotAvailable.

(** Variants of the example project. *)
Definition ex_project (ys ss ps : list Z) (gens : list string) (duration : Z)
           (milp brown expansion partial : bool) (penetration : Q) (samples : Z)
           (prm : Params) : Project.Config :=
  {| Project.sets :=
       {| set_scenarios := [0%Z];
          set_years := ys;
          set_steps := ss;
          set_periods := ps;
          set_renewable_sources := ["Solar"%string];
          set_generator_types := gens |};
     Project.param := prm;
     Project.step_duration := duration;
     Project.milp_formulation := milp;
     Project.brownfield := brown;
     Project.capacity_expansion := expansion;
     Project.grid_connection_type := 1;
     Project.lost_load_fraction := 1 # 10;
     Project.renewable_penetration := penetration;
     Project.partial_load := partial;
     Project.tes_storage_efficiency := scalar (99 # 100);
     Project.RES_CONNECTED_TO_BATTERY := fun _ => false;
     Project.sampled_points := samples |}.

Definition ex_years : list Z := [0; 1; 2; 3; 4; 5]%Z.

(** A greenfield project with nominal fuel efficiency. *)
Definition ex_cfg_greenfield : Project.Config :=
  ex_project ex_years [1; 2]%Z [0; 1; 2]%Z ["Diesel"%string] 3
             true false true false 0 3 ex_param.

Definition ex_greenfield_model : Constraints :=
  built (Generator.add_generator_constraints ex_cfg_greenfield []).

(** An efficiency curve of a single point. *)
Definition ex_cfg_one_sample : Project.Config :=
  ex_project ex_years [1; 2]%Z [0; 1; 2]%Z ["Diesel"%string] 3
             true true true true 0 1 ex_param.

(** Investment steps that are not consecutive. *)
Definition ex_cfg_gap : Project.Config :=
  ex_project ex_years [1; 3]%Z [0; 1; 2]%Z ["Diesel"%string] 3
             true true true true 0 3 ex_param.

(** A coordinate of the example project. *)
Definition ex_point : coord :=
  fun d =>
    match d with
    | renewable_sources => Name "Solar"
    | generator_types => Name "Diesel"
    | steps => Num 1
    | _ => Num 0
    end.

(** One unit installed at every step, producing 60 in every year and
    period and burning [fuel]. *)
Definition ex_running (fuel : Q) : Assignment :=
  fun name _ =>
    if String.eqb name "generator_units" then 1
    else if String.eqb name "generator_energy_production" then 60
    else if String.eqb name "generator_fuel_consumption" then fuel
    else 0.

(** The storage held at half its capacity: what leaks is charged again. *)
Definition ex_tes_running : Assignment :=
  fun name _ =>
    if String.eqb name "tes_soc" then 50
    else if String.eqb name "tes_mode" then 1
    else if String.eqb name "tes_discharge" then 0
    else if String.eqb name "tes_overlap" then 0
    else 1 # 2.

Definition ex_tes_model : Constraints :=
  built (TES.add_tes_constraints ex_cfg []).

Definition ex_tes_overlap_model : Constraints :=
  built (TES.add_tes_overlap_constraints ex_cfg []).

(** A project without periods, and one whose time step is zero. *)
Definition ex_cfg_no_periods : Project.Config :=
  ex_project ex_years [1; 2]%Z [] ["Diesel"%string] 3
             true true true true 0 3 ex_param.

Definition ex_param_no_delta (name : string) : DataArray :=
  if String.eqb name "DELTA_TIME" then scalar 0 else ex_param name.

Definition ex_cfg_no_delta : Project.Config :=
  ex_project ex_years [1; 2]%Z [0; 1; 2]%Z ["Diesel"%string] 3
             true true true true 0 3 ex_param_no_delta.

(** Emissions of a project with one solar unit installed at the first
    step and kept: the installation emits [0.9 * 0.9], reported in equal
    parts at the two steps. *)
Definition ex_var_dims (name : string) : list dim := [steps].

Definition ex_emitting : Assignment :=
  fun name _ =>
    if String.eqb name "res_units" then 1
    else if String.eqb name "res_emission" then 81 # 200
    else if String.eqb name "scenario_co2_emission" then 81 # 100
    else if String.eqb name "total_emission" then 729 # 1000
    else 0.

Definition ex_emissions_model : Constraints :=
  built (Emissions.add_project_emissions ex_cfg 500 ex_var_dims true true true []).

(** Investment steps counted from zero. *)
Definition ex_cfg_zero_based : Project.Config :=
  ex_project ex_years [0; 1]%Z [0; 1; 2]%Z ["Diesel"%string] 3
             true true true true 0 3 ex_param.

(** A grid that arrives in year 2 and then supplies 50. *)
Definition ex_importing : Assignment :=
  fun name pt =>
    if String.eqb name "energy_from_grid" then
      match pt years with
      | Num y => if (2 <=? y)%Z then 50 else 0
      | Name _ => 0
      end
    else if String.eqb name "single_flow_grid" then 1
    else 0.

Definition ex_grid_model : Constraints :=
  built (Grid.add_grid_constraints ex_cfg 2 100 []).

(** A compressor of capacity 9 that turns 10 of electricity into 9 of
    cooling. *)
Definition ex_cooling : Assignment :=
  fun name _ =>
    if String.eqb name "compressor_electric_consumption" then 10 else 9.

Definition ex_compressor_model : Constraints :=
  built (Compressor.add_compressor_constraints ex_cfg true []).

(** The demand of 80 met by the solar source: 800/9 produced, a tenth of
    it lost in the inverter. *)
Definition ex_solar : Assignment :=
  fun name _ =>
    if String.eqb name "res_energy_production" then 800 # 9
    else if String.eqb name "res_conversion_losses" then 80 # 9
    else 0.

(** A step duration of zero, and one investment step for six years. *)
Definition ex_cfg_no_duration : Project.Config :=
  ex_project ex_years [1; 2]%Z [0; 1; 2]%Z ["Diesel"%string] 0
             true true true true 0 3 ex_param.

Definition ex_cfg_one_step : Project.Config :=
  ex_project ex_years [1]%Z [0; 1; 2]%Z ["Diesel"%string] 3
             true true true true 0 3 ex_param.

(** Half of the production has to be renewable. *)
Definition ex_cfg_penetration : Project.Config :=
  ex_project ex_years [1; 2]%Z [0; 1; 2]%Z ["Diesel"%string] 3
             true true true true (1 # 2) 3 ex_param.

Definition ex_penetration_model : Constraints :=
  built (EnergyBalance.add_energy_balance_constraints ex_cfg_penetration true true true []).

End Examples.

(* ================================================================== *)
(** * Properties *)

Lemma Qeq_bool_false_iff (a b : Q) : Qeq_bool a b = false <-> ~ a == b.
Proof.
  rewrite <- Qeq_bool_iff. destruct (Qeq_bool a b); split; intro H.
  - discriminate.
  - exfalso; apply H; reflexivity.
  - intro H'; discriminate.
  - reflexivity.
Qed.

Lemma py_truediv_ok (a b : Q) : ~ b == 0 -> py_truediv a b = Ok (a / b).
Proof.
  intro H. unfold py_truediv.
  apply Qeq_bool_false_iff in H. now rewrite H.
Qed.

Section DiscountRate.
Import Utils.

Variable data : ProjectParameters.

Let a := advanced data.
Let leverage := debt_share a / equity_share a.

(** With shares that sum to one and a nonzero equity share, [1 + leverage]
    is [1 / equity_share], hence nonzero. *)
Lemma leverage_defined :
  equity_share a + debt_share a == 1 ->
  ~ equity_share a == 0 ->
  ~ 1 + leverage == 0.
Proof.
  intros Hsum Hne Hz. subst leverage.
  assert (E : (1 + debt_share a / equity_share a) * equity_share a == 1).
  { field_simplify; [ | exact Hne ]. rewrite <- Hsum. field. }
  rewrite Hz in E. lra.
Qed.

(** C9. With WACC enabled and a nonzero equity share the discount rate is
    [cost_of_debt*(1-tax)*leverage/(1+leverage) + cost_of_equity/(1+leverage)]
    with [leverage = debt_share/equity_share], which is equal to the
    specification's arrangement of the same formula; with a zero equity
    share it is [cost_of_debt*(1-tax)]; with WACC disabled it is the
    user-supplied discount rate.  ([1 + leverage] must be nonzero for the
    quotient to exist; it is whenever the shares sum to one.) *)
Theorem operate_discount_rate_spec :
  (wacc_calculation a = true ->
   ~ equity_share a == 0 ->
   ~ 1 + leverage == 0 ->
   operate_discount_rate data =
     Ok (cost_of_debt a * (1 - tax a) * leverage / (1 + leverage)
         + cost_of_equity a / (1 + leverage))
   /\ cost_of_debt a * (1 - tax a) * leverage / (1 + leverage)
      + cost_of_equity a / (1 + leverage)
      == debt_share a / equity_share a * cost_of_debt a * (1 - tax a) / (1 + leverage)
         + cost_of_equity a / (1 + leverage))
  /\ (wacc_calculation a = true ->
      equity_share a == 0 ->
      operate_discount_rate data = Ok (cost_of_debt a * (1 - tax a)))
  /\ (wacc_calculation a = false ->
      operate_discount_rate data = Ok (discount_rate (project data))).
Proof.
  unfold operate_discount_rate. fold a.
  split; [ | split ].
  - intros Hw He Hl. rewrite Hw.
    apply Qeq_bool_false_iff in He. rewrite He.
    apply Qeq_bool_false_iff in He.
    rewrite (py_truediv_ok _ _ He). cbn [bind]. fold leverage.
    rewrite !(py_truediv_ok _ _ Hl). cbn [bind].
    split; [ reflexivity | ].
    subst leverage. unfold Qdiv. ring.
  - intros Hw He. rewrite Hw.
    apply Qeq_bool_iff in He. now rewrite He.
  - intros Hw. now rewrite Hw.
Qed.

End DiscountRate.

Lemma operate_discount_rate_spec_witness :
  Utils.operate_discount_rate (Examples.wacc_example true (4 # 10) (6 # 10))
    = Ok ((6 # 100) * (1 - (25 # 100)) * ((6 # 10) / (4 # 10)) / (1 + (6 # 10) / (4 # 10))
          + (12 # 100) / (1 + (6 # 10) / (4 # 10)))
  /\ Utils.operate_discount_rate (Examples.wacc_example true 0 1)
     = Ok ((6 # 100) * (1 - (25 # 100)))
  /\ Utils.operate_discount_rate (Examples.wacc_example false (4 # 10) (6 # 10)) = Ok (1 # 10).
Proof.
  split; [ | split ].
  - apply (proj1 (operate_discount_rate_spec (Examples.wacc_example true (4 # 10) (6 # 10)))).
    + reflexivity.
    + cbn. intro H. discriminate H.
    + cbn. intro H. discriminate H.
  - apply (proj1 (proj2 (operate_discount_rate_spec (Examples.wacc_example true 0 1)))).
    + reflexivity.
    + reflexivity.
  - apply (proj2 (proj2 (operate_discount_rate_spec (Examples.wacc_example false (4 # 10) (6 # 10))))).
    reflexivity.
Defined.

(* ------------------------------------------------------------------ *)
(** ** The constraint store *)

Section Store.
Import Linopy.
Context {C : Type}.

Lemma has_name_app (name : string) (cs ds : list (string * C)) :
  has_name name (cs ++ ds) = has_name name cs || has_name name ds.
Proof. unfold has_name. apply existsb_app. Qed.

Lemma has_name_last (name : string) (c : C) (cs : list (string * C)) :
  has_name name (cs ++ [(name, c)]) = true.
Proof.
  rewrite has_name_app. unfold has_name at 2. cbn.
  rewrite String.eqb_refl. now rewrite orb_true_r.
Qed.

Lemma has_name_In (name : string) (cs : list (string * C)) :
  has_name name cs = true <-> exists c, In (name, c) cs.
Proof.
  unfold has_name. rewrite existsb_exists. split.
  - intros [[n c] [Hin Heq]]. cbn in Heq. apply String.eqb_eq in Heq. subst.
    now exists c.
  - intros [c Hin]. exists (name, c). split; [ exact Hin | ]. cbn.
    apply String.eqb_refl.
Qed.

Lemma filter_fresh (name : string) (cs : list (string * C)) :
  has_name name cs = false ->
  filter (fun nc => negb (String.eqb name (fst nc))) cs = cs.
Proof.
  induction cs as [ | [n c] cs IH ]; cbn; intro H; [ reflexivity | ].
  apply orb_false_iff in H. destruct H as [H1 H2].
  rewrite H1. cbn. now rewrite IH.
Qed.

(** Adding a fresh name and removing it again gives back the store. *)
Lemma remove_after_add (name : string) (c : C) (cs : list (string * C)) :
  has_name name cs = false ->
  (cs' <- add_constraints c name cs ;; remove_constraints name cs') = Ok cs.
Proof.
  intro H. unfold add_constraints. rewrite H. cbn [bind].
  unfold remove_constraints. rewrite has_name_last.
  rewrite filter_app, (filter_fresh _ _ H). cbn.
  rewrite String.eqb_refl. cbn. now rewrite app_nil_r.
Qed.

Lemma add_constraints_In (name : string) (c : C) (cs cs' : list (string * C)) :
  add_constraints c name cs = Ok cs' -> cs' = cs ++ [(name, c)].
Proof.
  unfold add_constraints. destruct (has_name name cs); congruence.
Qed.

End Store.

(* ------------------------------------------------------------------ *)
(** ** The Pareto driver *)

Ltac simpl_state :=
  cbn [Model.objective Model.constraints Model.solve_calls Model.solution
       Model.set_objective Model.set_solution Model.set_constraints
       Model.count_call].

Section ParetoSweep.
Import Linopy Model Float64.

Variable solver :
  nat -> option LinearExpression -> list (string * ModelConstraint) -> SolverOutcome.
Variable _build : M unit.
Variable scenario_labels : list label.
Variable SCENARIO_WEIGHTS : DataArray.
Variable optimization_goal : Z.

Abbreviation cost_obj := (cost_objective scenario_labels SCENARIO_WEIGHTS optimization_goal).
Abbreviation emis_obj := (emissions_objective scenario_labels SCENARIO_WEIGHTS).
Abbreviation cost_var := (cost_objective_variable optimization_goal).
Abbreviation total_emissions :=
  (weighted_sum scenario_labels SCENARIO_WEIGHTS "scenario_co2_emission").
Abbreviation step_body :=
  (sweep_step solver scenario_labels SCENARIO_WEIGHTS optimization_goal).
Abbreviation loop := (sweep solver scenario_labels SCENARIO_WEIGHTS optimization_goal).
Abbreviation run :=
  (solve_multi_objective solver _build scenario_labels SCENARIO_WEIGHTS optimization_goal).
Abbreviation capped := (Model.capped scenario_labels SCENARIO_WEIGHTS).

(** One iteration whose solve succeeds. *)
Lemma sweep_step_ok (min_co2 es : float64) (i : Z) (acc : Sweep) (st : State)
      (ds : Dataset) (npc : float64) :
  has_name (co2_threshold i) (constraints st) = false ->
  solver (solve_calls st) (Some cost_obj) (capped (constraints st) min_co2 es i)
    = Solved ds ->
  get ds cost_var = Some npc ->
  step_body min_co2 es i acc st =
    (Ok {| npc_values := npc_values acc ++ [npc];
           co2_values := co2_values acc ++ [np_add_mul min_co2 i es];
           solutions := solutions acc ++ [Some ds] |},
     {| objective := Some cost_obj; constraints := constraints st;
        solution := Some ds; solve_calls := S (solve_calls st) |}).
Proof.
  intros Hfresh Hsol Hget.
  destruct st as [o cs sol k]. cbn [constraints solve_calls] in *.
  unfold capped in Hsol.
  unfold sweep_step, mbind, model_add_constraints, add_constraints.
  cbn [constraints]. rewrite Hfresh.
  unfold add_objective, _solve, set_constraints, set_objective.
  cbn [objective constraints solve_calls solution].
  assert (E : forall (o' : option LinearExpression) (A : Type) (x : A),
             match o', true with Some _, false => x | _, _ => x end = x)
    by (intros [ | ] ? ?; reflexivity).
  destruct o; cbn [objective constraints solve_calls solution];
    rewrite Hsol; unfold get_values; rewrite Hget; unfold ret;
    unfold model_remove_constraints, remove_constraints;
    cbn [set_solution count_call set_constraints constraints objective
         solve_calls solution];
    rewrite has_name_last, filter_app, (filter_fresh _ _ Hfresh);
    cbn [filter fst]; rewrite String.eqb_refl; cbn [negb];
    rewrite app_nil_r; reflexivity.
Qed.

(** One iteration whose solve raises: the cap stays in the model. *)
Lemma sweep_step_fail (min_co2 es : float64) (i : Z) (acc : Sweep) (st : State) :
  has_name (co2_threshold i) (constraints st) = false ->
  solver (solve_calls st) (Some cost_obj) (capped (constraints st) min_co2 es i)
    = SolverFailure ->
  step_body min_co2 es i acc st =
    (Raise RuntimeError,
     {| objective := Some cost_obj;
        constraints := capped (constraints st) min_co2 es i;
        solution := solution st; solve_calls := S (solve_calls st) |}).
Proof.
  intros Hfresh Hsol.
  destruct st as [o cs sol k]. cbn [constraints solve_calls solution] in *.
  unfold capped in *.
  unfold sweep_step, mbind, model_add_constraints, add_constraints.
  cbn [constraints]. rewrite Hfresh.
  unfold add_objective, _solve, set_constraints, set_objective.
  cbn [objective constraints solve_calls solution].
  destruct o; cbn [objective constraints solve_calls solution];
    rewrite Hsol; reflexivity.
Qed.

Lemma sweep_app (min_co2 es : float64) (r1 r2 : list Z) (acc : Sweep) (st : State) :
  loop min_co2 es (r1 ++ r2) acc st =
    match loop min_co2 es r1 acc st with
    | (Ok acc', st') => loop min_co2 es r2 acc' st'
    | (Raise e, st') => (Raise e, st')
    end.
Proof.
  revert acc st. induction r1 as [ | i r1 IH ]; intros acc st; [ reflexivity | ].
  cbn [app sweep]. unfold mbind.
  destruct (step_body min_co2 es i acc st) as [[acc' | e] st']; [ apply IH | reflexivity ].
Qed.

Lemma sweep_nil (min_co2 es : float64) (acc : Sweep) (st : State) :
  loop min_co2 es [] acc st = (Ok acc, st).
Proof. reflexivity. Qed.

(** The sweep over [a, a+1, ..., a+n-1] when each of its solves succeeds:
    iteration [i] is solved on the built constraints plus its own cap
    only, and the built constraints are what is left at the end. *)
Lemma sweep_ok (min_co2 es : float64) (base : list (string * ModelConstraint))
      (k0 : nat) (sols : Z -> Dataset) (costs : Z -> float64) :
  forall (n a : nat) (acc : Sweep) (st : State),
    constraints st = base ->
    solve_calls st = (k0 + a)%nat ->
    (forall i : nat, (a <= i < a + n)%nat ->
       has_name (co2_threshold (Z.of_nat i)) base = false
       /\ solver (k0 + i)%nat (Some cost_obj) (capped base min_co2 es (Z.of_nat i))
          = Solved (sols (Z.of_nat i))
       /\ get (sols (Z.of_nat i)) cost_var = Some (costs (Z.of_nat i))) ->
    exists st',
      loop min_co2 es (map Z.of_nat (seq a n)) acc st =
        (Ok {| npc_values := npc_values acc ++ map costs (map Z.of_nat (seq a n));
               co2_values := co2_values acc
                             ++ map (fun i => np_add_mul min_co2 i es)
                                    (map Z.of_nat (seq a n));
               solutions := solutions acc
                            ++ map (fun i => Some (sols i)) (map Z.of_nat (seq a n)) |},
         st')
      /\ constraints st' = base
      /\ solve_calls st' = (k0 + a + n)%nat
      /\ (n <> 0%nat -> objective st' = Some cost_obj).
Proof.
  induction n as [ | n IH ]; intros a acc st Hc Hk Hall.
  - exists st. cbn [seq map sweep ret]. rewrite !app_nil_r.
    destruct acc. repeat split; try assumption; try lia. 
  - cbn [seq map sweep]. unfold mbind.
    destruct (Hall a ltac:(lia)) as (Hf & Hs & Hg).
    rewrite <- Hc in Hf, Hs. rewrite <- Hk in Hs.
    rewrite (sweep_step_ok min_co2 es (Z.of_nat a) acc st _ _ Hf Hs Hg).
    match goal with
    | |- context [ loop _ _ _ ?acc1 ?st1 ] =>
        destruct (IH (S a) acc1 st1) as (st' & Hrun & Hc' & Hk' & Ho')
    end.
    + exact Hc.
    + cbn [solve_calls]. lia.
    + intros i Hi. apply Hall. lia.
    + exists st'. rewrite Hrun. cbn [npc_values co2_values solutions].
      rewrite <- !app_assoc. cbn [app].
      repeat split; try assumption; try lia.
      intros _. destruct n as [ | n' ].
      * cbn [seq map sweep ret] in Hrun. now inversion Hrun.
      * apply Ho'. discriminate.
Qed.

Lemma combine_map {A B D : Type} (f : A -> B) (g : A -> D) (l : list A) :
  combine (map f l) (map g l) = map (fun x => (f x, g x)) l.
Proof. induction l as [ | x l IH ]; cbn; [ reflexivity | now rewrite IH ]. Qed.

Lemma seq_split (n k : nat) :
  (k < n)%nat -> seq 0 n = seq 0 k ++ k :: seq (S k) (n - S k).
Proof.
  intro H. replace n with (k + S (n - S k))%nat at 1 by lia.
  now rewrite seq_app.
Qed.

Lemma py_range_nat (n : Z) : py_range n = map Z.of_nat (seq 0 (Z.to_nat n)).
Proof. reflexivity. Qed.

Lemma py_range_nonpos (n : Z) : (n <= 0)%Z -> py_range n = [].
Proof.
  intro H. unfold py_range. replace (Z.to_nat n) with 0%nat by lia. reflexivity.
Qed.

(** The number of solver calls never decreases along the sweep. *)
Lemma sweep_step_calls (m es : float64) (i : Z) (acc : Sweep) (st : State) :
  (solve_calls st <= solve_calls (snd (step_body m es i acc st)))%nat.
Proof.
  unfold sweep_step, mbind, model_add_constraints, add_objective, _solve,
    get_values, model_remove_constraints, ret, raise.
  destruct (@add_constraints _ _ _ (constraints st)) as [cs | e]; [ | cbn; lia ].
  simpl_state.
  destruct (objective st);
    destruct (solver _ _ _) as [ | | | ds ];
    cbn -[remove_constraints get]; try lia;
    destruct (get _ _); cbn -[remove_constraints get]; try lia;
    destruct (@remove_constraints _ _ _); cbn; lia.
Qed.

Lemma sweep_calls (m es : float64) (range : list Z) :
  forall (acc : Sweep) (st : State),
    (solve_calls st <= solve_calls (snd (loop m es range acc st)))%nat.
Proof.
  induction range as [ | i range IH ]; intros acc st; [ cbn; lia | ].
  cbn [sweep]. unfold mbind.
  pose proof (sweep_step_calls m es i acc st) as H1.
  destruct (step_body m es i acc st) as [[acc' | e] st']; cbn [snd] in *.
  - specialize (IH acc' st'). lia.
  - exact H1.
Qed.

(** *** The two anchor solves *)

Variables st0 st1 : State.
Hypothesis build_ok : _build st0 = (Ok tt, st1).
Hypothesis no_objective : objective st1 = None.

Variables s1 s2 : Dataset.
Variables max_co2 min_co2 : float64.
Hypothesis solve1 :
  solver (solve_calls st1) (Some cost_obj) (constraints st1) = Solved s1.
Hypothesis emissions1 : get s1 "Total CO2 Emissions" = Some max_co2.
Hypothesis solve2 :
  solver (S (solve_calls st1)) (Some emis_obj) (constraints st1) = Solved s2.
Hypothesis emissions2 : get s2 "Total CO2 Emissions" = Some min_co2.

Lemma run_after_anchors (num_points : Z) :
  run num_points st0 =
    match loop min_co2 (np_div_int (Float64.sub max_co2 min_co2) (num_points - 1))
               (py_range num_points)
               {| npc_values := []; co2_values := []; solutions := [Some s1; Some s2] |}
               (after_anchors scenario_labels SCENARIO_WEIGHTS st1 s2) with
    | (Ok acc, st') => (Ok (combine (co2_values acc) (npc_values acc), solutions acc), st')
    | (Raise e, st') => (Raise e, st')
    end.
Proof.
  unfold solve_multi_objective, mbind. rewrite build_ok.
  unfold add_objective at 1. rewrite no_objective.
  unfold _solve at 1. simpl_state.
  rewrite solve1. unfold get_values at 1. rewrite emissions1. unfold ret at 1.
  unfold add_objective at 1. simpl_state.
  unfold _solve at 1. simpl_state.
  rewrite solve2. unfold get_values at 1. rewrite emissions2. unfold ret at 1.
  simpl_state. cbn [app].
  unfold after_anchors.
  match goal with
  | |- match ?x with _ => _ end = match ?y with _ => _ end =>
      change x with y; destruct y as [[acc | e] st']; reflexivity
  end.
Qed.

(** The expressions of the driver, written out. *)
Lemma cost_objective_eq :
  cost_obj
  = LSum scenarios scenario_labels
         (LScale SCENARIO_WEIGHTS
                 (LVar (if (optimization_goal =? 0)%Z
                        then "scenario_net_present_cost"
                        else "total_scenario_variable_cost_nonact")%string)).
Proof. unfold cost_objective. destruct (optimization_goal =? 0)%Z; reflexivity. Qed.

(** The first threshold of a sweep whose step is finite is [min_co2]
    (up to the sign of a zero). *)
Lemma add_zero_mul (x step : float64) :
  is_finite step = true ->
  Float64.add x (Float64.mul (of_int 0) step) = x
  \/ (is_zero (Float64.add x (Float64.mul (of_int 0) step)) = true /\ is_zero x = true).
Proof.
  destruct step as [ [ | ] | [ | ] | | [ | ] m e ]; try discriminate; intros _;
    destruct x as [ [ | ] | [ | ] | | [ | ] mx ex ];
    try (left; reflexivity); right; split; reflexivity.
Qed.

(** With one point the step is a quotient by zero, and the threshold is
    a NaN whatever the anchors are. *)
Lemma quotient_by_zero_not_finite (x : float64) :
  is_finite (np_div_int x 0) = false.
Proof. destruct x as [ [ | ] | [ | ] | | [ | ] m e ]; reflexivity. Qed.

Lemma threshold_of_quotient_by_zero (x y : float64) :
  np_add_mul x 0 (np_div_int y 0) = S754_nan.
Proof.
  destruct y as [ [ | ] | [ | ] | | [ | ] m e ];
    destruct x as [ [ | ] | [ | ] | | [ | ] mx ex ]; reflexivity.
Qed.

(** C1 (as the code has it, in [float64] arithmetic). With
    [num_points >= 2]: [max_co2] is read from the first solve, whose
    objective is the scenario-weighted sum of the cost variable and whose
    constraints are the built ones only; [min_co2] is read from the second,
    whose objective is the scenario-weighted sum of the emission variable.
    Sweep point [i] is then solved with the cost objective on the built
    constraints plus the single cap
    [sum over scenarios of weight * emission <= threshold i], where
    [threshold i] is the [float64] value of
    [min_co2 + i * ((max_co2 - min_co2) / (num_points - 1))]; the pair
    (threshold, cost) is recorded, and the cap is gone again afterwards
    (the next point's model holds only its own cap, and the built
    constraints remain at the end).  For [num_points = 2] there are two
    thresholds and no intermediate point; when the step is finite the
    first is [min_co2] (up to the sign of a zero).  The second is the
    rounded sum [min_co2 + 1 * ((max_co2 - min_co2) / 1)], which can differ
    from [max_co2] in the last place. *)
Theorem solve_multi_objective_sweep
        (num_points : Z) (sols : Z -> Dataset) (costs : Z -> float64) :
  let cost_variable :=
    (if (optimization_goal =? 0)%Z
     then "scenario_net_present_cost" else "total_scenario_variable_cost_nonact")%string in
  let cost := LSum scenarios scenario_labels (LScale SCENARIO_WEIGHTS (LVar cost_variable)) in
  let emissions :=
    LSum scenarios scenario_labels
         (LScale SCENARIO_WEIGHTS (LVar "scenario_co2_emission")) in
  let cost_name :=
    (if (optimization_goal =? 0)%Z
     then "Net Present Cost" else "Total Variable Cost")%string in
  let step :=
    Float64.div (Float64.sub max_co2 min_co2) (Float64.of_int (num_points - 1)) in
  let threshold (i : Z) := Float64.add min_co2 (Float64.mul (Float64.of_int i) step) in
  (2 <= num_points)%Z ->
  (forall i : Z, (0 <= i < num_points)%Z ->
     has_name (co2_threshold i) (constraints st1) = false
     /\ solver (S (S (solve_calls st1)) + Z.to_nat i)%nat (Some cost)
               (constraints st1 ++ [(co2_threshold i, UpperBound emissions (threshold i))])
        = Solved (sols i)
     /\ get (sols i) cost_name = Some (costs i)) ->
  (cost_obj = cost
   /\ emis_obj = emissions
   /\ (forall (rho : Assignment) (pt : coord),
         eval rho cost pt
         = sumQ (map (fun s => SCENARIO_WEIGHTS (assign scenarios s pt)
                               * rho cost_variable (assign scenarios s pt))
                     scenario_labels)
         /\ eval rho emissions pt
            = sumQ (map (fun s => SCENARIO_WEIGHTS (assign scenarios s pt)
                                  * rho "scenario_co2_emission"%string
                                        (assign scenarios s pt))
                        scenario_labels)))
  /\ (exists st',
        run num_points st0 =
          (Ok (map (fun i => (threshold i, costs i)) (py_range num_points),
               Some s1 :: Some s2 :: map (fun i => Some (sols i)) (py_range num_points)),
           st')
        /\ constraints st' = constraints st1
        /\ objective st' = Some cost
        /\ solve_calls st' = (solve_calls st1 + 2 + Z.to_nat num_points)%nat)
  /\ (num_points = 2%Z ->
      map threshold (py_range num_points) = [threshold 0%Z; threshold 1%Z]
      /\ (is_finite step = true ->
          threshold 0%Z = min_co2
          \/ (is_zero (threshold 0%Z) = true /\ is_zero min_co2 = true))).
Proof.
  intros cost_variable cost emissions cost_name step threshold Hnp Hall.
  assert (Ecost : cost_obj = cost) by apply cost_objective_eq.
  split; [ | split ].
  - split; [ exact Ecost | ]. split; [ reflexivity | ].
    intros rho pt. split; reflexivity.
  - rewrite run_after_anchors.
    set (es := np_div_int (Float64.sub max_co2 min_co2) (num_points - 1)).
    destruct (sweep_ok min_co2 es (constraints st1) (S (S (solve_calls st1)))
                       sols costs (Z.to_nat num_points) 0
                       {| npc_values := []; co2_values := [];
                          solutions := [Some s1; Some s2] |}
                       (after_anchors scenario_labels SCENARIO_WEIGHTS st1 s2))
      as (st' & Hrun & Hc & Hk & Ho).
    + reflexivity.
    + cbn [after_anchors solve_calls]. lia.
    + intros i Hi.
      destruct (Hall (Z.of_nat i) ltac:(lia)) as (Hf & Hs & Hg).
      rewrite Nat2Z.id in Hs.
      repeat split; try assumption.
      rewrite Ecost. exact Hs.
    + exists st'. fold (py_range num_points) in Hrun. rewrite Hrun.
      cbn [npc_values co2_values solutions app].
      repeat split; try assumption.
      * now rewrite combine_map.
      * rewrite <- Ecost. apply Ho. lia.
      * lia.
  - intros ->. split; [ reflexivity | ].
    intro Hfin. unfold threshold. apply add_zero_mul. exact Hfin.
Qed.

(** C10. When the solver call of sweep iteration [i] raises (the earlier
    ones having succeeded), [solve_multi_objective] ends with a
    [RuntimeError] and the model still holds the cap [co2_threshold_i] on
    top of the built constraints. *)
Theorem sweep_failure_keeps_threshold
        (num_points i : Z) (sols : Z -> Dataset) (costs : Z -> float64) :
  (0 <= i < num_points)%Z ->
  (forall j : Z, (0 <= j < i)%Z ->
     has_name (co2_threshold j) (constraints st1) = false
     /\ solver (S (S (solve_calls st1)) + Z.to_nat j)%nat (Some cost_obj)
               (capped (constraints st1) min_co2
                       (np_div_int (Float64.sub max_co2 min_co2) (num_points - 1)) j)
        = Solved (sols j)
     /\ get (sols j) cost_var = Some (costs j)) ->
  has_name (co2_threshold i) (constraints st1) = false ->
  solver (S (S (solve_calls st1)) + Z.to_nat i)%nat (Some cost_obj)
         (capped (constraints st1) min_co2
                 (np_div_int (Float64.sub max_co2 min_co2) (num_points - 1)) i)
    = SolverFailure ->
  exists st',
    run num_points st0 = (Raise RuntimeError, st')
    /\ constraints st'
       = capped (constraints st1) min_co2
                (np_div_int (Float64.sub max_co2 min_co2) (num_points - 1)) i
    /\ has_name (co2_threshold i) (constraints st') = true.
Proof.
  intros Hi Hall Hfresh Hfail.
  rewrite run_after_anchors.
  set (es := np_div_int (Float64.sub max_co2 min_co2) (num_points - 1)) in *.
  assert (Hsplit : py_range num_points
                   = map Z.of_nat (seq 0 (Z.to_nat i))
                     ++ i :: map Z.of_nat (seq (S (Z.to_nat i))
                                                (Z.to_nat num_points - S (Z.to_nat i)))).
  { unfold py_range.
    rewrite (seq_split (Z.to_nat num_points) (Z.to_nat i)) by lia.
    rewrite map_app. cbn [map]. now rewrite Z2Nat.id by lia. }
  rewrite Hsplit, sweep_app.
  destruct (sweep_ok min_co2 es (constraints st1) (S (S (solve_calls st1)))
                     sols costs (Z.to_nat i) 0
                     {| npc_values := []; co2_values := [];
                        solutions := [Some s1; Some s2] |}
                     (after_anchors scenario_labels SCENARIO_WEIGHTS st1 s2))
    as (st' & Hrun & Hc & Hk & _).
  - reflexivity.
  - cbn [after_anchors solve_calls]. lia.
  - intros j Hj.
    destruct (Hall (Z.of_nat j) ltac:(lia)) as (Hf & Hs & Hg).
    rewrite Nat2Z.id in Hs. repeat split; assumption.
  - rewrite Hrun. cbn [sweep]. unfold mbind.
    rewrite <- Hc in Hfresh, Hfail.
    replace (S (S (solve_calls st1)) + Z.to_nat i)%nat with (solve_calls st') in Hfail by lia.
    rewrite (sweep_step_fail min_co2 es i _ st' Hfresh Hfail).
    eexists. split; [ reflexivity | ]. simpl_state. rewrite Hc.
    split; [ reflexivity | ]. unfold Model.capped. apply has_name_last.
Qed.

(** C8 (as the code has it). No check of [num_points] is made: when the
    build and the two anchor solves succeed, a run with [num_points < 2]
    ends with at least two solver calls made, so it does not fail before
    solving; for [num_points <= 0] the step size is computed with the
    nonzero divisor [num_points - 1], the sweep is empty and the run returns
    an empty front with the two anchor solutions; for [num_points = 1] the
    step size is the non-finite quotient by zero, under which a third solve
    is requested; the threshold of that solve is a NaN. *)
Theorem num_points_not_checked (num_points : Z) :
  (num_points < 2)%Z ->
  (solve_calls st1 + 2 <= solve_calls (snd (run num_points st0)))%nat
  /\ ((num_points <= 0)%Z ->
      run num_points st0
      = (Ok ([], [Some s1; Some s2]),
         after_anchors scenario_labels SCENARIO_WEIGHTS st1 s2))
  /\ (num_points = 1%Z ->
      is_finite (np_div_int (Float64.sub max_co2 min_co2) (num_points - 1)) = false
      /\
      forall (ds : Dataset) (npc : float64),
        has_name (co2_threshold 0) (constraints st1) = false ->
        solver (S (S (solve_calls st1))) (Some cost_obj)
               (constraints st1
                ++ [(co2_threshold 0, UpperBound total_emissions S754_nan)])
          = Solved ds ->
        get ds cost_var = Some npc ->
        fst (run num_points st0)
        = Ok ([(S754_nan, npc)], [Some s1; Some s2; Some ds])).
Proof.
  intros Hnp. rewrite run_after_anchors. split; [ | split ].
  - match goal with
    | |- context [ loop ?m ?es ?r ?acc ?st ] =>
        pose proof (sweep_calls m es r acc st) as H;
        destruct (loop m es r acc st) as [[acc' | e] st']
    end; cbn [snd after_anchors solve_calls] in *; lia.
  - intros Hle. now rewrite (py_range_nonpos _ Hle).
  - intros ->. split; [ apply quotient_by_zero_not_finite | ].
    intros ds npc Hfresh Hsol Hget.
    change (py_range 1) with [0%Z]. change (1 - 1)%Z with 0%Z.
    cbn [sweep]. unfold mbind.
    rewrite (sweep_step_ok min_co2 _ 0 _ _ ds npc).
    + cbn [npc_values co2_values solutions app combine fst].
      now rewrite threshold_of_quotient_by_zero.
    + exact Hfresh.
    + unfold Model.capped. rewrite threshold_of_quotient_by_zero. exact Hsol.
    + exact Hget.
Qed.

End ParetoSweep.

(** *** The driver on example inputs *)

Section ParetoExamples.
Import Linopy Model Float64 Examples.

Lemma solve_multi_objective_sweep_witness :
  exists st',
    ex_run ex_solver 2 =
      (Ok ([(of_int 40, of_int 1500); (of_int 100, of_int 900)],
           [Some (ex_dataset 0); Some (ex_dataset 1);
            Some (ex_dataset 2); Some (ex_dataset 3)]),
       st')
    /\ constraints st' = constraints ex_st1
    /\ objective st'
       = Some (LSum scenarios [Num 0]
                    (LScale (scalar 1) (LVar "scenario_net_present_cost"))).
Proof.
  assert (Hall : forall i : Z, (0 <= i < 2)%Z ->
     has_name (co2_threshold i) (constraints ex_st1) = false
     /\ ex_solver (S (S (solve_calls ex_st1)) + Z.to_nat i)%nat
                  (Some (LSum scenarios [Num 0]
                              (LScale (scalar 1) (LVar "scenario_net_present_cost"))))
                  (constraints ex_st1
                   ++ [(co2_threshold i,
                        UpperBound
                          (LSum scenarios [Num 0]
                                (LScale (scalar 1) (LVar "scenario_co2_emission")))
                          (Float64.add (of_int 40)
                             (Float64.mul (of_int i)
                                (Float64.div (Float64.sub (of_int 100) (of_int 40))
                                             (of_int (2 - 1))))))])
        = Solved (ex_dataset (2 + Z.to_nat i))
     /\ get (ex_dataset (2 + Z.to_nat i)) "Net Present Cost"
        = Some (ex_npc (2 + Z.to_nat i))).
  { intros i Hi. assert (E : i = 0%Z \/ i = 1%Z) by lia.
    destruct E as [-> | ->]; repeat split; reflexivity. }
  destruct (solve_multi_objective_sweep
              ex_solver ex_build [Num 0] (scalar 1) 0 ex_st0 ex_st1
              eq_refl eq_refl (ex_dataset 0) (ex_dataset 1) (of_int 100) (of_int 40)
              eq_refl eq_refl eq_refl eq_refl
              2 (fun i => ex_dataset (2 + Z.to_nat i))
              (fun i => ex_npc (2 + Z.to_nat i))
              ltac:(lia) Hall)
    as (_ & (st' & Hrun & Hc & Ho & _) & _).
  exists st'. repeat split; assumption.
Defined.

(** C1 as stated fails in its last part: with anchor emissions of 0.9 and
    0.2 the two-point sweep records the thresholds 0.2 and
    0.8999999999999999, the second of which is one unit in the last place
    below [max_co2]. *)
Lemma two_point_sweep_misses_max_co2 :
  fst (ex_run ex_decimal_solver 2)
  = Ok ([(ex_decimal 2 10, of_int 1500);
         (S754_finite false 8106479329266892 (-53), of_int 900)],
        [Some (ex_decimal_dataset 0); Some (ex_decimal_dataset 1);
         Some (ex_decimal_dataset 2); Some (ex_decimal_dataset 3)])
  /\ get (ex_decimal_dataset 0) "Total CO2 Emissions"
     = Some (S754_finite false 8106479329266893 (-53))
  /\ get (ex_decimal_dataset 1) "Total CO2 Emissions" = Some (ex_decimal 2 10)
  /\ SFeqb (S754_finite false 8106479329266892 (-53))
           (S754_finite false 8106479329266893 (-53)) = false
  /\ SFltb (S754_finite false 8106479329266892 (-53))
           (S754_finite false 8106479329266893 (-53)) = true.
Proof. repeat split; vm_compute; reflexivity. Qed.

Lemma sweep_failure_keeps_threshold_witness :
  exists st',
    ex_run (ex_failing_solver 3) 3 = (Raise RuntimeError, st')
    /\ constraints st'
       = Examples.ex_st1.(constraints)
         ++ [("co2_threshold_1"%string,
              UpperBound (weighted_sum [Num 0] (scalar 1) "scenario_co2_emission")
                         (np_add_mul (of_int 40) 1
                            (np_div_int (Float64.sub (of_int 100) (of_int 40)) (3 - 1))))]
    /\ has_name "co2_threshold_1" (constraints st') = true.
Proof.
  apply (sweep_failure_keeps_threshold
           (ex_failing_solver 3) ex_build [Num 0] (scalar 1) 0 ex_st0 ex_st1
           eq_refl eq_refl (ex_dataset 0) (ex_dataset 1) (of_int 100) (of_int 40)
           eq_refl eq_refl eq_refl eq_refl
           3 1 (fun i => ex_dataset (2 + Z.to_nat i))
           (fun i => ex_npc (2 + Z.to_nat i))).
  - lia.
  - intros j Hj. assert (E : j = 0%Z) by lia. subst j.
    repeat split; reflexivity.
  - reflexivity.
  - reflexivity.
Defined.

(** C8 as stated fails: with [num_points = 0] the run solves twice and
    returns normally. *)
Lemma num_points_zero_returns :
  ex_run ex_solver 0
  = (Ok ([], [Some (ex_dataset 0); Some (ex_dataset 1)]),
     {| objective := Some (emissions_objective [Num 0] (scalar 1));
        constraints := constraints ex_st1;
        solution := Some (ex_dataset 1);
        solve_calls := 2 |})
  /\ ~ raises_before_solving
       (solve_multi_objective ex_solver ex_build [Num 0] (scalar 1) 0 0) ex_st0.
Proof.
  assert (E : ex_run ex_solver 0
              = (Ok ([], [Some (ex_dataset 0); Some (ex_dataset 1)]),
                 {| objective := Some (emissions_objective [Num 0] (scalar 1));
                    constraints := constraints ex_st1;
                    solution := Some (ex_dataset 1);
                    solve_calls := 2 |})) by reflexivity.
  split; [ exact E | ].
  intros (e & st' & Hrun & _). unfold ex_run in E. rewrite E in Hrun. discriminate Hrun.
Qed.

Lemma num_points_not_checked_witness :
  (2 <= solve_calls (snd (ex_run ex_solver 1)))%nat
  /\ fst (ex_run ex_solver 1)
     = Ok ([(S754_nan, of_int 1500)],
           [Some (ex_dataset 0); Some (ex_dataset 1); Some (ex_dataset 2)]).
Proof.
  destruct (num_points_not_checked
              ex_solver ex_build [Num 0] (scalar 1) 0 ex_st0 ex_st1
              eq_refl eq_refl (ex_dataset 0) (ex_dataset 1) (of_int 100) (of_int 40)
              eq_refl eq_refl eq_refl eq_refl 1 ltac:(lia))
    as (Hcalls & _ & Hone).
  split; [ exact Hcalls | ].
  apply (proj2 (Hone eq_refl) (ex_dataset 2) (of_int 1500)); reflexivity.
Defined.

End ParetoExamples.

(* ------------------------------------------------------------------ *)
(** ** Loops that add constraints *)

Lemma bind_ok {A B : Type} (r : result A) (k : A -> result B) (b : B) :
  bind r k = Ok b -> exists a, r = Ok a /\ k a = Ok b.
Proof. destruct r as [a | e]; cbn; [ eauto | discriminate ]. Qed.

Ltac inv_bind H :=
  let a := fresh "a" in
  let H1 := fresh H in
  apply bind_ok in H; destruct H as (a & H1 & H).

Import Linopy.

Lemma extends_refl {C : Type} (m : list (string * C)) : extends m m.
Proof. exists []. now rewrite app_nil_r. Qed.

Lemma extends_trans {C : Type} (m1 m2 m3 : list (string * C)) :
  extends m1 m2 -> extends m2 m3 -> extends m1 m3.
Proof. intros [e1 ->] [e2 ->]. exists (e1 ++ e2). now rewrite app_assoc. Qed.

Lemma extends_In {C : Type} (m m' : list (string * C)) (x : string * C) :
  extends m m' -> In x m -> In x m'.
Proof. intros [e ->] H. apply in_or_app. now left. Qed.

Lemma add_constraints_ok {C : Type} (c : C) (name : string) (m m' : list (string * C)) :
  Linopy.add_constraints c name m = Ok m' ->
  m' = m ++ [(name, c)] /\ Linopy.has_name name m = false.
Proof.
  unfold Linopy.add_constraints. destruct (Linopy.has_name name m); [ discriminate | ].
  intro H. injection H as <-. now split.
Qed.

Lemma add_constraints_extends {C : Type} (c : C) (name : string) (m m' : list (string * C)) :
  Linopy.add_constraints c name m = Ok m' -> extends m m' /\ In (name, c) m'.
Proof.
  intro H. apply add_constraints_ok in H. destruct H as [-> _]. split.
  - now exists [(name, c)].
  - apply in_or_app. right. now left.
Qed.

Section Loops.
Context {A S : Type}.
Variable R : S -> S -> Prop.
Hypothesis R_refl : forall s, R s s.
Hypothesis R_trans : forall s1 s2 s3, R s1 s2 -> R s2 s3 -> R s1 s3.

Lemma for_each_rel (xs : list A) (body : A -> S -> result S) :
  (forall x s s', In x xs -> body x s = Ok s' -> R s s') ->
  forall s s', for_each xs body s = Ok s' -> R s s'.
Proof.
  induction xs as [ | x xs IH ]; intros Hbody s s' H; cbn in H.
  - injection H as <-. apply R_refl.
  - inv_bind H. apply R_trans with a.
    + apply (Hbody x); [ now left | assumption ].
    + apply IH; [ | assumption ]. intros y t t' Hy. apply Hbody. now right.
Qed.

(** Every element of the list had its turn, between two states related to
    the first and the last. *)
Lemma for_each_In (xs : list A) (body : A -> S -> result S) :
  (forall x s s', In x xs -> body x s = Ok s' -> R s s') ->
  forall x s s', In x xs -> for_each xs body s = Ok s' ->
    exists s1 s2, R s s1 /\ body x s1 = Ok s2 /\ R s2 s'.
Proof.
  induction xs as [ | y xs IH ]; intros Hbody x s s' Hin H; [ contradiction | ].
  cbn in H. inv_bind H.
  assert (Hrest : forall z t t', In z xs -> body z t = Ok t' -> R t t')
    by (intros z t t' Hz; apply Hbody; now right).
  destruct Hin as [-> | Hin].
  - exists s, a. repeat split; [ apply R_refl | assumption | ].
    apply (for_each_rel xs body Hrest _ _ H).
  - destruct (IH Hrest x a s' Hin H) as (s1 & s2 & H1 & H2 & H3).
    exists s1, s2. repeat split; try assumption.
    apply R_trans with a; [ | assumption ].
    apply (Hbody y); [ now left | assumption ].
Qed.

End Loops.

Lemma for_each_extends {A C : Type} (xs : list A)
      (body : A -> list (string * C) -> result (list (string * C))) :
  (forall x m m', In x xs -> body x m = Ok m' -> extends m m') ->
  forall m m', for_each xs body m = Ok m' -> extends m m'.
Proof. apply for_each_rel; [ apply extends_refl | apply extends_trans ]. Qed.

Lemma for_each_added {A C : Type} (xs : list A)
      (body : A -> list (string * C) -> result (list (string * C))) :
  (forall x m m', In x xs -> body x m = Ok m' -> extends m m') ->
  forall x m m', In x xs -> for_each xs body m = Ok m' ->
    exists m1 m2, extends m m1 /\ body x m1 = Ok m2 /\ extends m2 m'.
Proof. apply for_each_In; [ apply extends_refl | apply extends_trans ]. Qed.

(** Evaluation of a selected variable. *)
Lemma eval_var (rho : Linopy.Assignment) (name : string) (s : Linopy.selection)
      (pt : Linopy.coord) :
  Linopy.eval rho (Project.var name s) pt = rho name (Linopy.select s pt).
Proof. reflexivity. Qed.

Lemma in_sets_assign (sets : Linopy.Sets) (d : Linopy.dim) (l : Linopy.label)
      (pt : Linopy.coord) :
  Linopy.in_sets sets pt -> In l (Linopy.labels_of sets d) ->
  Linopy.in_sets sets (Linopy.assign d l pt).
Proof.
  intros Hpt Hl d' Hd'. unfold Linopy.assign.
  destruct (Linopy.dim_eqb d d') eqn:E.
  - destruct d, d'; try discriminate E; exact Hl.
  - now apply Hpt.
Qed.

(* ------------------------------------------------------------------ *)
(** ** Generator constraints *)

Section GeneratorProps.
Import Project Generator.
Local Open Scope string_scope.

Variable cfg : Config.

Lemma max_production_brownfield_extends (year step : Z) (gen : string) (m m' : Constraints) :
  max_production_brownfield cfg year step gen m = Ok m' -> extends m m'.
Proof.
  unfold max_production_brownfield. intro H. inv_bind H.
  now apply add_constraints_extends in H.
Qed.

Lemma add_generator_max_extends (m m' : Constraints) :
  add_generator_max_energy_production_constraint cfg m = Ok m' -> extends m m'.
Proof.
  unfold add_generator_max_energy_production_constraint.
  destruct (brownfield cfg).
  - intro H. inv_bind H. revert H. apply for_each_extends.
    intros year m1 m2 _ H. inv_bind H. revert H. apply for_each_extends.
    intros gen m3 m4 _. apply max_production_brownfield_extends.
  - intro H. now apply add_constraints_extends in H.
Qed.

Lemma partial_load_segment_extends (year step : Z) (gen : string) (seg : Z)
      (m m' : Constraints) :
  partial_load_segment cfg year step gen seg m = Ok m' -> extends m m'.
Proof.
  unfold partial_load_segment. intro H. inv_bind H.
  now apply add_constraints_extends in H.
Qed.

Lemma fuel_consumption_gen_extends (year step : Z) (gen : string) (m m' : Constraints) :
  fuel_consumption_gen cfg year step gen m = Ok m' -> extends m m'.
Proof.
  unfold fuel_consumption_gen. destruct (negb (partial_load cfg)).
  - intro H. now apply add_constraints_extends in H.
  - apply for_each_extends. intros seg m1 m2 _. apply partial_load_segment_extends.
Qed.

Lemma add_generator_fuel_extends (m m' : Constraints) :
  add_generator_fuel_consumption_constraints cfg m = Ok m' -> extends m m'.
Proof.
  unfold add_generator_fuel_consumption_constraints. intro H. inv_bind H.
  revert H. apply for_each_extends.
  intros year m1 m2 _ H. inv_bind H. revert H. apply for_each_extends.
  intros gen m3 m4 _. apply fuel_consumption_gen_extends.
Qed.

Lemma capacity_expansion_step_ok (step : Z) (m m' : Constraints) :
  capacity_expansion_step cfg step m = Ok m' ->
  extends m m'
  /\ In ("Generator Min Step Units Constraint - Step " ++ show_Z step,
         {| lhs := var "generator_units" [(steps, Num step)]; sense := GreaterEq;
            rhs := var "generator_units" [(steps, Num (step - 1))] |}) m'
  /\ In (step - 1)%Z (steps_of cfg).
Proof.
  unfold capacity_expansion_step.
  destruct (existsb (Z.eqb (step - 1)) (steps_of cfg)) eqn:E; [ | discriminate ].
  intro H. apply add_constraints_extends in H. destruct H as [H1 H2].
  repeat split; try assumption.
  apply existsb_exists in E. destruct E as (x & Hx & Hxe).
  apply Z.eqb_eq in Hxe. now subst x.
Qed.

(** Along consecutive steps, the step-to-step inequalities chain. *)
Lemma chain_monotone (f : Z -> Q) (s0 : Z) (n : nat) :
  (forall s, (s0 < s < s0 + Z.of_nat n)%Z -> f (s - 1)%Z <= f s) ->
  forall a b, (s0 <= a)%Z -> (a <= b)%Z -> (b < s0 + Z.of_nat n)%Z -> f a <= f b.
Proof.
  intros Hstep a b Ha Hab Hb.
  replace b with (a + Z.of_nat (Z.to_nat (b - a)))%Z by lia.
  assert (Hk : (Z.of_nat (Z.to_nat (b - a)) <= b - a)%Z) by lia.
  induction (Z.to_nat (b - a)) as [ | k IH ].
  - replace (a + Z.of_nat 0)%Z with a by lia. apply Qle_refl.
  - apply Qle_trans with (f (a + Z.of_nat k)%Z).
    + apply IH. lia.
    + replace (a + Z.of_nat k)%Z with (a + Z.of_nat (S k) - 1)%Z by lia.
      apply Hstep. lia.
Qed.

(** C6. With capacity expansion enabled, the model built by
    [add_generator_constraints] contains, for every step [s] after the
    first, the constraint [generator_units[s] >= generator_units[s-1]];
    hence in every feasible assignment the units do not decrease from one
    step to the next, nor along consecutive steps. *)
Theorem capacity_expansion_monotone (m m' : Constraints) :
  capacity_expansion cfg = true ->
  add_generator_constraints cfg m = Ok m' ->
  (forall step, In step (tl (steps_of cfg)) ->
     In ("Generator Min Step Units Constraint - Step " ++ show_Z step,
         {| lhs := var "generator_units" [(steps, Num step)]; sense := GreaterEq;
            rhs := var "generator_units" [(steps, Num (step - 1))] |}) m')
  /\ (forall rho, feasible (sets cfg) rho m' ->
      forall pt, in_sets (sets cfg) pt ->
        (forall step, In step (tl (steps_of cfg)) ->
           rho "generator_units" (assign steps (Num (step - 1)) pt)
           <= rho "generator_units" (assign steps (Num step) pt))
        /\ (forall s0 n,
              steps_of cfg = map (fun i => (s0 + Z.of_nat i)%Z) (seq 0 n) ->
              forall a b, (s0 <= a)%Z -> (a <= b)%Z -> (b < s0 + Z.of_nat n)%Z ->
                rho "generator_units" (assign steps (Num a) pt)
                <= rho "generator_units" (assign steps (Num b) pt))).
Proof.
  intros Hce H. unfold add_generator_constraints in H.
  inv_bind H. inv_bind H. rewrite Hce in H.
  unfold add_generator_capacity_expansion_constraints in H.
  assert (Hin : forall step, In step (tl (steps_of cfg)) ->
     In ("Generator Min Step Units Constraint - Step " ++ show_Z step,
         {| lhs := var "generator_units" [(steps, Num step)]; sense := GreaterEq;
            rhs := var "generator_units" [(steps, Num (step - 1))] |}) m').
  { intros step Hstep.
    destruct (for_each_added (tl (steps_of cfg)) (capacity_expansion_step cfg)
                (fun x m1 m2 _ Hx => proj1 (capacity_expansion_step_ok x m1 m2 Hx))
                step a0 m' Hstep H) as (m1 & m2 & _ & Hb & He).
    apply (extends_In m2 m' _ He).
    apply (capacity_expansion_step_ok step m1 m2 Hb). }
  split; [ exact Hin | ].
  intros rho Hfeas pt Hpt.
  assert (Hstepwise : forall step, In step (tl (steps_of cfg)) ->
           rho "generator_units" (assign steps (Num (step - 1)) pt)
           <= rho "generator_units" (assign steps (Num step) pt)).
  { intros step Hstep. specialize (Hfeas _ _ (Hin step Hstep) pt Hpt).
    exact Hfeas. }
  split; [ exact Hstepwise | ].
  intros s0 n Hsteps lo hi Ha Hab Hb.
  apply (chain_monotone (fun s => rho "generator_units" (assign steps (Num s) pt)) s0 n);
    try assumption.
  intros s Hs. apply Hstepwise. rewrite Hsteps.
  destruct n as [ | n ]; [ lia | ]. cbn [seq map tl].
  rewrite <- seq_shift, map_map. apply in_map_iff.
  exists (Z.to_nat (s - s0 - 1)). split; [ lia | ].
  apply in_seq. lia.
Qed.

(** C7 (as the code has it). Under brownfield mode the bound of year
    [year] for generator [gen] is the sized capacity plus the existing
    capacity exactly when [existing_years + (year - years[0]) <= lifetime],
    and the sized capacity alone otherwise; so with [existing_years = 9],
    [lifetime = 10] and [years[0] = 0] the existing capacity is counted in
    years 0 and 1 only, and is left out at year 2 and at year 5. *)
Theorem existing_capacity_rule (m m' : Constraints) (year : Z) (gen : string) :
  brownfield cfg = true ->
  add_generator_max_energy_production_constraint cfg m = Ok m' ->
  In year (years_of cfg) ->
  In gen (set_generator_types (sets cfg)) ->
  exists y0 step max_production,
    py_index (years_of cfg) 0 = Ok y0
    /\ In ("Generator Energy Production Constraint - Year " ++ show_Z year ++ ", Type " ++ gen,
           {| lhs := var "generator_energy_production"
                         [(years, Num year); (generator_types, Name gen)];
              sense := LessEq; rhs := max_production |}) m'
    /\ (item (par cfg "GENERATOR_EXISTING_YEARS" (gen_sel gen)) + inject_Z (year - y0)
        <= item (par cfg "GENERATOR_LIFETIME" (gen_sel gen)) ->
        max_production = LAdd (new_capacity cfg step gen) (existing_capacity cfg gen))
    /\ (~ item (par cfg "GENERATOR_EXISTING_YEARS" (gen_sel gen)) + inject_Z (year - y0)
          <= item (par cfg "GENERATOR_LIFETIME" (gen_sel gen)) ->
        max_production = new_capacity cfg step gen)
    /\ (item (par cfg "GENERATOR_EXISTING_YEARS" (gen_sel gen)) == 9 ->
        item (par cfg "GENERATOR_LIFETIME" (gen_sel gen)) == 10 ->
        y0 = 0%Z ->
        ((year <= 1)%Z ->
         max_production = LAdd (new_capacity cfg step gen) (existing_capacity cfg gen))
        /\ ((2 <= year)%Z -> max_production = new_capacity cfg step gen)).
Proof.
  intros Hbf H Hyear Hgen.
  unfold add_generator_max_energy_production_constraint in H. rewrite Hbf in H.
  inv_bind H.
  assert (Hinner : forall y m1 m2,
             (step <- step_of_year cfg a y ;;
              for_each (set_generator_types (sets cfg))
                       (max_production_brownfield cfg y step) m1) = Ok m2 ->
             extends m1 m2).
  { intros y m1 m2 Hy. inv_bind Hy. revert Hy. apply for_each_extends.
    intros g m3 m4 _. apply max_production_brownfield_extends. }
  destruct (for_each_added (years_of cfg) _ (fun y m1 m2 _ => Hinner y m1 m2)
              year m m' Hyear H) as (m1 & m2 & _ & Hbody & Hext).
  inv_bind Hbody. rename a0 into step.
  destruct (for_each_added (set_generator_types (sets cfg))
              (max_production_brownfield cfg year step)
              (fun g m3 m4 _ => max_production_brownfield_extends year step g m3 m4)
              gen m1 m2 Hgen Hbody) as (m3 & m4 & _ & Hgen' & Hext').
  unfold max_production_brownfield in Hgen'. inv_bind Hgen'. rename a0 into y0.
  apply add_constraints_extends in Hgen'. destruct Hgen' as [_ Hin].
  set (age := item (par cfg "GENERATOR_EXISTING_YEARS" (gen_sel gen)) + inject_Z (year - y0)) in *.
  set (life := item (par cfg "GENERATOR_LIFETIME" (gen_sel gen))) in *.
  assert (Hcases : (age <= life ->
                    (if negb (Qlt_bool life age)
                     then LAdd (new_capacity cfg step gen) (existing_capacity cfg gen)
                     else new_capacity cfg step gen)
                    = LAdd (new_capacity cfg step gen) (existing_capacity cfg gen))
                   /\ (~ age <= life ->
                       (if negb (Qlt_bool life age)
                        then LAdd (new_capacity cfg step gen) (existing_capacity cfg gen)
                        else new_capacity cfg step gen)
                       = new_capacity cfg step gen)).
  { unfold Qlt_bool. rewrite negb_involutive.
    destruct (Qle_bool age life) eqn:E.
    - split; [ reflexivity | ]. intro Hn. exfalso. apply Hn. now apply Qle_bool_iff.
    - split; [ | reflexivity ]. intro Hle. apply Qle_bool_iff in Hle. congruence. }
  destruct Hcases as [Hyes Hno].
  exists y0, step. eexists. split; [ exact Hgen'0 | ]. split; [ | split; [ | split ] ].
  - apply (extends_In m2 m' _ Hext), (extends_In m4 m2 _ Hext'). exact Hin.
  - exact Hyes.
  - exact Hno.
  - intros H9 H10 Hy0. assert (Hage : age == 9 + inject_Z year).
    { unfold age. rewrite H9, Hy0. now rewrite Z.sub_0_r. }
    split; intro Hy.
    + apply Hyes. rewrite Hage. fold life. rewrite H10.
      assert (Hq : inject_Z year <= inject_Z 1) by (rewrite <- Zle_Qle; exact Hy).
      change (inject_Z 1) with 1 in Hq. lra.
    + apply Hno. rewrite Hage. fold life. rewrite H10.
      assert (Hq : inject_Z 2 <= inject_Z year) by (rewrite <- Zle_Qle; exact Hy).
      change (inject_Z 2) with 2 in Hq. lra.
Qed.

(** *** Fuel consumption *)

(** Without partial-load modeling the fuel consumption of every year and
    generator type is tied to the production by the nominal efficiency. *)
Lemma fuel_consumption_nominal (m m' : Constraints) (year : Z) (gen : string) :
  partial_load cfg = false ->
  add_generator_fuel_consumption_constraints cfg m = Ok m' ->
  In year (years_of cfg) ->
  In gen (set_generator_types (sets cfg)) ->
  let YG := [(years, Num year); (generator_types, Name gen)] in
  In ("Fuel Consumption Constraint - Year " ++ show_Z year ++ ", Type " ++ gen,
      {| lhs := var "generator_fuel_consumption" YG; sense := Equal;
         rhs := LDiv (var "generator_energy_production" YG)
                     (da_mul (par cfg "GENERATOR_NOMINAL_EFFICIENCY" (gen_sel gen))
                             (par cfg "FUEL_LHV" (gen_sel gen))) |}) m'.
Proof.
  intros Hpl H Hyear Hgen YG.
  unfold add_generator_fuel_consumption_constraints in H. inv_bind H.
  assert (Hinner : forall y m1 m2,
             (step <- step_of_year cfg a y ;;
              for_each (set_generator_types (sets cfg))
                       (fuel_consumption_gen cfg y step) m1) = Ok m2 ->
             extends m1 m2).
  { intros y m1 m2 Hy. inv_bind Hy. revert Hy. apply for_each_extends.
    intros g m3 m4 _. apply fuel_consumption_gen_extends. }
  destruct (for_each_added (years_of cfg) _ (fun y m1 m2 _ => Hinner y m1 m2)
              year m m' Hyear H) as (m1 & m2 & _ & Hbody & Hext).
  inv_bind Hbody. rename a0 into step.
  destruct (for_each_added (set_generator_types (sets cfg))
              (fuel_consumption_gen cfg year step)
              (fun g m3 m4 _ => fuel_consumption_gen_extends year step g m3 m4)
              gen m1 m2 Hgen Hbody) as (m3 & m4 & _ & Hgen' & Hext').
  unfold fuel_consumption_gen in Hgen'. rewrite Hpl in Hgen'. cbn [negb] in Hgen'.
  apply add_constraints_extends in Hgen'. destruct Hgen' as [_ Hin].
  apply (extends_In m2 m' _ Hext), (extends_In m4 m2 _ Hext'). exact Hin.
Qed.

(** With partial-load modeling and a single generator type, every year and
    segment gets its secant bound, with slope 0 on a flat segment. *)
Lemma fuel_consumption_partial_load_single (m m' : Constraints) (year seg : Z) (gen : string) :
  partial_load cfg = true ->
  set_generator_types (sets cfg) = [gen] ->
  add_generator_fuel_consumption_constraints cfg m = Ok m' ->
  In year (years_of cfg) ->
  (0 <= seg < sampled_points cfg - 1)%Z ->
  exists step,
    In ("Partial Load Constraint - Segment " ++ show_Z seg ++ ", Year " ++ show_Z year
          ++ ", Type " ++ gen,
        partial_load_constraint cfg year step gen seg
          (if Qeq_bool (da_sub (sampled_power cfg gen (seg + 1)) (sampled_power cfg gen seg)
                               (assign generator_types (Name gen) origin)) 0
           then scalar 0
           else da_div (da_sub (sampled_fuel cfg gen (seg + 1)) (sampled_fuel cfg gen seg))
                       (da_sub (sampled_power cfg gen (seg + 1)) (sampled_power cfg gen seg))))
       m'.
Proof.
  intros Hpl Hone H Hyear Hseg.
  unfold add_generator_fuel_consumption_constraints in H. inv_bind H.
  assert (Hinner : forall y m1 m2,
             (step <- step_of_year cfg a y ;;
              for_each (set_generator_types (sets cfg))
                       (fuel_consumption_gen cfg y step) m1) = Ok m2 ->
             extends m1 m2).
  { intros y m1 m2 Hy. inv_bind Hy. revert Hy. apply for_each_extends.
    intros g m3 m4 _. apply fuel_consumption_gen_extends. }
  destruct (for_each_added (years_of cfg) _ (fun y m1 m2 _ => Hinner y m1 m2)
              year m m' Hyear H) as (m1 & m2 & _ & Hbody & Hext).
  inv_bind Hbody. rename a0 into step. exists step.
  assert (Hgen : In gen (set_generator_types (sets cfg))) by (rewrite Hone; now left).
  destruct (for_each_added (set_generator_types (sets cfg))
              (fuel_consumption_gen cfg year step)
              (fun g m3 m4 _ => fuel_consumption_gen_extends year step g m3 m4)
              gen m1 m2 Hgen Hbody) as (m3 & m4 & _ & Hgen' & Hext').
  unfold fuel_consumption_gen in Hgen'. rewrite Hpl in Hgen'. cbn [negb] in Hgen'.
  assert (Hsegin : In seg (map Z.of_nat (seq 0 (Z.to_nat (sampled_points cfg - 1))))).
  { apply in_map_iff. exists (Z.to_nat seg). split; [ lia | ]. apply in_seq. lia. }
  destruct (for_each_added _ (partial_load_segment cfg year step gen)
              (fun k m5 m6 _ => partial_load_segment_extends year step gen k m5 m6)
              seg m3 m4 Hsegin Hgen') as (m5 & m6 & _ & Hk & Hext'').
  unfold partial_load_segment, truth_value in Hk. rewrite Hone in Hk. cbn [bind] in Hk.
  apply add_constraints_extends in Hk. destruct Hk as [_ Hin].
  apply (extends_In m2 m' _ Hext), (extends_In m4 m2 _ Hext'),
        (extends_In m6 m4 _ Hext'').
  destruct (Qeq_bool _ 0); exact Hin.
Qed.

(** With partial-load modeling and two or more generator types, the test of
    the first segment is ambiguous and nothing is added. *)
Lemma partial_load_segment_ambiguous (year step seg : Z) (gen g1 g2 : string)
      (gs : list string) (m : Constraints) :
  set_generator_types (sets cfg) = g1 :: g2 :: gs ->
  partial_load_segment cfg year step gen seg m = Raise ValueError.
Proof.
  intro H. unfold partial_load_segment, truth_value. now rewrite H.
Qed.

End GeneratorProps.

(** *** The generator constraints on the example project *)

Section GeneratorExamples.
Import Project Generator Examples.
Local Open Scope string_scope.

Lemma ex_generator_model_built :
  add_generator_constraints ex_cfg [] = Ok ex_generator_model.
Proof. vm_compute. reflexivity. Qed.

Lemma ex_max_production_model_built :
  add_generator_max_energy_production_constraint ex_cfg [] = Ok ex_max_production_model.
Proof. vm_compute. reflexivity. Qed.

Lemma capacity_expansion_monotone_witness :
  In ("Generator Min Step Units Constraint - Step 2",
      {| lhs := var "generator_units" [(steps, Num 2)]; sense := GreaterEq;
         rhs := var "generator_units" [(steps, Num (2 - 1))] |}) ex_generator_model.
Proof.
  apply (proj1 (capacity_expansion_monotone ex_cfg [] ex_generator_model
                  eq_refl ex_generator_model_built) 2%Z).
  cbn. now left.
Defined.

Lemma existing_capacity_rule_witness :
  exists step,
    In ("Generator Energy Production Constraint - Year 1, Type Diesel",
        {| lhs := var "generator_energy_production"
                      [(years, Num 1); (generator_types, Name "Diesel")];
           sense := LessEq;
           rhs := LAdd (new_capacity ex_cfg step "Diesel")
                       (existing_capacity ex_cfg "Diesel") |}) ex_max_production_model.
Proof.
  destruct (existing_capacity_rule ex_cfg [] ex_max_production_model 1 "Diesel"
              eq_refl ex_max_production_model_built)
    as (y0 & step & mp & Hy0 & Hin & _ & _ & Hex).
  - cbn. right. now left.
  - cbn. now left.
  - exists step.
    assert (E : y0 = 0%Z) by (cbn in Hy0; congruence).
    destruct (Hex ltac:(reflexivity) ltac:(reflexivity) E) as [Hyes _].
    rewrite <- (Hyes ltac:(lia)). exact Hin.
Defined.

(** C7 as stated fails: nine years old with a lifetime of ten, the existing
    generator is past its lifetime at year 2 already ([9 + 2 > 10]), and the
    bound of year 2 is the sized capacity alone. *)
Lemma existing_capacity_excluded_at_year_2 :
  In ("Generator Energy Production Constraint - Year 2, Type Diesel",
      {| lhs := var "generator_energy_production"
                    [(years, Num 2); (generator_types, Name "Diesel")];
         sense := LessEq;
         rhs := new_capacity ex_cfg 1 "Diesel" |}) ex_max_production_model
  /\ item (par ex_cfg "GENERATOR_EXISTING_YEARS" (gen_sel "Diesel")) == 9
  /\ item (par ex_cfg "GENERATOR_LIFETIME" (gen_sel "Diesel")) == 10
  /\ py_index (years_of ex_cfg) 0 = Ok 0%Z
  /\ ~ (exists step,
         In ("Generator Energy Production Constraint - Year 2, Type Diesel",
             {| lhs := var "generator_energy_production"
                           [(years, Num 2); (generator_types, Name "Diesel")];
                sense := LessEq;
                rhs := LAdd (new_capacity ex_cfg step "Diesel")
                            (existing_capacity ex_cfg "Diesel") |})
            ex_max_production_model).
Proof.
  split; [ | split; [ | split; [ | split ] ] ].
  - vm_compute. right. right. left. reflexivity.
  - reflexivity.
  - reflexivity.
  - reflexivity.
  - intros [step H]. vm_compute in H.
    repeat (destruct H as [H | H]; [ discriminate H | ]). exact H.
Qed.

(** C5, where the code departs from it: with partial-load modeling and two
    generator types, the flat-segment test is applied to an array over both
    types, so [add_generator_fuel_consumption_constraints] raises
    [ValueError] and adds no constraint. *)
Theorem partial_load_two_generator_types_raises :
  add_generator_fuel_consumption_constraints ex_cfg_two [] = Raise ValueError.
Proof. vm_compute. reflexivity. Qed.

End GeneratorExamples.

(* ------------------------------------------------------------------ *)
(** ** Thermal storage *)

Section TESProps.
Import Project TES.
Local Open Scope string_scope.

Variable cfg : Config.

Lemma select_at (year period : Z) (pt : coord) :
  select (at_ year period) pt = assign years (Num year) (assign periods (Num period) pt).
Proof. reflexivity. Qed.

Lemma in_sets_period (period : Z) (pt : coord) :
  In period (periods_of cfg) -> in_sets (sets cfg) pt ->
  in_sets (sets cfg) (assign periods (Num period) pt).
Proof.
  intros Hp Hpt. apply in_sets_assign; [ exact Hpt | ].
  cbn. now apply in_map.
Qed.

Lemma sel_soc_ok (year period : Z) (e : LinearExpression) :
  sel_soc cfg year period = Ok e -> e = var "tes_soc" (at_ year period).
Proof.
  unfold sel_soc. destruct (_ && _); [ | discriminate ]. congruence.
Qed.

Lemma soc_dynamics_extends (fy fp lp : Z) (dt cap init : Q) (year period : Z)
      (m m' : Constraints) :
  soc_dynamics cfg fy fp lp dt cap init year period m = Ok m' -> extends m m'.
Proof.
  unfold soc_dynamics. intro H. inv_bind H. now apply add_constraints_extends in H.
Qed.

Lemma soc_bounds_ok (cap : Q) (year : Z) (m m' : Constraints) :
  soc_bounds cap year m = Ok m' ->
  extends m m'
  /\ In ("TES Maximum Charge Constraint - Year " ++ show_Z year,
         {| lhs := var "tes_soc" [(years, Num year)]; sense := LessEq;
            rhs := LConst (scalar cap) |}) m'
  /\ In ("TES Minimum Charge Constraint - Year " ++ show_Z year,
         {| lhs := var "tes_soc" [(years, Num year)]; sense := GreaterEq;
            rhs := LConst (scalar 0) |}) m'.
Proof.
  unfold soc_bounds. intro H. inv_bind H.
  apply add_constraints_extends in H0, H. destruct H0 as [E1 I1], H as [E2 I2].
  repeat split.
  - now apply extends_trans with a.
  - now apply (extends_In a m').
  - exact I2.
Qed.

(** C3. For every year and period the model holds the equality
    [soc == soc_previous * storage_efficiency + (charge - discharge) * delta_time],
    where [soc_previous] is [capacity * initial_soc_fraction] at the first
    period of the first year, the state of charge of the last period of
    year [year - 1] at the first period of a later year, and that of the
    period before otherwise; and the bounds [soc <= capacity], [soc >= 0]
    of the year, so that a feasible state of charge lies in
    [[0, capacity]] at every year and period. *)
Theorem tes_soc_dynamics_and_bounds (m m' : Constraints) (year period : Z) :
  add_tes_state_of_charge_constraints cfg m = Ok m' ->
  In year (years_of cfg) ->
  In period (periods_of cfg) ->
  let delta_time := item (param cfg "DELTA_TIME") in
  let tes_capacity := item (param cfg "TES_CAPACITY") in
  let efficiency := item (da_sel (at_ year period) (tes_storage_efficiency cfg)) in
  (exists soc_expr,
     In ("TES State of Charge Constraint - Year " ++ show_Z year
           ++ ", Period " ++ show_Z period,
         {| lhs := var "tes_soc" (at_ year period); sense := Equal; rhs := soc_expr |}) m'
     /\ forall rho pt,
          exists soc_previous,
            previous_soc cfg rho pt year period = Ok soc_previous
            /\ eval rho soc_expr pt
               == soc_previous * efficiency
                  + (rho "tes_charge" (select (at_ year period) pt)
                     - rho "tes_discharge" (select (at_ year period) pt)) * delta_time)
  /\ In ("TES Maximum Charge Constraint - Year " ++ show_Z year,
         {| lhs := var "tes_soc" [(years, Num year)]; sense := LessEq;
            rhs := LConst (scalar tes_capacity) |}) m'
  /\ In ("TES Minimum Charge Constraint - Year " ++ show_Z year,
         {| lhs := var "tes_soc" [(years, Num year)]; sense := GreaterEq;
            rhs := LConst (scalar 0) |}) m'
  /\ (forall rho, feasible (sets cfg) rho m' ->
      forall pt, in_sets (sets cfg) pt ->
        0 <= rho "tes_soc" (select (at_ year period) pt)
        /\ rho "tes_soc" (select (at_ year period) pt) <= tes_capacity).
Proof.
  intros H Hyear Hperiod delta_time tes_capacity efficiency.
  unfold add_tes_state_of_charge_constraints in H.
  inv_bind H. rename a into fy. inv_bind H. rename a into fp.
  inv_bind H. rename a into lp. inv_bind H. rename a into mid.
  fold delta_time tes_capacity in H3, H.
  (* the bounds of the year *)
  destruct (for_each_added (years_of cfg) (soc_bounds tes_capacity)
              (fun y m1 m2 _ Hy => proj1 (soc_bounds_ok tes_capacity y m1 m2 Hy))
              year mid m' Hyear H) as (b1 & b2 & _ & Hb & Hbext).
  apply soc_bounds_ok in Hb. destruct Hb as (_ & Hmax & Hmin).
  apply (extends_In b2 m' _ Hbext) in Hmax, Hmin.
  (* the dynamics of the year and period *)
  assert (Hmid : extends mid m').
  { revert H. apply for_each_extends.
    intros y m1 m2 _ Hy. now apply soc_bounds_ok in Hy. }
  destruct (for_each_added (years_of cfg) _
              (fun y m1 m2 _ =>
                 for_each_extends (periods_of cfg) _
                   (fun p m3 m4 _ => soc_dynamics_extends fy fp lp _ _ _ y p m3 m4) m1 m2)
              year m mid Hyear H3) as (m1 & m2 & _ & Hinner & Hext).
  destruct (for_each_added (periods_of cfg) _
              (fun p m3 m4 _ => soc_dynamics_extends fy fp lp _ _ _ year p m3 m4)
              period m1 m2 Hperiod Hinner) as (m3 & m4 & _ & Hdyn & Hext').
  unfold soc_dynamics in Hdyn. inv_bind Hdyn. rename a into prev.
  apply add_constraints_extends in Hdyn. destruct Hdyn as [_ Hin].
  apply (extends_In m4 m2 _ Hext'), (extends_In m2 mid _ Hext),
        (extends_In mid m' _ Hmid) in Hin.
  split; [ | split; [ exact Hmax | split; [ exact Hmin | ] ] ].
  - eexists. split; [ exact Hin | ].
    intros rho pt. unfold previous_soc. rewrite H0, H1, H2. cbn [bind].
    eexists. split; [ reflexivity | ].
    subst delta_time tes_capacity efficiency.
    cbn [eval]. rewrite !eval_var. unfold scalar.
    destruct ((year =? fy)%Z && (period =? fp)%Z).
    + injection Hdyn0 as <-. cbn [eval]. unfold scalar. ring.
    + destruct (period =? fp)%Z; apply sel_soc_ok in Hdyn0; subst prev;
        rewrite eval_var; ring.
  - intros rho Hfeas pt Hpt. rewrite select_at.
    pose proof (in_sets_period period pt Hperiod Hpt) as Hpt'.
    pose proof (Hfeas _ _ Hmax _ Hpt') as Hle.
    pose proof (Hfeas _ _ Hmin _ Hpt') as Hge.
    cbn in Hle, Hge. split; assumption.
Qed.

Lemma mode_bounds_ok (Mc Md : Q) (year period : Z) (m m' : Constraints) :
  mode_bounds Mc Md year period m = Ok m' ->
  extends m m'
  /\ In ("TES Charge Allowed - Year " ++ show_Z year ++ " Period " ++ show_Z period,
         {| lhs := var "tes_charge" (at_ year period); sense := LessEq;
            rhs := LScale (scalar Mc) (var "tes_mode" (at_ year period)) |}) m'
  /\ In ("TES Discharge Allowed - Year " ++ show_Z year ++ " Period " ++ show_Z period,
         {| lhs := var "tes_discharge" (at_ year period); sense := LessEq;
            rhs := LScale (scalar Md)
                          (LSub (LAdd (LScale (scalar 0) (var "tes_mode" (at_ year period)))
                                      (LConst (scalar 1)))
                                (var "tes_mode" (at_ year period))) |}) m'.
Proof.
  unfold mode_bounds. intro H. inv_bind H.
  apply add_constraints_extends in H0, H. destruct H0 as [E1 I1], H as [E2 I2].
  repeat split.
  - now apply extends_trans with a.
  - now apply (extends_In a m').
  - exact I2.
Qed.

Lemma flow_bounds_ok (Mc Md : Q) (year : Z) (m m' : Constraints) :
  flow_bounds cfg Mc Md year m = Ok m' ->
  extends m m'
  /\ In ("TES Minimum Charge Flow Constraint - Year " ++ show_Z year,
         {| lhs := var "tes_charge" [(years, Num year)]; sense := GreaterEq;
            rhs := LConst (scalar 0) |}) m'
  /\ In ("TES Minimum Discharge Flow Constraint - Year " ++ show_Z year,
         {| lhs := var "tes_discharge" [(years, Num year)]; sense := GreaterEq;
            rhs := LConst (scalar 0) |}) m'
  /\ exists mid, extends mid m'
                 /\ for_each (periods_of cfg) (mode_bounds Mc Md year) mid = Ok m'.
Proof.
  unfold flow_bounds. intro H.
  inv_bind H. rename a into m1. inv_bind H. rename a into m2.
  inv_bind H. rename a into m3. inv_bind H. rename a into m4.
  apply add_constraints_extends in H0, H1, H2, H3.
  destruct H0 as [E1 _], H1 as [E2 _], H2 as [E3 I3], H3 as [E4 I4].
  assert (E5 : extends m4 m').
  { revert H. apply for_each_extends.
    intros p x y _ Hp. now apply mode_bounds_ok in Hp. }
  repeat split.
  - eauto using extends_trans.
  - apply (extends_In m4 m' _ E5), (extends_In m3 m4 _ E4). exact I3.
  - apply (extends_In m4 m' _ E5). exact I4.
  - exists m4. split; assumption.
Qed.

(** C4. For every year and period the model holds
    [charge <= M * mode] and [discharge <= M * (1 - mode)] with
    [M = tes_capacity / delta_time], next to [charge >= 0] and
    [discharge >= 0]; so in a feasible assignment where [mode] is 0 or 1,
    charge and discharge are not both positive: their product is 0. *)
Theorem tes_charge_discharge_exclusive (m m' : Constraints) (year period : Z) :
  add_tes_flow_constraints cfg m = Ok m' ->
  In year (years_of cfg) ->
  In period (periods_of cfg) ->
  let bigM := item (param cfg "TES_CAPACITY") / item (param cfg "DELTA_TIME") in
  let mode := var "tes_mode" (at_ year period) in
  In ("TES Charge Allowed - Year " ++ show_Z year ++ " Period " ++ show_Z period,
      {| lhs := var "tes_charge" (at_ year period); sense := LessEq;
         rhs := LScale (scalar bigM) mode |}) m'
  /\ In ("TES Discharge Allowed - Year " ++ show_Z year ++ " Period " ++ show_Z period,
         {| lhs := var "tes_discharge" (at_ year period); sense := LessEq;
            rhs := LScale (scalar bigM)
                          (LSub (LAdd (LScale (scalar 0) mode) (LConst (scalar 1))) mode) |}) m'
  /\ (forall rho, feasible (sets cfg) rho m' ->
      forall pt, in_sets (sets cfg) pt ->
        let here := select (at_ year period) pt in
        rho "tes_charge" here <= bigM * rho "tes_mode" here
        /\ rho "tes_discharge" here <= bigM * (1 - rho "tes_mode" here)
        /\ (rho "tes_mode" here == 0 \/ rho "tes_mode" here == 1 ->
            rho "tes_charge" here * rho "tes_discharge" here == 0
            /\ ~ (0 < rho "tes_charge" here /\ 0 < rho "tes_discharge" here))).
Proof.
  intros H Hyear Hperiod bigM mode.
  unfold add_tes_flow_constraints in H.
  inv_bind H. inv_bind H.
  unfold py_truediv in H0, H1.
  destruct (Qeq_bool (item (param cfg "DELTA_TIME")) 0); [ discriminate | ].
  injection H0 as <-. injection H1 as <-. fold bigM in H.
  destruct (for_each_added (years_of cfg) (flow_bounds cfg bigM bigM)
              (fun y m1 m2 _ Hy => proj1 (flow_bounds_ok bigM bigM y m1 m2 Hy))
              year m m' Hyear H) as (m1 & m2 & _ & Hflow & Hext).
  apply flow_bounds_ok in Hflow. destruct Hflow as (_ & Hc0 & Hd0 & mid & _ & Hmodes).
  destruct (for_each_added (periods_of cfg) (mode_bounds bigM bigM year)
              (fun p m3 m4 _ Hp => proj1 (mode_bounds_ok bigM bigM year p m3 m4 Hp))
              period mid m2 Hperiod Hmodes) as (m3 & m4 & _ & Hmode & Hext').
  apply mode_bounds_ok in Hmode. destruct Hmode as (_ & Hcm & Hdm).
  apply (extends_In m4 m2 _ Hext'), (extends_In m2 m' _ Hext) in Hcm, Hdm.
  apply (extends_In m2 m' _ Hext) in Hc0, Hd0.
  split; [ exact Hcm | split; [ exact Hdm | ] ].
  intros rho Hfeas pt Hpt here.
  pose proof (in_sets_period period pt Hperiod Hpt) as Hpt'.
  pose proof (Hfeas _ _ Hcm _ Hpt) as Lc.
  pose proof (Hfeas _ _ Hdm _ Hpt) as Ld.
  pose proof (Hfeas _ _ Hc0 _ Hpt') as Gc.
  pose proof (Hfeas _ _ Hd0 _ Hpt') as Gd.
  cbn in Lc, Ld, Gc, Gd. unfold scalar in Lc, Ld, Gc, Gd.
  subst here. rewrite select_at.
  set (here := assign years (Num year) (assign periods (Num period) pt)) in *.
  split; [ exact Lc | split; [ lra | ] ].
  intros [Hm | Hm]; rewrite Hm in Lc, Ld.
  - assert (Z0 : rho "tes_charge" here == 0) by lra.
    split; [ rewrite Z0; ring | lra ].
  - assert (Z0 : rho "tes_discharge" here == 0) by lra.
    split; [ rewrite Z0; ring | lra ].
Qed.

End TESProps.

(** *** The storage constraints on the example project *)

Section TESExamples.
Import Project TES Examples.
Local Open Scope string_scope.

Lemma ex_tes_soc_model_built :
  add_tes_state_of_charge_constraints ex_cfg [] = Ok ex_tes_soc_model.
Proof. vm_compute. reflexivity. Qed.

Lemma ex_tes_flow_model_built :
  add_tes_flow_constraints ex_cfg [] = Ok ex_tes_flow_model.
Proof. vm_compute. reflexivity. Qed.

(** Year 1 starts from the last period of year 0. *)
Lemma tes_soc_dynamics_and_bounds_witness :
  (exists soc_expr,
     In ("TES State of Charge Constraint - Year 1, Period 0",
         {| lhs := var "tes_soc" (at_ 1 0); sense := Equal; rhs := soc_expr |})
        ex_tes_soc_model
     /\ forall rho pt,
          exists soc_previous,
            Ok (rho "tes_soc" (select (at_ 0 2) pt)) = Ok soc_previous
            /\ eval rho soc_expr pt
               == soc_previous * (99 # 100)
                  + (rho "tes_charge" (select (at_ 1 0) pt)
                     - rho "tes_discharge" (select (at_ 1 0) pt)) * 1)
  /\ In ("TES Maximum Charge Constraint - Year 1",
         {| lhs := var "tes_soc" [(years, Num 1)]; sense := LessEq;
            rhs := LConst (scalar 100) |}) ex_tes_soc_model.
Proof.
  assert (Hy : In 1%Z (years_of ex_cfg)) by (cbn; right; now left).
  assert (Hp : In 0%Z (periods_of ex_cfg)) by (cbn; now left).
  pose proof (tes_soc_dynamics_and_bounds ex_cfg [] ex_tes_soc_model 1 0
                ex_tes_soc_model_built Hy Hp) as H.
  cbv zeta in H. destruct H as (Hdyn & Hmax & _ & _).
  split; [ exact Hdyn | exact Hmax ].
Defined.

Lemma tes_charge_discharge_exclusive_witness :
  In ("TES Charge Allowed - Year 1 Period 2",
      {| lhs := var "tes_charge" (at_ 1 2); sense := LessEq;
         rhs := LScale (scalar (100 / 1)) (var "tes_mode" (at_ 1 2)) |}) ex_tes_flow_model.
Proof.
  assert (Hy : In 1%Z (years_of ex_cfg)) by (cbn; right; now left).
  assert (Hp : In 2%Z (periods_of ex_cfg)) by (cbn; right; right; now left).
  pose proof (tes_charge_discharge_exclusive ex_cfg [] ex_tes_flow_model 1 2
                ex_tes_flow_model_built Hy Hp) as H.
  cbv zeta in H. destruct H as (Hc & _).
  exact Hc.
Defined.

End TESExamples.

(* ------------------------------------------------------------------ *)
(** ** The investment step of a year *)

Section StepLookup.
Import Project.

Variable cfg : Config.

Lemma py_index_inv {A : Type} (l : list A) (k : Z) (a : A) :
  py_index l k = Ok a -> (0 <= k)%Z -> nth_error l (Z.to_nat k) = Some a.
Proof.
  unfold py_index. intros H Hk.
  replace (k <? 0)%Z with false in H by (symmetry; apply Z.ltb_ge; exact Hk).
  destruct ((0 <=? k) && (k <? Z.of_nat (List.length l)))%Z; [ | discriminate ].
  destruct (nth_error l (Z.to_nat k)) as [a' | ]; [ | discriminate ].
  now injection H as <-.
Qed.

Lemma py_index_first {A : Type} (l : list A) (a d : A) :
  py_index l 0 = Ok a -> a = hd d l.
Proof.
  intro H. apply py_index_inv in H; [ | lia ].
  destruct l as [ | x l ]; [ discriminate | ]. cbn in H. now injection H as <-.
Qed.

Lemma map_result_nth_error {A B : Type} (f : A -> result B) (l : list A) :
  forall (l' : list B) (k : nat) (b : B),
    map_result f l = Ok l' -> nth_error l' k = Some b ->
    exists a, nth_error l k = Some a /\ f a = Ok b.
Proof.
  induction l as [ | x l IH ]; intros l' k b H Hk; cbn [map_result] in H.
  - injection H as <-. destruct k; discriminate.
  - apply bind_ok in H. destruct H as (y & Hy & H).
    apply bind_ok in H. destruct H as (ys & Hys & H). injection H as <-.
    destruct k as [ | k ]; cbn [nth_error] in *.
    + injection Hk as <-. exists x. now split.
    + exact (IH ys k b Hys Hk).
Qed.

Lemma range_len_nth_error {A : Type} (l : list A) (k : nat) (i : Z) :
  nth_error (range_len l) k = Some i -> i = Z.of_nat k.
Proof.
  unfold range_len. intro H.
  pose proof (nth_error_Some (map Z.of_nat (seq 0 (List.length l))) k) as Hlen.
  rewrite H in Hlen. assert (Hk : (k < List.length l)%nat).
  { rewrite length_map, length_seq in Hlen. apply Hlen. discriminate. }
  apply (nth_error_nth _ _ (Z.of_nat 0)) in H.
  rewrite map_nth, seq_nth in H by exact Hk. now subst i.
Qed.

(** The step the table gives a year, in closed form: when the year is not
    before the first one and a step lasts at least one year, it is
    [steps[(year - years[0]) // step_duration]]. *)
Lemma step_of_year_closed_form (offset : Z) (tuples : list (Z * Z)) (year step : Z) :
  years_steps_tuples cfg offset = Ok tuples ->
  step_of_year cfg tuples year = Ok step ->
  (hd 0%Z (years_of cfg) <= year)%Z ->
  (0 < step_duration cfg)%Z ->
  step = nth (Z.to_nat ((year - hd 0%Z (years_of cfg)) / step_duration cfg))
             (steps_of cfg) 0%Z
  /\ In step (steps_of cfg).
Proof.
  intros Ht Hs Hle Hd. unfold step_of_year in Hs.
  apply bind_ok in Hs. destruct Hs as (y0 & Hy0 & Hs).
  apply bind_ok in Hs. destruct Hs as (t & Hpos & Hs). injection Hs as <-.
  apply (py_index_first _ _ 0%Z) in Hy0. subst y0.
  set (y0 := hd 0%Z (years_of cfg)) in *.
  apply py_index_inv in Hpos; [ | lia ].
  destruct (map_result_nth_error _ _ _ _ _ Ht Hpos) as (i & Hi & Hf).
  apply range_len_nth_error in Hi. rewrite Z2Nat.id in Hi by lia. subst i.
  apply bind_ok in Hf. destruct Hf as (yi & _ & Hf).
  apply bind_ok in Hf. destruct Hf as (y0' & _ & Hf).
  apply bind_ok in Hf. destruct Hf as (q & Hq & Hf).
  apply bind_ok in Hf. destruct Hf as (s & Hstep & Hf). injection Hf as <-.
  cbn [snd]. unfold py_floordiv in Hq.
  destruct (step_duration cfg =? 0)%Z; [ discriminate | ]. injection Hq as <-.
  apply py_index_inv in Hstep; [ | apply Z.div_pos; lia ].
  split; [ symmetry; now apply nth_error_nth | now apply nth_error_In in Hstep ].
Qed.

End StepLookup.

(* ------------------------------------------------------------------ *)
(** ** Energy balance *)

Section EnergyBalanceProps.
Import Project EnergyBalance.
Local Open Scope string_scope.

Variable cfg : Config.
Variables has_battery has_generator has_grid_connection : bool.

Abbreviation Balance := (EnergyBalance.Balance).

Lemma adds_refl (b : Balance) : adds (fun _ _ => 0) (fun _ _ => 0) b b.
Proof. split; [ apply extends_refl | split; intros; ring ]. Qed.

Lemma adds_trans (p1 l1 p2 l2 : Assignment -> coord -> Q) (b1 b2 b3 : Balance) :
  adds p1 l1 b1 b2 -> adds p2 l2 b2 b3 ->
  adds (fun rho pt => p1 rho pt + p2 rho pt) (fun rho pt => l1 rho pt + l2 rho pt) b1 b3.
Proof.
  intros (E1 & P1 & L1) (E2 & P2 & L2).
  split; [ now apply extends_trans with (model b2) | ].
  split; intros rho pt; [ rewrite P2, P1 | rewrite L2, L1 ]; ring.
Qed.

Lemma has_name_extends {C : Type} (name : string) (m m' : list (string * C)) :
  extends m m' -> has_name name m = true -> has_name name m' = true.
Proof.
  intros [ext ->] H. rewrite has_name_app, H. reflexivity.
Qed.

Lemma dict_set_fresh {V : Type} (k : string) (v : V) (d : list (string * V)) :
  ~ In k (map fst d) -> dict_set k v d = (d ++ [(k, v)])%list.
Proof.
  induction d as [ | [k' v'] d IH ]; intro H; cbn; [ reflexivity | ].
  destruct (String.eqb k k') eqn:E.
  - apply String.eqb_eq in E. subst. exfalso. apply H. now left.
  - rewrite IH; [ reflexivity | ]. intro Hin. apply H. now right.
Qed.

Lemma res_block_ok (year step : Z) (res : string) (m m' : Constraints)
      (d d' : list (string * LinearExpression)) :
  res_block cfg year step res (m, d) = Ok (m', d') ->
  extends m m'
  /\ has_name (res_positive_name year res) m = false
  /\ has_name (res_positive_name year res) m' = true
  /\ d' = dict_set res (source_losses cfg year step res) d.
Proof.
  unfold res_block. intro H.
  inv_bind H. inv_bind H. injection H as <- <-.
  apply add_constraints_ok in H0. destruct H0 as [-> Hfresh].
  apply add_constraints_extends in H1. destruct H1 as [E _].
  repeat split.
  - apply extends_trans with (m ++ [(res_positive_name year res,
                                     {| lhs := res_net res step year; sense := GreaterEq;
                                        rhs := LConst (scalar 0) |})])%list;
      [ now eexists | exact E ].
  - exact Hfresh.
  - apply (has_name_extends _ _ _ E). apply has_name_last.
Qed.

(** A source processed twice would give the same name twice, so in a run
    that succeeds the dict is filled in the order of the sources. *)
Lemma res_loop_ok (year step : Z) (l : list string) :
  forall (m m' : Constraints) (d d' : list (string * LinearExpression)),
    (forall k, In k (map fst d) -> has_name (res_positive_name year k) m = true) ->
    for_each l (res_block cfg year step) (m, d) = Ok (m', d') ->
    extends m m'
    /\ d' = (d ++ map (fun res => (res, source_losses cfg year step res)) l)%list.
Proof.
  induction l as [ | res l IH ]; intros m m' d d' Hkeys H; cbn [for_each] in H.
  - injection H as <- <-. split; [ apply extends_refl | now rewrite app_nil_r ].
  - inv_bind H. destruct a as [m1 d1].
    apply res_block_ok in H0. destruct H0 as (E1 & Hfresh & Hnow & ->).
    assert (Hnew : ~ In res (map fst d)).
    { intro Hin. apply Hkeys in Hin. congruence. }
    rewrite (dict_set_fresh _ _ _ Hnew) in H.
    apply IH in H.
    + destruct H as [E2 ->]. split; [ now apply extends_trans with m1 | ].
      rewrite <- app_assoc. reflexivity.
    + intros k Hk. rewrite map_app in Hk. apply in_app_or in Hk.
      destruct Hk as [Hk | [<- | []]].
      * apply (has_name_extends _ _ _ E1). now apply Hkeys.
      * exact Hnow.
Qed.

Lemma eval_fold_add (rho : Assignment) (pt : coord) (l : list LinearExpression) :
  forall e,
    eval rho (fold_left LAdd l e) pt
    == eval rho e pt + sumQ (map (fun x => eval rho x pt) l).
Proof.
  induction l as [ | x l IH ]; intro e; cbn [fold_left map sumQ].
  - ring.
  - rewrite IH. cbn [eval]. ring.
Qed.

Lemma sumQ_ext {A : Type} (f g : A -> Q) (l : list A) :
  (forall x, f x == g x) -> sumQ (map f l) == sumQ (map g l).
Proof.
  intro H. induction l as [ | x l IH ]; cbn [map sumQ]; [ reflexivity | ].
  now rewrite H, IH.
Qed.

Lemma battery_block_adds (year step : Z) (b b' : Balance) :
  battery_block cfg year step b = Ok b' ->
  adds (fun rho pt => battery_net_outflow rho pt year)
       (fun rho pt => battery_losses cfg rho pt year) b b'.
Proof.
  unfold battery_block, battery_losses.
  destruct (existsb (RES_CONNECTED_TO_BATTERY cfg) (set_renewable_sources (sets cfg))).
  - intro H. inv_bind H. rename a into m1. inv_bind H. rename a into m2.
    inv_bind H. rename a into m3. inv_bind H. rename a into m4.
    inv_bind H. rename a into m5. inv_bind H. inv_bind H. rename a0 into m6.
    injection H as <-.
    split; [ cbn [model] | split; intros; reflexivity ].
    assert (E2 : extends m1 m2).
    { destruct (milp_formulation cfg).
      - inv_bind H1. apply add_constraints_extends in H1, H7.
        apply extends_trans with a0; tauto.
      - now apply add_constraints_extends in H1. }
    apply add_constraints_extends in H0, H2, H3, H4, H6.
    apply extends_trans with m1; [ tauto | ].
    apply extends_trans with m2; [ exact E2 | ].
    apply extends_trans with m3; [ tauto | ].
    apply extends_trans with m4; [ tauto | ].
    apply extends_trans with m5; tauto.
  - intro H. inv_bind H. inv_bind H. injection H as <-.
    unfold py_truediv in H0.
    destruct (Qeq_bool (item (param cfg "BATTERY_INVERTER_EFFICIENCY_AC_DC")) 0);
      [ discriminate | ].
    injection H0 as <-.
    split; [ cbn [model]; now apply add_constraints_extends in H1 | ].
    split; intros; reflexivity.
Qed.

Lemma generator_block_adds (year : Z) (gen : string) (b b' : Balance) :
  generator_block cfg year gen b = Ok b' ->
  adds (fun rho pt => rho "generator_energy_production"
                          (select [(years, Num year); (generator_types, Name gen)] pt))
       (fun rho pt =>
          (1 - param cfg "GENERATOR_RECTIFIER_EFFICIENCY"
                     (assign generator_types (Name gen) pt))
          * rho "generator_energy_production"
                (select [(generator_types, Name gen); (years, Num year)] pt))
       b b'.
Proof.
  unfold generator_block. intro H. inv_bind H. injection H as <-.
  split; [ cbn [model]; now apply add_constraints_extends in H0 | ].
  split; intros; reflexivity.
Qed.

Lemma generator_loop_adds (year : Z) (gens : list string) :
  forall b b',
    for_each gens (generator_block cfg year) b = Ok b' ->
    adds (fun rho pt =>
            sumQ (map (fun gen => rho "generator_energy_production"
                                      (select [(years, Num year);
                                               (generator_types, Name gen)] pt)) gens))
         (fun rho pt =>
            sumQ (map (fun gen =>
                         (1 - param cfg "GENERATOR_RECTIFIER_EFFICIENCY"
                                    (assign generator_types (Name gen) pt))
                         * rho "generator_energy_production"
                               (select [(generator_types, Name gen); (years, Num year)] pt))
                      gens))
         b b'.
Proof.
  induction gens as [ | g gens IH ]; intros b b' H; cbn [for_each] in H.
  - injection H as <-. apply adds_refl.
  - inv_bind H. apply generator_block_adds in H0. apply IH in H.
    destruct (adds_trans _ _ _ _ _ _ _ H0 H) as (E & P & L). split; [ exact E | ].
    split; intros rho pt; [ rewrite P | rewrite L ]; cbn [map sumQ]; ring.
Qed.

Lemma grid_block_adds (year : Z) (b b' : Balance) :
  grid_block cfg year b = Ok b' ->
  adds (fun rho pt => net_grid_import cfg rho pt year)
       (fun rho pt => grid_losses cfg rho pt year) b b'.
Proof.
  unfold grid_block, net_grid_import, grid_losses.
  destruct (grid_connection_type cfg =? 1)%Z; intro H; inv_bind H; injection H as <-;
    (split; [ cbn [model]; now apply add_constraints_extends in H0 | ]);
    split; intros; reflexivity.
Qed.

Lemma when_adds (c : bool) (f : Balance -> result Balance)
      (dp dl : Assignment -> coord -> Q) (b b' : Balance) :
  (forall x x', f x = Ok x' -> adds dp dl x x') ->
  when c f b = Ok b' ->
  adds (fun rho pt => if c then dp rho pt else 0)
       (fun rho pt => if c then dl rho pt else 0) b b'.
Proof.
  intros Hf H. unfold when in H. destruct c.
  - now apply Hf.
  - injection H as <-. apply adds_refl.
Qed.

(** One year of the loop: the model is extended, and its last addition is
    the balance of the year. *)
Lemma balance_year_ok (tuples : list (Z * Z)) (year : Z) (m m' : Constraints) :
  balance_year cfg has_battery has_generator has_grid_connection tuples year m = Ok m' ->
  extends m m'
  /\ exists step production losses,
       step_of_year cfg tuples year = Ok step
       /\ In ("Energy Balance Constraint - Year " ++ show_Z year,
              {| lhs := LSub production losses; sense := Equal;
                 rhs := LConst (par cfg "DEMAND" [(years, Num year)]) |}) m'
       /\ (forall rho pt,
             eval rho production pt
             == expected_production cfg has_battery has_generator has_grid_connection
                                    rho pt year step)
       /\ (forall rho pt,
             eval rho losses pt
             == expected_losses cfg has_battery has_generator has_grid_connection
                                rho pt year step).
Proof.
  unfold balance_year. intro H.
  inv_bind H. rename a into step. inv_bind H. destruct a as [mr d].
  inv_bind H. rename a into b1. inv_bind H. rename a into b2.
  inv_bind H. rename a into b3.
  apply res_loop_ok in H1; [ | intros k [] ]. destruct H1 as [Er Hd].
  cbn [app] in Hd. subst d.
  apply (when_adds _ _ _ _ _ _ (battery_block_adds year step)) in H2.
  apply (when_adds _ _ _ _ _ _ (generator_loop_adds year _)) in H3.
  apply (when_adds _ _ _ _ _ _ (grid_block_adds year)) in H4.
  destruct H2 as (E1 & P1 & L1), H3 as (E2 & P2 & L2), H4 as (E3 & P3 & L3).
  cbn [model yearly_energy_production yearly_conversion_losses] in E1, P1, L1.
  apply add_constraints_extends in H. destruct H as [E4 Hin].
  split.
  - apply extends_trans with mr; [ exact Er | ].
    apply extends_trans with (model b1); [ exact E1 | ].
    apply extends_trans with (model b2); [ exact E2 | ].
    apply extends_trans with (model b3); [ exact E3 | exact E4 ].
  - exists step. do 2 eexists. split; [ exact H0 | ]. split; [ exact Hin | ].
    split; intros rho pt.
    + unfold expected_production.
      assert (Hb3 : eval rho (yearly_energy_production b3) pt
                    == res_production cfg rho pt year step
                       + (if has_battery then battery_net_outflow rho pt year else 0)
                       + (if has_generator then generator_production cfg rho pt year else 0)
                       + (if has_grid_connection then net_grid_import cfg rho pt year else 0)).
      { rewrite P3, P2, P1. reflexivity. }
      destruct (Qlt_bool 0 (lost_load_fraction cfg)).
      * cbn [eval]. rewrite Hb3. reflexivity.
      * rewrite Hb3. ring.
    + unfold expected_losses. rewrite L3, L2, L1.
      cbn [eval]. unfold py_sum. rewrite eval_fold_add, map_map, map_map.
      cbn [eval snd]. unfold scalar, res_losses, generator_losses.
      do 3 (apply Qplus_comp; [ | reflexivity ]).
      rewrite !Qplus_0_l. apply sumQ_ext. intro res. reflexivity.
Qed.

Lemma add_renewable_penetration_extends (m m' : Constraints) :
  add_renewable_penetration_constraint cfg has_generator has_grid_connection m = Ok m' ->
  extends m m'.
Proof.
  unfold add_renewable_penetration_constraint. intro H. inv_bind H.
  revert H. apply for_each_extends. intros year m1 m2 _ H. inv_bind H.
  now apply add_constraints_extends in H.
Qed.

Lemma add_lost_load_extends (m m' : Constraints) :
  add_lost_load_constraint cfg m = Ok m' -> extends m m'.
Proof.
  unfold add_lost_load_constraint. apply for_each_extends.
  intros year m1 m2 _ H. now apply add_constraints_extends in H.
Qed.

(** C2. For every year the model built by [add_energy_balance_constraints]
    holds, under the name of the year, a constraint of sense [Equal] whose
    left-hand side is production minus conversion losses and whose
    right-hand side is the [DEMAND] of the year; the production is the
    renewable production of the year's investment step minus curtailment,
    plus battery net outflow, generator production, net grid import and
    lost load where these are enabled; the losses are those of the
    inverters, the battery, the rectifiers and the grid link.  The
    investment step is [steps[(year - years[0]) // step_duration]], one of
    the project's steps, when the year is not before the first one and a
    step lasts at least one year.  A feasible assignment therefore meets
    the demand exactly. *)
Theorem energy_balance_is_equality (m m' : Constraints) (year : Z) :
  add_energy_balance_constraints cfg has_battery has_generator has_grid_connection m
    = Ok m' ->
  In year (years_of cfg) ->
  exists tuples step production losses,
    years_steps_tuples cfg 0 = Ok tuples
    /\ step_of_year cfg tuples year = Ok step
    /\ ((hd 0%Z (years_of cfg) <= year)%Z ->
        (0 < step_duration cfg)%Z ->
        step = nth (Z.to_nat ((year - hd 0%Z (years_of cfg)) / step_duration cfg))
                   (steps_of cfg) 0%Z
        /\ In step (steps_of cfg))
    /\ In ("Energy Balance Constraint - Year " ++ show_Z year,
           {| lhs := LSub production losses; sense := Equal;
              rhs := LConst (par cfg "DEMAND" [(years, Num year)]) |}) m'
    /\ (forall rho pt,
          eval rho production pt
          == expected_production cfg has_battery has_generator has_grid_connection
                                 rho pt year step)
    /\ (forall rho pt,
          eval rho losses pt
          == expected_losses cfg has_battery has_generator has_grid_connection
                             rho pt year step)
    /\ (forall rho, feasible (sets cfg) rho m' ->
        forall pt, in_sets (sets cfg) pt ->
          expected_production cfg has_battery has_generator has_grid_connection
                              rho pt year step
          - expected_losses cfg has_battery has_generator has_grid_connection
                            rho pt year step
          == param cfg "DEMAND" (assign years (Num year) pt)).
Proof.
  intros H Hyear. unfold add_energy_balance_constraints in H.
  inv_bind H. rename a into tuples. inv_bind H. rename a into m1.
  inv_bind H. rename a into m2.
  assert (E2 : extends m1 m2).
  { destruct (Qlt_bool 0 (renewable_penetration cfg)).
    - now apply add_renewable_penetration_extends in H2.
    - injection H2 as <-. apply extends_refl. }
  assert (E3 : extends m2 m').
  { destruct (Qlt_bool 0 (lost_load_fraction cfg)).
    - now apply add_lost_load_extends in H.
    - injection H as <-. apply extends_refl. }
  destruct (for_each_added (years_of cfg) _
              (fun y x x' _ Hy => proj1 (balance_year_ok tuples y x x' Hy))
              year m m1 Hyear H1) as (ma & mb & _ & Hy & Eb).
  apply balance_year_ok in Hy.
  destruct Hy as (_ & step & production & losses & Hstep & Hin & Hval & Hloss).
  exists tuples, step, production, losses.
  apply (extends_In mb m1 _ Eb), (extends_In m1 m2 _ E2), (extends_In m2 m' _ E3) in Hin.
  split; [ assumption | ]. split; [ assumption | ].
  split; [ exact (step_of_year_closed_form cfg 0 tuples year step H0 Hstep) | ].
  repeat split; try assumption.
  intros rho Hfeas pt Hpt.
  specialize (Hfeas _ _ Hin pt Hpt). cbn [holds compare sense lhs rhs eval] in Hfeas.
  rewrite Hval, Hloss in Hfeas. exact Hfeas.
Qed.

End EnergyBalanceProps.

(** *** The energy balance on the example project *)

Section EnergyBalanceExamples.
Import Project EnergyBalance Examples.
Local Open Scope string_scope.

Lemma ex_energy_balance_model_built :
  add_energy_balance_constraints ex_cfg true true true [] = Ok ex_energy_balance_model.
Proof. vm_compute. reflexivity. Qed.

(** Year 3 belongs to the second investment step. *)
Lemma energy_balance_is_equality_witness :
  exists tuples step production losses,
    years_steps_tuples ex_cfg 0 = Ok tuples
    /\ step_of_year ex_cfg tuples 3 = Ok step
    /\ step = 2%Z
    /\ In ("Energy Balance Constraint - Year 3",
           {| lhs := LSub production losses; sense := Equal;
              rhs := LConst (par ex_cfg "DEMAND" [(years, Num 3)]) |})
          ex_energy_balance_model.
Proof.
  assert (Hy : In 3%Z (years_of ex_cfg)) by (cbn; tauto).
  destruct (energy_balance_is_equality ex_cfg true true true [] ex_energy_balance_model 3
              ex_energy_balance_model_built Hy)
    as (tuples & step & production & losses & Ht & Hs & Hstep & Hin & _ & _ & _).
  exists tuples, step, production, losses.
  split; [ exact Ht | ]. split; [ exact Hs | ]. split; [ | exact Hin ].
  destruct Hstep as [E _]; [ cbn; lia | cbn; lia | ]. exact E.
Defined.

End EnergyBalanceExamples.

(* ================================================================== *)
(** * Further properties *)

(* ------------------------------------------------------------------ *)
(** ** The solve drivers, for any solver *)

Ltac simpl_state_in H :=
  cbn [Model.objective Model.constraints Model.solve_calls Model.solution
       Model.set_objective Model.set_solution Model.set_constraints
       Model.count_call] in H.

Section DriverProps.
Import Model Float64.

Variable solver :
  nat -> option LinearExpression -> list (string * ModelConstraint) -> SolverOutcome.
Variable _build : M unit.
Variable scenario_labels : list label.
Variable SCENARIO_WEIGHTS : DataArray.
Variable optimization_goal : Z.

Abbreviation cost_obj' := (cost_objective scenario_labels SCENARIO_WEIGHTS optimization_goal).
Abbreviation cost_var' := (cost_objective_variable optimization_goal).
Abbreviation step_body' :=
  (sweep_step solver scenario_labels SCENARIO_WEIGHTS optimization_goal).
Abbreviation loop' := (sweep solver scenario_labels SCENARIO_WEIGHTS optimization_goal).
Abbreviation run' :=
  (solve_multi_objective solver _build scenario_labels SCENARIO_WEIGHTS optimization_goal).
Abbreviation single' :=
  (solve_single_objective solver _build scenario_labels SCENARIO_WEIGHTS optimization_goal).
Abbreviation capped' := (Model.capped scenario_labels SCENARIO_WEIGHTS).

Lemma mbind_ok {A B : Type} (m : M A) (k : A -> M B) (st st' : State) (b : B) :
  mbind m k st = (Ok b, st') ->
  exists a st1, m st = (Ok a, st1) /\ k a st1 = (Ok b, st').
Proof.
  unfold mbind. destruct (m st) as [[a | e] st1]; [ eauto | discriminate ].
Qed.

Lemma add_objective_ok (e : LinearExpression) (overwrite : bool) (st st' : State)
      (u : unit) :
  add_objective e overwrite st = (Ok u, st') ->
  st' = set_objective (Some e) st /\ (overwrite = false -> objective st = None).
Proof.
  unfold add_objective. destruct (objective st), overwrite; intro H;
    try discriminate; injection H as <-; split; congruence.
Qed.

Lemma solve_ok (st st' : State) (r : option Dataset) :
  _solve solver st = (Ok r, st') ->
  (r = None /\ solver (solve_calls st) (objective st) (constraints st) = NotAvailable
   /\ st' = count_call st)
  \/ (exists ds, r = Some ds
                 /\ solver (solve_calls st) (objective st) (constraints st) = Solved ds
                 /\ st' = set_solution (Some ds) (count_call st)).
Proof.
  unfold _solve. destruct (solver _ _ _) as [ | | | ds ]; intro H;
    try discriminate; injection H as <- <-; [ left | right; exists ds ]; auto.
Qed.

Lemma get_values_ok (r : option Dataset) (key : string) (st st' : State) (q : float64) :
  get_values r key st = (Ok q, st') ->
  exists ds, r = Some ds /\ get ds key = Some q /\ st' = st.
Proof.
  unfold get_values, raise, ret. destruct r as [ds | ]; [ | discriminate ].
  destruct (get ds key) as [q' | ] eqn:E; [ | discriminate ].
  intro H. injection H as <- <-. exists ds. auto.
Qed.

(** One iteration that returns normally was solved, and leaves the
    constraints as it found them. *)
Lemma sweep_step_inv (m es : float64) (i : Z) (acc acc' : Sweep) (st st' : State) :
  step_body' m es i acc st = (Ok acc', st') ->
  exists ds npc,
    solver (solve_calls st) (Some cost_obj') (capped' (constraints st) m es i) = Solved ds
    /\ get ds cost_var' = Some npc
    /\ acc' = {| npc_values := npc_values acc ++ [npc];
                 co2_values := co2_values acc ++ [np_add_mul m i es];
                 solutions := solutions acc ++ [Some ds] |}
    /\ st' = {| objective := Some cost_obj'; constraints := constraints st;
                solution := Some ds; solve_calls := S (solve_calls st) |}.
Proof.
  intro H. pose proof H as H'.
  unfold sweep_step in H.
  apply mbind_ok in H. destruct H as (? & s1 & Hadd & H).
  apply mbind_ok in H. destruct H as (? & s2 & Hobj & H).
  apply mbind_ok in H. destruct H as (r & s3 & Hsolve & H).
  apply mbind_ok in H. destruct H as (npc & s4 & Hget & _).
  unfold model_add_constraints in Hadd.
  destruct (add_constraints _ _ (constraints st)) as [cs | e] eqn:Ec; [ | discriminate ].
  apply add_constraints_ok in Ec. destruct Ec as [-> Hfresh].
  injection Hadd as Hadd. subst s1.
  apply add_objective_ok in Hobj. destruct Hobj as [-> _].
  apply get_values_ok in Hget. destruct Hget as (ds & -> & Hget & _).
  apply solve_ok in Hsolve. destruct Hsolve as [(Hn & _) | (ds' & Hr & Hs & _)];
    [ discriminate | ].
  injection Hr as <-. simpl_state. simpl_state_in Hs.
  exists ds, npc.
  assert (Hs' : solver (solve_calls st) (Some cost_obj') (capped' (constraints st) m es i)
                = Solved ds) by exact Hs.
  rewrite (sweep_step_ok solver scenario_labels SCENARIO_WEIGHTS optimization_goal
             m es i acc st ds npc Hfresh Hs' Hget) in H'.
  injection H' as <- <-. repeat split; assumption.
Qed.

Lemma last_cons {A : Type} (l : list A) :
  forall x d, last (x :: l) d = last l x.
Proof.
  induction l as [ | y l IH ]; intros x d; [ reflexivity | ].
  change (last (x :: y :: l) d) with (last (y :: l) d). now rewrite !IH.
Qed.

Lemma map_fst_combine {A B : Type} (l : list A) :
  forall l' : list B, List.length l = List.length l' -> map fst (combine l l') = l.
Proof.
  induction l as [ | x l IH ]; intros [ | y l' ] H; try discriminate; cbn;
    [ reflexivity | ]. f_equal. apply IH. now injection H.
Qed.

Lemma Forall2_combine_snd {A B D : Type} (P : A -> B -> Prop) (xs : list A) (ys : list B) :
  Forall2 P xs ys ->
  forall ts : list D, List.length ts = List.length ys ->
    Forall2 (fun x point => P x (snd point)) xs (combine ts ys).
Proof.
  induction 1 as [ | x y xs ys Hxy Hall IH ]; intros [ | t ts ] H; try discriminate; cbn;
    constructor; [ exact Hxy | ]. apply IH. now injection H.
Qed.

(** A sweep that returns normally. *)
Lemma sweep_inv (m es : float64) (range : list Z) :
  forall (acc acc' : Sweep) (st st' : State),
    loop' m es range acc st = (Ok acc', st') ->
    constraints st' = constraints st
    /\ solve_calls st' = (solve_calls st + List.length range)%nat
    /\ co2_values acc' = co2_values acc ++ map (fun i => np_add_mul m i es) range
    /\ exists (sols : list Dataset) (npcs : list float64),
         solutions acc' = solutions acc ++ map Some sols
         /\ npc_values acc' = npc_values acc ++ npcs
         /\ List.length sols = List.length range
         /\ List.length npcs = List.length range
         /\ Forall2 (fun ds npc => get ds cost_var' = Some npc) sols npcs
         /\ solution st' = last (map Some sols) (solution st).
Proof.
  induction range as [ | i range IH ]; intros acc acc' st st' H.
  - cbn in H. injection H as <- <-. repeat split; try (now rewrite ?app_nil_r); try lia.
    exists [], []. cbn. rewrite !app_nil_r. repeat split. constructor.
  - cbn [sweep] in H. apply mbind_ok in H. destruct H as (acc1 & st1 & Hstep & H).
    apply sweep_step_inv in Hstep. destruct Hstep as (ds & npc & _ & Hget & -> & ->).
    apply IH in H. simpl_state_in H.
    cbn [npc_values co2_values solutions] in H.
    destruct H as (Hc & Hk & Hco2 & sols & npcs & Hs & Hn & Ls & Ln & Hall & Hlast).
    repeat split.
    + exact Hc.
    + rewrite Hk. cbn [List.length]. lia.
    + rewrite Hco2, <- app_assoc. reflexivity.
    + exists (ds :: sols), (npc :: npcs). repeat split.
      * rewrite Hs, <- app_assoc. reflexivity.
      * rewrite Hn, <- app_assoc. reflexivity.
      * cbn. now rewrite Ls.
      * cbn. now rewrite Ln.
      * now constructor.
      * rewrite Hlast. cbn [map]. now rewrite last_cons.
Qed.

Lemma py_range_length (n : Z) : List.length (py_range n) = Z.to_nat n.
Proof. unfold py_range. now rewrite length_map, length_seq. Qed.

(** What a run of the sweep that returns has done, read off the chain of
    calls. *)
Lemma solve_multi_objective_inv
        (num_points : Z) (st0 st' : State)
        (front : list (float64 * float64)) (sols : list (option Dataset)) :
  run' num_points st0 = (Ok (front, sols), st') ->
  exists st1 s1 s2 max_co2 min_co2 rest,
    _build st0 = (Ok tt, st1)
    /\ get s1 "Total CO2 Emissions" = Some max_co2
    /\ get s2 "Total CO2 Emissions" = Some min_co2
    /\ sols = Some s1 :: Some s2 :: map Some rest
    /\ List.length rest = Z.to_nat num_points
    /\ List.length front = Z.to_nat num_points
    /\ map fst front
       = map (fun i => np_add_mul min_co2 i
                         (np_div_int (Float64.sub max_co2 min_co2) (num_points - 1)))
             (py_range num_points)
    /\ Forall2 (fun ds point => get ds cost_var' = Some (snd point)) rest front
    /\ constraints st' = constraints st1
    /\ solve_calls st' = (solve_calls st1 + 2 + Z.to_nat num_points)%nat
    /\ solution st' = last sols None.
Proof.
  intro H. unfold solve_multi_objective in H.
  apply mbind_ok in H. destruct H as (? & st1 & Hb & H).
  apply mbind_ok in H. destruct H as (? & a1 & Ho1 & H).
  apply mbind_ok in H. destruct H as (r1 & a2 & Hs1 & H).
  apply mbind_ok in H. destruct H as (max_co2 & a3 & Hg1 & H).
  apply mbind_ok in H. destruct H as (? & a4 & Ho2 & H).
  apply mbind_ok in H. destruct H as (r2 & a5 & Hs2 & H).
  apply mbind_ok in H. destruct H as (min_co2 & a6 & Hg2 & H).
  apply mbind_ok in H. destruct H as (acc & a7 & Hsweep & H).
  unfold ret in H. injection H as <- <- <-.
  apply add_objective_ok in Ho1. destruct Ho1 as [-> _].
  apply get_values_ok in Hg1. destruct Hg1 as (s1 & -> & Hmax & ->).
  apply solve_ok in Hs1. destruct Hs1 as [(Hn & _) | (s1' & E1 & _ & ->)]; [ discriminate | ].
  injection E1 as <-.
  apply add_objective_ok in Ho2. destruct Ho2 as [-> _].
  apply get_values_ok in Hg2. destruct Hg2 as (s2 & -> & Hmin & ->).
  apply solve_ok in Hs2. destruct Hs2 as [(Hn & _) | (s2' & E2 & _ & ->)]; [ discriminate | ].
  injection E2 as <-.
  apply sweep_inv in Hsweep. simpl_state_in Hsweep.
  cbn [npc_values co2_values solutions app] in Hsweep.
  destruct Hsweep as (Hc & Hk & Hco2 & rest & npcs & Hs & Hn & Ls & Ln & Hall & Hlast).
  rewrite py_range_length in *.
  exists st1, s1, s2, max_co2, min_co2, rest.
  set (thr := map (fun i => np_add_mul min_co2 i
                              (np_div_int (Float64.sub max_co2 min_co2) (num_points - 1)))
                  (py_range num_points)) in *.
  assert (Lt : List.length thr = List.length npcs)
    by (unfold thr; rewrite length_map, py_range_length; lia).
  rewrite Hco2, Hn. cbn [app].
  split; [ now destruct x | ]. split; [ exact Hmax | ]. split; [ exact Hmin | ].
  split; [ exact Hs | ]. split; [ lia | ].
  split; [ rewrite length_combine; lia | ].
  split; [ now apply map_fst_combine | ].
  split; [ exact (Forall2_combine_snd (fun ds npc => get ds cost_var' = Some npc)
                                    rest npcs Hall thr Lt) | ].
  split; [ exact Hc | ]. split; [ lia | ].
  rewrite Hlast, Hs. now rewrite !last_cons.
Qed.

(** X1. Whatever the solver does: when [solve_multi_objective] returns
    normally, the front has one point per sweep index with the thresholds
    [min_co2 + i * step] read from the two anchor solutions, the solution
    list holds the two anchors and one solution per point, none of them
    missing; the model is left with the constraints [_build] gave it, after
    [num_points + 2] solver calls, and [self.solution] is the last solution
    of the list. *)
Theorem solve_multi_objective_returns
        (num_points : Z) (st0 st' : State)
        (front : list (float64 * float64)) (sols : list (option Dataset)) :
  run' num_points st0 = (Ok (front, sols), st') ->
  exists st1 s1 s2 max_co2 min_co2 rest,
    _build st0 = (Ok tt, st1)
    /\ get s1 "Total CO2 Emissions" = Some max_co2
    /\ get s2 "Total CO2 Emissions" = Some min_co2
    /\ sols = Some s1 :: Some s2 :: map Some rest
    /\ List.length rest = Z.to_nat num_points
    /\ List.length front = Z.to_nat num_points
    /\ map fst front
       = map (fun i => np_add_mul min_co2 i
                         (np_div_int (Float64.sub max_co2 min_co2) (num_points - 1)))
             (py_range num_points)
    /\ Forall2 (fun ds point => get ds cost_var' = Some (snd point)) rest front
    /\ constraints st' = constraints st1
    /\ solve_calls st' = (solve_calls st1 + 2 + Z.to_nat num_points)%nat
    /\ solution st' = last sols None.
Proof. intro H. exact (solve_multi_objective_inv num_points st0 st' front sols H). Qed.

Lemma Forall2_last {A B : Type} (P : A -> B -> Prop) (xs : list A) (ys : list B) :
  Forall2 P xs ys -> xs <> [] -> forall dx dy, P (last xs dx) (last ys dy).
Proof.
  induction 1 as [ | x y xs ys Hxy Hall IH ]; intros Hne dx dy; [ congruence | ].
  rewrite !last_cons. destruct Hall as [ | x' y' xs' ys' Hxy' Hall' ]; [ exact Hxy | ].
  apply IH. discriminate.
Qed.

(** X2. After a sweep of at least one point that returns normally,
    [get_solution_variable] reads the solution of the last Pareto point: the
    cost it returns is the cost recorded in the last pair of the front. *)
Theorem sweep_leaves_last_solution
        (num_points : Z) (st0 st' : State)
        (front : list (float64 * float64)) (sols : list (option Dataset)) :
  run' num_points st0 = (Ok (front, sols), st') ->
  (1 <= num_points)%Z ->
  forall d, get_solution_variable cost_var' st' = (Ok (snd (last front d)), st').
Proof.
  intros H Hnp d. apply solve_multi_objective_inv in H.
  destruct H as (st1 & s1 & s2 & mx & mn & rest & _ & _ & _ & -> & Lr & _ & _ & Hall & _ & _ & Hsol).
  assert (Hne : rest <> []) by (destruct rest; [ cbn in Lr; lia | discriminate ]).
  rewrite !last_cons in Hsol.
  destruct rest as [ | r0 rest ]; [ congruence | ].
  cbn [map] in Hsol. rewrite last_cons in Hsol.
  pose proof (Forall2_last _ _ _ Hall Hne r0 d) as Hlast. cbn beta in Hlast.
  unfold get_solution_variable. rewrite Hsol.
  rewrite last_cons in Hlast.
  assert (E : last (map Some rest) (Some r0) = Some (last rest r0)).
  { clear. revert r0. induction rest as [ | x rest IH ]; intro r0; [ reflexivity | ].
    cbn [map]. rewrite !last_cons. apply IH. }
  rewrite E, Hlast. reflexivity.
Qed.

Variables st0 st1 : State.
Hypothesis build_ok : _build st0 = (Ok tt, st1).
Hypothesis no_objective : objective st1 = None.

Lemma single_objective_is_cost_objective (st : State) (overwrite : bool) :
  (if (optimization_goal =? 0)%Z
   then add_objective (weighted_sum scenario_labels SCENARIO_WEIGHTS
                                    "scenario_net_present_cost") overwrite
   else add_objective (weighted_sum scenario_labels SCENARIO_WEIGHTS
                                    "total_scenario_variable_cost_nonact") overwrite) st
  = add_objective cost_obj' overwrite st.
Proof. unfold cost_objective. destruct (optimization_goal =? 0)%Z; reflexivity. Qed.

(** The state after the first solver call of either driver. *)
Lemma first_solve (outcome : SolverOutcome) :
  solver (solve_calls st1) (Some cost_obj') (constraints st1) = outcome ->
  single' st0 = _solve solver (set_objective (Some cost_obj') st1)
  /\ _solve solver (set_objective (Some cost_obj') st1)
     = match outcome with
       | NotAvailable =>
           (Ok None, count_call (set_objective (Some cost_obj') st1))
       | SolverFailure =>
           (Raise RuntimeError, count_call (set_objective (Some cost_obj') st1))
       | NoSolution =>
           (Raise AttributeError, count_call (set_objective (Some cost_obj') st1))
       | Solved ds =>
           (Ok (Some ds),
            set_solution (Some ds) (count_call (set_objective (Some cost_obj') st1)))
       end.
Proof.
  intro H. split.
  - unfold solve_single_objective, mbind. rewrite build_ok.
    rewrite single_objective_is_cost_objective.
    unfold add_objective. rewrite no_objective. reflexivity.
  - unfold _solve. simpl_state. rewrite H. reflexivity.
Qed.

(** X4. When the solver is not installed, [solve_single_objective] returns
    [None] without raising, while [solve_multi_objective] raises
    [AttributeError] on that [None]; either way one call of [_solve] was
    made, the constraints are those of the build and [self.solution] is
    untouched, so [get_solution_variable] still reports an unsolved
    model. *)
Theorem solver_not_available (num_points : Z) (name : string) :
  solver (solve_calls st1) (Some cost_obj') (constraints st1) = NotAvailable ->
  solution st1 = None ->
  let after := {| objective := Some cost_obj'; constraints := constraints st1;
                  solution := None; solve_calls := S (solve_calls st1) |} in
  single' st0 = (Ok None, after)
  /\ run' num_points st0 = (Raise AttributeError, after)
  /\ get_solution_variable name after = (Raise ValueError, after).
Proof.
  intros Hs Hsol after.
  destruct (first_solve _ Hs) as [E1 E2].
  assert (Ea : count_call (set_objective (Some cost_obj') st1) = after).
  { unfold after, count_call, set_objective. simpl_state. now rewrite Hsol. }
  rewrite Ea in E2. split; [ now rewrite E1 | ]. split; [ | reflexivity ].
  unfold solve_multi_objective, mbind. rewrite build_ok.
  unfold add_objective at 1. rewrite no_objective. rewrite E2. reflexivity.
Qed.

(** X5. When the solver answers, [solve_single_objective] returns the
    solution and keeps it in [self.solution] with the cost objective of the
    project's goal set and the built constraints unchanged;
    [get_solution_variable] then returns the entries of that solution and
    raises [ValueError] for a name that is not in it. *)
Theorem solve_single_objective_then_lookup (ds : Dataset) (name : string) :
  solver (solve_calls st1) (Some cost_obj') (constraints st1) = Solved ds ->
  let after := {| objective := Some cost_obj'; constraints := constraints st1;
                  solution := Some ds; solve_calls := S (solve_calls st1) |} in
  single' st0 = (Ok (Some ds), after)
  /\ get_solution_variable name after
     = (match get ds name with
        | Some q => Ok q
        | None => Raise ValueError
        end, after).
Proof.
  intros Hs after. destruct (first_solve _ Hs) as [E1 E2].
  split; [ rewrite E1; exact E2 | ].
  unfold get_solution_variable. cbn [solution after].
  destruct (get ds name); reflexivity.
Qed.

(** X6. When the first solver call raises, both drivers end with
    [RuntimeError] after that one call; the built constraints and
    [self.solution] are as the build left them. *)
Theorem first_solve_failure (num_points : Z) :
  solver (solve_calls st1) (Some cost_obj') (constraints st1) = SolverFailure ->
  let after := {| objective := Some cost_obj'; constraints := constraints st1;
                  solution := solution st1; solve_calls := S (solve_calls st1) |} in
  solve_single_objective solver _build scenario_labels SCENARIO_WEIGHTS
                         optimization_goal st0
  = (Raise RuntimeError, after)
  /\ solve_multi_objective solver _build scenario_labels SCENARIO_WEIGHTS
                           optimization_goal num_points st0
     = (Raise RuntimeError, after).
Proof.
  intros Hs after. destruct (first_solve _ Hs) as [E1 E2].
  split; [ rewrite E1; exact E2 | ].
  unfold solve_multi_objective, mbind. rewrite build_ok.
  unfold add_objective at 1. rewrite no_objective. rewrite E2. reflexivity.
Qed.

End DriverProps.

Section DriverExamples.
Import Model Float64 Examples.

Lemma ex_sweep_result :
  exists st',
    solve_multi_objective ex_solver ex_build [Num 0] (scalar 1) 0 3 ex_st0
    = (Ok (ex_front, ex_solutions), st').
Proof. eexists. vm_compute. reflexivity. Qed.

Lemma solve_multi_objective_returns_witness :
  List.length ex_front = 3%nat /\ List.length ex_solutions = 5%nat.
Proof.
  destruct ex_sweep_result as [st' H].
  destruct (solve_multi_objective_returns ex_solver ex_build [Num 0] (scalar 1) 0 3
              ex_st0 st' ex_front ex_solutions H)
    as (st1 & s1 & s2 & mx & mn & rest & _ & _ & _ & Hs & Lr & Lf & _).
  split; [ exact Lf | ]. rewrite Hs. cbn [List.length]. rewrite length_map, Lr. reflexivity.
Defined.

Lemma sweep_leaves_last_solution_witness :
  exists st', Model.get_solution_variable "Net Present Cost" st'
              = (Ok (snd (last ex_front (S754_nan, S754_nan))), st').
Proof.
  destruct ex_sweep_result as [st' H]. exists st'.
  apply (sweep_leaves_last_solution ex_solver ex_build [Num 0] (scalar 1) 0 3
           ex_st0 st' ex_front ex_solutions H). lia.
Defined.

Lemma solver_not_available_witness :
  solve_single_objective ex_no_solver ex_build [Num 0] (scalar 1) 0 ex_st0
  = (Ok None,
     {| objective := Some (cost_objective [Num 0] (scalar 1) 0);
        constraints := constraints ex_st1; solution := None; solve_calls := 1 |})
  /\ fst (solve_multi_objective ex_no_solver ex_build [Num 0] (scalar 1) 0 5 ex_st0)
     = Raise AttributeError.
Proof.
  destruct (solver_not_available ex_no_solver ex_build [Num 0] (scalar 1) 0
              ex_st0 ex_st1 eq_refl eq_refl 5 "Net Present Cost"%string eq_refl eq_refl)
    as (H1 & H2 & _).
  split; [ exact H1 | now rewrite H2 ].
Defined.

Lemma solve_single_objective_then_lookup_witness :
  fst (solve_single_objective ex_solver ex_build [Num 0] (scalar 1) 0 ex_st0)
  = Ok (Some (ex_dataset 0)).
Proof.
  destruct (solve_single_objective_then_lookup ex_solver ex_build [Num 0] (scalar 1) 0
              ex_st0 ex_st1 eq_refl eq_refl (ex_dataset 0) "Net Present Cost"%string eq_refl)
    as (H1 & _).
  now rewrite H1.
Defined.

Lemma first_solve_failure_witness :
  fst (solve_single_objective (ex_failing_solver 0) ex_build [Num 0] (scalar 1) 0 ex_st0)
  = Raise RuntimeError
  /\ fst (ex_run (ex_failing_solver 0) 3) = Raise RuntimeError.
Proof.
  destruct (first_solve_failure (ex_failing_solver 0) ex_build [Num 0] (scalar 1) 0
              ex_st0 ex_st1 eq_refl eq_refl 3 eq_refl) as (H1 & H2).
  split; [ now rewrite H1 | ]. unfold ex_run. now rewrite H2.
Defined.

End DriverExamples.

(* ------------------------------------------------------------------ *)
(** ** The year-to-step table *)

Section StepTable.
Import Project.

Lemma py_index_nth {A : Type} (l : list A) (k : Z) (d : A) :
  (0 <= k < Z.of_nat (List.length l))%Z ->
  py_index l k = Ok (nth (Z.to_nat k) l d).
Proof.
  intro H. unfold py_index.
  destruct (k <? 0)%Z eqn:E; [ apply Z.ltb_lt in E; lia | ].
  replace ((0 <=? k) && (k <? Z.of_nat (List.length l)))%Z with true
    by (symmetry; apply andb_true_iff; split; [ apply Z.leb_le | apply Z.ltb_lt ]; lia).
  destruct (nth_error l (Z.to_nat k)) as [a | ] eqn:En.
  - now rewrite (nth_error_nth _ _ d En).
  - apply nth_error_None in En. lia.
Qed.

Lemma py_index_beyond {A : Type} (l : list A) (k : Z) :
  (Z.of_nat (List.length l) <= k)%Z -> py_index l k = Raise IndexError.
Proof.
  intro H. unfold py_index.
  destruct (k <? 0)%Z eqn:E; [ apply Z.ltb_lt in E; lia | ].
  replace (k <? Z.of_nat (List.length l))%Z with false
    by (symmetry; apply Z.ltb_ge; lia).
  now rewrite andb_false_r.
Qed.

Lemma map_result_ok {A B : Type} (f : A -> result B) (g : A -> B) (l : list A) :
  (forall x, In x l -> f x = Ok (g x)) -> map_result f l = Ok (map g l).
Proof.
  induction l as [ | x l IH ]; intro H; cbn; [ reflexivity | ].
  rewrite (H x) by now left. cbn. rewrite IH; [ reflexivity | ].
  intros y Hy. apply H. now right.
Qed.

Lemma map_result_raise {A B : Type} (f : A -> result B) (g : A -> B)
      (l1 l2 : list A) (x : A) (e : exn) :
  (forall y, In y l1 -> f y = Ok (g y)) -> f x = Raise e ->
  map_result f (l1 ++ x :: l2) = Raise e.
Proof.
  induction l1 as [ | y l1 IH ]; intros H Hx; cbn.
  - now rewrite Hx.
  - rewrite (H y) by now left. cbn. rewrite IH; [ reflexivity | | exact Hx ].
    intros z Hz. apply H. now right.
Qed.

Lemma nth_map_default {A B : Type} (f : A -> B) (l : list A) (k : nat) (d : B) (d' : A) :
  (k < List.length l)%nat -> nth k (map f l) d = f (nth k l d').
Proof.
  intro H. rewrite (nth_indep _ d (f d')) by (rewrite length_map; exact H).
  apply map_nth.
Qed.

Variable cfg : Config.
Variable offset : Z.

(** X7. With consecutive years, a positive step duration and enough steps,
    the table is built and the step of the [k]-th year is
    [steps[k // step_duration]]. *)
Theorem step_of_year_formula (y0 : Z) (n : nat) :
  years_of cfg = map (fun k => (y0 + Z.of_nat k)%Z) (seq 0 n) ->
  (0 < step_duration cfg)%Z ->
  (Z.of_nat n <= Z.of_nat (List.length (steps_of cfg)) * step_duration cfg)%Z ->
  exists tuples,
    years_steps_tuples cfg offset = Ok tuples
    /\ List.length tuples = n
    /\ forall k, (0 <= k < Z.of_nat n)%Z ->
         step_of_year cfg tuples (y0 + k)
         = Ok (nth (Z.to_nat (k / step_duration cfg)) (steps_of cfg) 0%Z).
Proof.
  intros Hyears Hd Hsteps.
  assert (Hlen : List.length (years_of cfg) = n)
    by (rewrite Hyears, length_map, length_seq; reflexivity).
  assert (Hy : forall k, (0 <= k < Z.of_nat n)%Z ->
                 py_index (years_of cfg) k = Ok (y0 + k)%Z).
  { intros k Hk. rewrite (py_index_nth _ _ 0%Z) by (rewrite Hlen; lia).
    rewrite Hyears.
    rewrite (nth_map_default _ _ _ _ 0%nat) by (rewrite length_seq; lia).
    rewrite seq_nth by lia. f_equal. lia. }
  assert (Hq : forall k, (0 <= k < Z.of_nat n)%Z ->
                 (0 <= k / step_duration cfg
                  < Z.of_nat (List.length (steps_of cfg)))%Z).
  { intros k Hk. split; [ apply Z.div_pos; lia | ].
    apply Z.div_lt_upper_bound; lia. }
  set (g := fun i : Z => ((i + offset)%Z,
                          nth (Z.to_nat (i / step_duration cfg)) (steps_of cfg) 0%Z)).
  assert (Ht : years_steps_tuples cfg offset = Ok (map g (range_len (years_of cfg)))).
  { unfold years_steps_tuples. apply map_result_ok.
    intros i Hi. unfold range_len in Hi. rewrite Hlen in Hi.
    apply in_map_iff in Hi. destruct Hi as (j & <- & Hj). apply in_seq in Hj.
    rewrite Hy by lia. cbn [bind]. rewrite (Hy 0%Z) by lia. cbn [bind].
    unfold py_floordiv. destruct (step_duration cfg =? 0)%Z eqn:E;
      [ apply Z.eqb_eq in E; lia | ]. cbn [bind].
    rewrite (py_index_nth _ _ 0%Z) by (apply Hq; lia). cbn [bind].
    unfold g. do 2 f_equal. lia. }
  exists (map g (range_len (years_of cfg))). split; [ exact Ht | ].
  assert (Hl : List.length (map g (range_len (years_of cfg))) = n)
    by (unfold range_len; rewrite !length_map, length_seq; exact Hlen).
  split; [ exact Hl | ].
  intros k Hk. unfold step_of_year.
  rewrite (Hy 0%Z) by lia. cbn [bind].
  replace (y0 + k - (y0 + 0))%Z with k by lia.
  rewrite (py_index_nth _ _ (g 0%Z)) by (rewrite Hl; lia). cbn [bind].
  unfold range_len. rewrite Hlen.
  rewrite (nth_map_default _ _ _ _ 0%Z) by (rewrite length_map, length_seq; lia).
  rewrite (nth_map_default _ _ _ _ 0%nat) by (rewrite length_seq; lia).
  rewrite seq_nth by lia. unfold g. cbn [snd].
  replace (Z.of_nat (0 + Z.to_nat k)) with k by lia. reflexivity.
Qed.

(** X8. With at least one year and a step duration of 0, building the
    table divides by zero, and so do the energy-balance and the
    fuel-consumption constraints, which build it first. *)
Theorem zero_step_duration_raises
        (has_battery has_generator has_grid_connection : bool) (m : Constraints) :
  years_of cfg <> [] ->
  step_duration cfg = 0%Z ->
  years_steps_tuples cfg offset = Raise ZeroDivisionError
  /\ EnergyBalance.add_energy_balance_constraints
       cfg has_battery has_generator has_grid_connection m = Raise ZeroDivisionError
  /\ Generator.add_generator_fuel_consumption_constraints cfg m = Raise ZeroDivisionError.
Proof.
  intros Hne Hd.
  assert (H : forall off, years_steps_tuples cfg off = Raise ZeroDivisionError).
  { intro off. unfold years_steps_tuples, range_len.
    destruct (years_of cfg) as [ | y ys ]; [ congruence | ].
    cbn [List.length seq map map_result].
    unfold py_index at 1 2. cbn. unfold py_floordiv. rewrite Hd. reflexivity. }
  split; [ apply H | ]. split.
  - unfold EnergyBalance.add_energy_balance_constraints. now rewrite H.
  - unfold Generator.add_generator_fuel_consumption_constraints. now rewrite H.
Qed.

(** X9. With a positive step duration and fewer steps than the years need
    ([len(steps) * step_duration < len(years)]), building the table runs
    past the end of [steps]: [IndexError], also from the energy-balance and
    the fuel-consumption constraints. *)
Theorem too_few_steps_raises
        (has_battery has_generator has_grid_connection : bool) (m : Constraints) :
  (0 < step_duration cfg)%Z ->
  (Z.of_nat (List.length (steps_of cfg)) * step_duration cfg
   < Z.of_nat (List.length (years_of cfg)))%Z ->
  years_steps_tuples cfg offset = Raise IndexError
  /\ EnergyBalance.add_energy_balance_constraints
       cfg has_battery has_generator has_grid_connection m = Raise IndexError
  /\ Generator.add_generator_fuel_consumption_constraints cfg m = Raise IndexError.
Proof.
  intros Hd Hfew.
  set (d := step_duration cfg) in *.
  set (ns := List.length (steps_of cfg)) in *.
  set (ny := List.length (years_of cfg)) in *.
  assert (H : forall off, years_steps_tuples cfg off = Raise IndexError).
  { intro off. unfold years_steps_tuples, range_len. fold ny.
    set (bad := Z.to_nat (Z.of_nat ns * d)).
    assert (Hbad : (bad < ny)%nat) by (unfold bad; lia).
    rewrite (seq_split ny bad Hbad), map_app. cbn [map].
    assert (Hy : forall j, (j < ny)%nat ->
                   exists y, py_index (years_of cfg) (Z.of_nat j) = Ok y).
    { intros j Hj. eexists. apply (py_index_nth _ _ 0%Z). fold ny. lia. }
    apply (map_result_raise _
             (fun i => ((nth (Z.to_nat i) (years_of cfg) 0
                         - nth 0 (years_of cfg) 0 + off)%Z,
                        nth (Z.to_nat (i / d)) (steps_of cfg) 0%Z))).
    - intros i Hi. apply in_map_iff in Hi. destruct Hi as (j & <- & Hj).
      apply in_seq in Hj.
      rewrite (py_index_nth _ _ 0%Z) by (fold ny; lia). cbn [bind].
      rewrite (py_index_nth _ 0%Z 0%Z) by (fold ny; lia). cbn [bind].
      unfold py_floordiv. fold d.
      destruct (d =? 0)%Z eqn:E; [ apply Z.eqb_eq in E; lia | ]. cbn [bind].
      rewrite (py_index_nth _ _ 0%Z); [ reflexivity | ].
      fold ns. split; [ apply Z.div_pos; lia | ].
      apply Z.div_lt_upper_bound; [ lia | ]. unfold bad in Hj. lia.
    - rewrite (py_index_nth _ _ 0%Z) by (fold ny; lia). cbn [bind].
      rewrite (py_index_nth _ 0%Z 0%Z) by (fold ny; lia). cbn [bind].
      unfold py_floordiv. fold d.
      destruct (d =? 0)%Z eqn:E; [ apply Z.eqb_eq in E; lia | ]. cbn [bind].
      rewrite py_index_beyond; [ reflexivity | ].
      fold ns. unfold bad. rewrite Z2Nat.id by lia.
      rewrite Z.div_mul by lia. lia. }
  split; [ apply H | ]. split.
  - unfold EnergyBalance.add_energy_balance_constraints. now rewrite H.
  - unfold Generator.add_generator_fuel_consumption_constraints. now rewrite H.
Qed.

End StepTable.

(* ------------------------------------------------------------------ *)
(** ** Energy balance: bounds and reported losses *)

Lemma feasible_extends (sets : Linopy.Sets) (rho : Linopy.Assignment)
      (m m' : Linopy.Constraints) :
  Linopy.extends m m' -> Linopy.feasible sets rho m' -> Linopy.feasible sets rho m.
Proof. intros E F name c Hin. apply (F name c). exact (extends_In _ _ _ E Hin). Qed.

Lemma feasible_added (sets : Linopy.Sets) (rho : Linopy.Assignment)
      (c : Linopy.Constraint) (name : string) (m m' : Linopy.Constraints) :
  Linopy.add_constraints c name m = Ok m' ->
  Linopy.feasible sets rho m' -> Linopy.holds sets rho c.
Proof.
  intros H F. apply add_constraints_extends in H. destruct H as [_ I].
  exact (F _ _ I).
Qed.

Lemma sumQ_ext_In {A : Type} (f g : A -> Q) (l : list A) :
  (forall x, In x l -> f x == g x) ->
  Linopy.sumQ (map f l) == Linopy.sumQ (map g l).
Proof.
  induction l as [ | x l IH ]; intro H; cbn [map Linopy.sumQ]; [ reflexivity | ].
  rewrite (H x) by now left. rewrite IH; [ reflexivity | ].
  intros y Hy. apply H. now right.
Qed.

Section EnergyBalanceBounds.
Import Project EnergyBalance.
Local Open Scope string_scope.

Variable cfg : Config.
Variables has_battery has_generator has_grid_connection : bool.
Variable rho : Assignment.

Abbreviation Balance := (EnergyBalance.Balance).

Lemma res_block_sound (year step : Z) (res : string) (m m' : Constraints)
      (d d' : list (string * LinearExpression)) :
  res_block cfg year step res (m, d) = Ok (m', d') ->
  feasible (sets cfg) rho m' ->
  forall pt, in_sets (sets cfg) pt -> res_facts cfg rho pt year step res.
Proof.
  unfold res_block. intros H F pt Hpt.
  inv_bind H. inv_bind H. injection H as <- _.
  pose proof (proj1 (add_constraints_extends _ _ _ _ H1)) as E1.
  pose proof (feasible_added _ _ _ _ _ _ H0 (feasible_extends _ _ _ _ E1 F) pt Hpt) as P.
  pose proof (feasible_added _ _ _ _ _ _ H1 F pt Hpt) as L.
  cbn [compare sense lhs rhs] in P, L.
  unfold source_losses, res_net, var, par, da_sub, da_sel, scalar in P, L.
  cbn [eval] in P, L. unfold res_facts. split.
  - cbn [select] in *. lra.
  - exact L.
Qed.

Lemma res_loop_extends (year step : Z) (l : list string) :
  forall (m m' : Constraints) (d d' : list (string * LinearExpression)),
    for_each l (res_block cfg year step) (m, d) = Ok (m', d') -> extends m m'.
Proof.
  induction l as [ | res l IH ]; intros m m' d d' H; cbn [for_each] in H.
  - injection H as <- _. apply extends_refl.
  - inv_bind H. destruct a as [m1 d1]. apply res_block_ok in H0.
    apply extends_trans with m1; [ tauto | ]. exact (IH _ _ _ _ H).
Qed.

Lemma res_loop_sound (year step : Z) (l : list string) :
  forall (m m' : Constraints) (d d' : list (string * LinearExpression)),
    for_each l (res_block cfg year step) (m, d) = Ok (m', d') ->
    feasible (sets cfg) rho m' ->
    forall res pt, In res l -> in_sets (sets cfg) pt ->
      res_facts cfg rho pt year step res.
Proof.
  induction l as [ | r l IH ]; intros m m' d d' H F res pt Hin Hpt; [ contradiction | ].
  cbn [for_each] in H. inv_bind H. destruct a as [m1 d1].
  destruct Hin as [-> | Hin].
  - apply (res_block_sound _ _ _ _ _ _ _ H0); [ | exact Hpt ].
    exact (feasible_extends _ _ _ _ (res_loop_extends _ _ _ _ _ _ _ H) F).
  - exact (IH _ _ _ _ H F res pt Hin Hpt).
Qed.

Lemma battery_block_sound (year step : Z) (b b' : Balance) :
  battery_block cfg year step b = Ok b' ->
  existsb (RES_CONNECTED_TO_BATTERY cfg) (set_renewable_sources (sets cfg)) = false ->
  feasible (sets cfg) rho (model b') ->
  forall pt, in_sets (sets cfg) pt ->
    battery_losses cfg rho pt year
    == rho "battery_conversion_losses" (assign years (Num year) pt).
Proof.
  unfold battery_block, battery_losses. intros H E F pt Hpt. rewrite E in *.
  inv_bind H. inv_bind H. injection H as <-.
  unfold py_truediv in H0.
  destruct (Qeq_bool (item (param cfg "BATTERY_INVERTER_EFFICIENCY_AC_DC")) 0);
    [ discriminate | ].
  injection H0 as <-. cbn [model] in F.
  exact (feasible_added _ _ _ _ _ _ H1 F pt Hpt).
Qed.

Lemma generator_block_sound (year : Z) (gen : string) (b b' : Balance) :
  generator_block cfg year gen b = Ok b' ->
  feasible (sets cfg) rho (model b') ->
  forall pt, in_sets (sets cfg) pt -> generator_loss_fact cfg rho pt year gen.
Proof.
  unfold generator_block. intros H F pt Hpt. inv_bind H. injection H as <-.
  cbn [model] in F. exact (feasible_added _ _ _ _ _ _ H0 F pt Hpt).
Qed.

Lemma generator_loop_sound (year : Z) (gens : list string) :
  forall b b',
    for_each gens (generator_block cfg year) b = Ok b' ->
    feasible (sets cfg) rho (model b') ->
    forall gen pt, In gen gens -> in_sets (sets cfg) pt ->
      generator_loss_fact cfg rho pt year gen.
Proof.
  induction gens as [ | g gens IH ]; intros b b' H F gen pt Hin Hpt; [ contradiction | ].
  cbn [for_each] in H. inv_bind H. destruct Hin as [-> | Hin].
  - apply (generator_block_sound _ _ _ _ H0); [ | exact Hpt ].
    apply generator_loop_adds in H. destruct H as [E _].
    exact (feasible_extends _ _ _ _ E F).
  - exact (IH _ _ H F gen pt Hin Hpt).
Qed.

Lemma grid_block_sound (year : Z) (b b' : Balance) :
  grid_block cfg year b = Ok b' ->
  feasible (sets cfg) rho (model b') ->
  forall pt, in_sets (sets cfg) pt ->
    grid_losses cfg rho pt year
    == rho "grid_conversion_losses" (assign years (Num year) pt).
Proof.
  unfold grid_block, grid_losses. intros H F pt Hpt.
  destruct (grid_connection_type cfg =? 1)%Z; inv_bind H; injection H as <-;
    cbn [model] in F; exact (feasible_added _ _ _ _ _ _ H0 F pt Hpt).
Qed.

(** What a feasible assignment satisfies in one year. *)
Lemma balance_year_sound (tuples : list (Z * Z)) (year : Z) (m m' : Constraints) :
  balance_year cfg has_battery has_generator has_grid_connection tuples year m = Ok m' ->
  feasible (sets cfg) rho m' ->
  exists step,
    step_of_year cfg tuples year = Ok step
    /\ forall pt, in_sets (sets cfg) pt ->
         (forall res, In res (set_renewable_sources (sets cfg)) ->
                      res_facts cfg rho pt year step res)
         /\ expected_losses cfg has_battery has_generator has_grid_connection
                            rho pt year step
            == reported_losses cfg has_battery has_generator has_grid_connection
                               rho pt year
         /\ expected_production cfg has_battery has_generator has_grid_connection
                                rho pt year step
            - expected_losses cfg has_battery has_generator has_grid_connection
                              rho pt year step
            == param cfg "DEMAND" (assign years (Num year) pt).
Proof.
  intros H F.
  pose proof (balance_year_ok cfg has_battery has_generator has_grid_connection
                tuples year m m' H)
    as (_ & step' & production & losses & Hstep' & Hin & Hval & Hloss).
  unfold balance_year in H.
  inv_bind H. rename a into step. inv_bind H. destruct a as [mr d].
  inv_bind H. rename a into b1. inv_bind H. rename a into b2.
  inv_bind H. rename a into b3.
  assert (step' = step) by congruence. subst step'.
  pose proof (when_adds _ _ _ _ _ _ (battery_block_adds cfg year step) H2) as (E1 & _).
  pose proof (when_adds _ _ _ _ _ _ (generator_loop_adds cfg year _) H3) as (E2 & _).
  pose proof (when_adds _ _ _ _ _ _ (grid_block_adds cfg year) H4) as (E3 & _).
  cbn [model] in E1.
  pose proof (proj1 (add_constraints_extends _ _ _ _ H)) as E4.
  pose proof (feasible_extends _ _ _ _ E4 F) as F3.
  pose proof (feasible_extends _ _ _ _ E3 F3) as F2.
  pose proof (feasible_extends _ _ _ _ E2 F2) as F1.
  pose proof (feasible_extends _ _ _ _ E1 F1) as Fr.
  exists step. split; [ exact H0 | ]. intros pt Hpt.
  assert (Hres : forall res, In res (set_renewable_sources (sets cfg)) ->
                             res_facts cfg rho pt year step res).
  { intros res Hres. exact (res_loop_sound _ _ _ _ _ _ _ H1 Fr res pt Hres Hpt). }
  split; [ exact Hres | ]. split.
  - unfold expected_losses, reported_losses.
    apply Qplus_comp; [ apply Qplus_comp; [ apply Qplus_comp | ] | ].
    + unfold res_losses. apply sumQ_ext_In. intros res Hr.
      exact (proj2 (Hres res Hr)).
    + unfold when in H2. destruct has_battery; [ | reflexivity ].
      destruct (existsb (RES_CONNECTED_TO_BATTERY cfg) (set_renewable_sources (sets cfg)))
        eqn:Edc.
      * unfold battery_losses. rewrite Edc. reflexivity.
      * exact (battery_block_sound _ _ _ _ H2 Edc F1 pt Hpt).
    + unfold when in H3. destruct has_generator; [ | reflexivity ].
      unfold generator_losses. apply sumQ_ext_In. intros gen Hg.
      exact (generator_loop_sound _ _ _ _ H3 F2 gen pt Hg Hpt).
    + unfold when in H4. destruct has_grid_connection; [ | reflexivity ].
      exact (grid_block_sound _ _ _ H4 F3 pt Hpt).
  - specialize (F _ _ Hin pt Hpt). cbn [compare sense lhs rhs eval] in F.
    rewrite Hval, Hloss in F. exact F.
Qed.

End EnergyBalanceBounds.

Section EnergyBalanceYear.
Import Project EnergyBalance.
Local Open Scope string_scope.

Variable cfg : Config.
Variables has_battery has_generator has_grid_connection : bool.

Lemma lost_load_sound (rho : Assignment) (m m' : Constraints) :
  add_lost_load_constraint cfg m = Ok m' ->
  feasible (sets cfg) rho m' ->
  forall year pt, In year (years_of cfg) -> in_sets (sets cfg) pt ->
    rho "lost_load" (assign years (Num year) pt)
    <= param cfg "DEMAND" (assign years (Num year) pt) * param cfg "LOST_LOAD_FRACTION" pt.
Proof.
  unfold add_lost_load_constraint. intros H F year pt Hy Hpt.
  destruct (for_each_added (years_of cfg) _
              (fun y x x' _ Hx => proj1 (add_constraints_extends _ _ _ _ Hx))
              year m m' Hy H) as (m1 & m2 & _ & Hb & E).
  exact (feasible_added _ _ _ _ _ _ Hb (feasible_extends _ _ _ _ E F) pt Hpt).
Qed.

(** The stages of [add_energy_balance_constraints] for one year. *)
Lemma energy_balance_stages (m m' : Constraints) (year : Z) :
  add_energy_balance_constraints cfg has_battery has_generator has_grid_connection m
    = Ok m' ->
  In year (years_of cfg) ->
  exists tuples ma mb m1 m2,
    years_steps_tuples cfg 0 = Ok tuples
    /\ balance_year cfg has_battery has_generator has_grid_connection tuples year ma = Ok mb
    /\ extends mb m1
    /\ (if Qlt_bool 0 (renewable_penetration cfg)
        then add_renewable_penetration_constraint cfg has_generator has_grid_connection m1
        else Ok m1) = Ok m2
    /\ extends m1 m2
    /\ (if Qlt_bool 0 (lost_load_fraction cfg)
        then add_lost_load_constraint cfg m2 else Ok m2) = Ok m'
    /\ extends m2 m'.
Proof.
  intros H Hyear. unfold add_energy_balance_constraints in H.
  inv_bind H. rename a into tuples. inv_bind H. rename a into m1.
  inv_bind H. rename a into m2.
  destruct (for_each_added (years_of cfg) _
              (fun y x x' _ Hy =>
                 proj1 (balance_year_ok cfg has_battery has_generator has_grid_connection
                                        tuples y x x' Hy))
              year m m1 Hyear H1) as (ma & mb & _ & Hy & Eb).
  exists tuples, ma, mb, m1, m2.
  split; [ exact H0 | ]. split; [ exact Hy | ]. split; [ exact Eb | ].
  split; [ exact H2 | ]. split; [ | split; [ exact H | ] ].
  - destruct (Qlt_bool 0 (renewable_penetration cfg)).
    + exact (add_renewable_penetration_extends _ _ _ _ _ H2).
    + injection H2 as <-. apply extends_refl.
  - destruct (Qlt_bool 0 (lost_load_fraction cfg)).
    + exact (add_lost_load_extends _ _ _ H).
    + injection H as <-. apply extends_refl.
Qed.

(** X10. In a model built by [add_energy_balance_constraints], a feasible
    assignment curtails no more of a source than the source produces in the
    year's investment step, and, when a lost-load fraction is set, loses no
    more load in a year than that fraction of the year's demand.  The step is
    [steps[(year - years[0]) // step_duration]] when the year is not before
    the first one and a step lasts at least one year. *)
Theorem curtailment_and_lost_load_bounded (m m' : Constraints) (year : Z) :
  add_energy_balance_constraints cfg has_battery has_generator has_grid_connection m
    = Ok m' ->
  In year (years_of cfg) ->
  exists tuples step,
    years_steps_tuples cfg 0 = Ok tuples
    /\ step_of_year cfg tuples year = Ok step
    /\ ((hd 0%Z (years_of cfg) <= year)%Z ->
        (0 < step_duration cfg)%Z ->
        step = nth (Z.to_nat ((year - hd 0%Z (years_of cfg)) / step_duration cfg))
                   (steps_of cfg) 0%Z
        /\ In step (steps_of cfg))
    /\ forall rho, feasible (sets cfg) rho m' ->
       forall pt, in_sets (sets cfg) pt ->
         (forall res, In res (set_renewable_sources (sets cfg)) ->
            rho "curtailment"
                (select [(years, Num year); (renewable_sources, Name res)] pt)
            <= rho "res_energy_production"
                   (select [(steps, Num step); (renewable_sources, Name res)] pt))
         /\ (Qlt_bool 0 (lost_load_fraction cfg) = true ->
             rho "lost_load" (assign years (Num year) pt)
             <= param cfg "DEMAND" (assign years (Num year) pt)
                * param cfg "LOST_LOAD_FRACTION" pt).
Proof.
  intros H Hyear.
  destruct (energy_balance_stages m m' year H Hyear)
    as (tuples & ma & mb & m1 & m2 & Ht & Hy & Eb & _ & E12 & Hll & E2).
  assert (E : extends mb m').
  { apply extends_trans with m1; [ exact Eb | ].
    apply extends_trans with m2; [ exact E12 | exact E2 ]. }
  assert (Hstep : exists step, step_of_year cfg tuples year = Ok step).
  { unfold balance_year in Hy. inv_bind Hy. now exists a. }
  destruct Hstep as [step Hstep].
  exists tuples, step. split; [ exact Ht | ]. split; [ exact Hstep | ].
  split; [ exact (step_of_year_closed_form cfg 0 tuples year step Ht Hstep) | ].
  intros rho F pt Hpt. split.
  - intros res Hres.
    destruct (balance_year_sound cfg has_battery has_generator has_grid_connection rho
                tuples year ma mb Hy (feasible_extends _ _ _ _ E F))
      as (step' & Hstep' & Hs).
    assert (step' = step) by congruence. subst step'.
    exact (proj1 (proj1 (Hs pt Hpt) res Hres)).
  - intro Hpos. rewrite Hpos in Hll.
    exact (lost_load_sound rho m2 m' Hll F year pt Hyear Hpt).
Qed.

(** X11. In a feasible assignment the loss variables that the model
    reports (per source, for the battery or the DC system, per generator
    type and for the grid link) add up to the conversion losses of the
    balance, so the production of a year minus its reported losses equals
    the demand.  The step is
    [steps[(year - years[0]) // step_duration]] when the year is not before
    the first one and a step lasts at least one year. *)
Theorem balance_with_reported_losses (m m' : Constraints) (year : Z) :
  add_energy_balance_constraints cfg has_battery has_generator has_grid_connection m
    = Ok m' ->
  In year (years_of cfg) ->
  exists tuples step,
    years_steps_tuples cfg 0 = Ok tuples
    /\ step_of_year cfg tuples year = Ok step
    /\ ((hd 0%Z (years_of cfg) <= year)%Z ->
        (0 < step_duration cfg)%Z ->
        step = nth (Z.to_nat ((year - hd 0%Z (years_of cfg)) / step_duration cfg))
                   (steps_of cfg) 0%Z
        /\ In step (steps_of cfg))
    /\ forall rho, feasible (sets cfg) rho m' ->
       forall pt, in_sets (sets cfg) pt ->
         expected_losses cfg has_battery has_generator has_grid_connection rho pt year step
         == reported_losses cfg has_battery has_generator has_grid_connection rho pt year
         /\ expected_production cfg has_battery has_generator has_grid_connection
                                rho pt year step
            - reported_losses cfg has_battery has_generator has_grid_connection rho pt year
            == param cfg "DEMAND" (assign years (Num year) pt).
Proof.
  intros H Hyear.
  destruct (energy_balance_stages m m' year H Hyear)
    as (tuples & ma & mb & m1 & m2 & Ht & Hy & Eb & _ & E12 & _ & E2).
  assert (E : extends mb m').
  { apply extends_trans with m1; [ exact Eb | ].
    apply extends_trans with m2; [ exact E12 | exact E2 ]. }
  assert (Hstep : exists step, step_of_year cfg tuples year = Ok step).
  { unfold balance_year in Hy. inv_bind Hy. now exists a. }
  destruct Hstep as [step Hstep].
  exists tuples, step. split; [ exact Ht | ]. split; [ exact Hstep | ].
  split; [ exact (step_of_year_closed_form cfg 0 tuples year step Ht Hstep) | ].
  intros rho F pt Hpt.
  destruct (balance_year_sound cfg has_battery has_generator has_grid_connection rho
              tuples year ma mb Hy (feasible_extends _ _ _ _ E F))
    as (step' & Hstep' & Hs).
  assert (step' = step) by congruence. subst step'.
  destruct (Hs pt Hpt) as (_ & Hl & Hb).
  split; [ exact Hl | ]. rewrite <- Hl. exact Hb.
Qed.

(** X12. When a renewable penetration is set, a feasible assignment has,
    in every year, a renewable production net of curtailment (summed over
    sources and periods) of at least [MINIMUM_RENEWABLE_PENETRATION] times
    the total of that production, the generator production and the grid
    imports; the battery flows are not part of the total.  The step is
    [steps[(year - years[0]) // step_duration]] when the year is not before
    the first one and a step lasts at least one year. *)
Theorem renewable_penetration_floor (m m' : Constraints) (year : Z) :
  add_energy_balance_constraints cfg has_battery has_generator has_grid_connection m
    = Ok m' ->
  Qlt_bool 0 (renewable_penetration cfg) = true ->
  In year (years_of cfg) ->
  exists tuples step,
    years_steps_tuples cfg 0 = Ok tuples
    /\ step_of_year cfg tuples year = Ok step
    /\ ((hd 0%Z (years_of cfg) <= year)%Z ->
        (0 < step_duration cfg)%Z ->
        step = nth (Z.to_nat ((year - hd 0%Z (years_of cfg)) / step_duration cfg))
                   (steps_of cfg) 0%Z
        /\ In step (steps_of cfg))
    /\ forall rho, feasible (sets cfg) rho m' ->
       forall pt, in_sets (sets cfg) pt ->
         param cfg "MINIMUM_RENEWABLE_PENETRATION" pt
         * penetration_total_production cfg has_generator has_grid_connection
                                        rho pt year step
         <= penetration_res_production cfg rho pt year step.
Proof.
  intros H Hpos Hyear.
  destruct (energy_balance_stages m m' year H Hyear)
    as (tuples & ma & mb & m1 & m2 & Ht & _ & _ & Hpen & _ & _ & E2).
  rewrite Hpos in Hpen. unfold add_renewable_penetration_constraint in Hpen.
  rewrite Ht in Hpen. cbn [bind] in Hpen.
  destruct (for_each_added (years_of cfg) _
              (fun y x x' _ Hx =>
                 match bind_ok _ _ _ Hx with
                 | ex_intro _ s (conj _ Hc) => proj1 (add_constraints_extends _ _ _ _ Hc)
                 end)
              year m1 m2 Hyear Hpen) as (mc & md & _ & Hb & E).
  inv_bind Hb. rename a into step.
  exists tuples, step. split; [ exact Ht | ]. split; [ exact Hb0 | ].
  split; [ exact (step_of_year_closed_form cfg 0 tuples year step Ht Hb0) | ].
  intros rho F pt Hpt.
  pose proof (feasible_added _ _ _ _ _ _ Hb
                (feasible_extends _ _ _ _ (extends_trans _ _ _ E E2) F) pt Hpt) as P.
  cbn [compare sense lhs rhs] in P.
  unfold penetration_total_production, penetration_res_production, over_periods.
  unfold sum_res_periods in P.
  destruct has_generator, has_grid_connection; cbn [eval select] in P;
    match goal with
    | |- ?x <= _ =>
        match type of P with
        | ?x' <= _ =>
            assert (Eq : x == x') by ring;
            apply Qle_trans with x'; [ apply Qle_lteq; right; exact Eq | exact P ]
        end
    end.
Qed.

End EnergyBalanceYear.


(* ------------------------------------------------------------------ *)
(** ** Generators: production bounds, fuel and expansion *)

Section GeneratorBounds.
Import Project Generator.
Local Open Scope string_scope.

Variable cfg : Config.

Lemma map_result_length {A B : Type} (f : A -> result B) (l : list A) :
  forall l', map_result f l = Ok l' -> List.length l' = List.length l.
Proof.
  induction l as [ | x l IH ]; intros l' H; cbn in H.
  - injection H as <-. reflexivity.
  - inv_bind H. inv_bind H. injection H as <-. cbn. f_equal. now apply IH.
Qed.

(** The first year always finds its step in a table that was built. *)
Lemma step_of_first_year (offset : Z) (tuples : list (Z * Z)) (y : Z) (ys : list Z) :
  years_of cfg = y :: ys ->
  years_steps_tuples cfg offset = Ok tuples ->
  exists step, step_of_year cfg tuples y = Ok step.
Proof.
  intros Hy Ht. apply map_result_length in Ht.
  unfold range_len in Ht. rewrite length_map, length_seq, Hy in Ht.
  unfold step_of_year. rewrite Hy. cbn [py_index List.length].
  destruct tuples as [ | t tuples ]; [ discriminate | ].
  unfold py_index. cbn. rewrite Z.sub_diag. cbn. now exists (snd t).
Qed.

Lemma capacity_expansion_extends (m m' : Constraints) :
  add_generator_capacity_expansion_constraints cfg m = Ok m' -> extends m m'.
Proof.
  unfold add_generator_capacity_expansion_constraints. apply for_each_extends.
  intros step m1 m2 _ H. exact (proj1 (capacity_expansion_step_ok cfg step m1 m2 H)).
Qed.

(** The three stages of [add_generator_constraints]. *)
Lemma add_generator_constraints_stages (m m' : Constraints) :
  add_generator_constraints cfg m = Ok m' ->
  exists m1 m2,
    add_generator_max_energy_production_constraint cfg m = Ok m1
    /\ add_generator_fuel_consumption_constraints cfg m1 = Ok m2
    /\ (if capacity_expansion cfg
        then add_generator_capacity_expansion_constraints cfg m2 else Ok m2) = Ok m'
    /\ extends m m1 /\ extends m1 m2 /\ extends m2 m'.
Proof.
  unfold add_generator_constraints. intro H. inv_bind H. inv_bind H.
  exists a, a0. split; [ exact H0 | ]. split; [ exact H1 | ]. split; [ exact H | ].
  split; [ exact (add_generator_max_extends cfg _ _ H0) | ].
  split; [ exact (add_generator_fuel_extends cfg _ _ H1) | ].
  destruct (capacity_expansion cfg).
  - exact (capacity_expansion_extends _ _ H).
  - injection H as <-. apply extends_refl.
Qed.

Lemma max_production_brownfield_sound (rho : Assignment) (year step : Z) (gen : string)
      (m m' : Constraints) :
  max_production_brownfield cfg year step gen m = Ok m' ->
  feasible (sets cfg) rho m' ->
  exists y0,
    py_index (years_of cfg) 0 = Ok y0
    /\ forall pt, in_sets (sets cfg) pt ->
         rho "generator_energy_production"
             (select [(years, Num year); (generator_types, Name gen)] pt)
         <= production_bound cfg rho pt y0 year step gen.
Proof.
  unfold max_production_brownfield. intros H F. inv_bind H. rename a into y0.
  exists y0. split; [ exact H0 | ]. intros pt Hpt.
  pose proof (feasible_added _ _ _ _ _ _ H F pt Hpt) as P.
  cbn [compare sense lhs rhs] in P.
  unfold production_bound, existing_capacity_counts.
  unfold Qlt_bool in P. rewrite negb_involutive in P.
  destruct (Qle_bool _ _); unfold new_capacity, existing_capacity, var, par, da_sel, gen_sel in P;
    cbn [eval select] in P; cbn [select]; lra.
Qed.

(** X13. In brownfield mode the model built by [add_generator_constraints]
    bounds the production of every year and generator type by the units
    sized at the year's investment step times the nominal capacity, plus the
    existing capacity as long as [existing_years + (year - years[0])] does
    not exceed the lifetime.  The step is
    [steps[(year - years[0]) // step_duration]] when the year is not before
    the first one and a step lasts at least one year. *)
Theorem brownfield_production_bounded (m m' : Constraints) (year : Z) (gen : string) :
  brownfield cfg = true ->
  add_generator_constraints cfg m = Ok m' ->
  In year (years_of cfg) ->
  In gen (set_generator_types (sets cfg)) ->
  exists y0 tuples step,
    py_index (years_of cfg) 0 = Ok y0
    /\ years_steps_tuples cfg 1 = Ok tuples
    /\ step_of_year cfg tuples year = Ok step
    /\ ((hd 0%Z (years_of cfg) <= year)%Z ->
        (0 < step_duration cfg)%Z ->
        step = nth (Z.to_nat ((year - hd 0%Z (years_of cfg)) / step_duration cfg))
                   (steps_of cfg) 0%Z
        /\ In step (steps_of cfg))
    /\ forall rho, feasible (sets cfg) rho m' ->
       forall pt, in_sets (sets cfg) pt ->
         rho "generator_energy_production"
             (select [(years, Num year); (generator_types, Name gen)] pt)
         <= production_bound cfg rho pt y0 year step gen.
Proof.
  intros Hbf H Hyear Hgen.
  destruct (add_generator_constraints_stages m m' H)
    as (ma & mb & Hmax & _ & _ & _ & E1 & E2).
  unfold add_generator_max_energy_production_constraint in Hmax. rewrite Hbf in Hmax.
  inv_bind Hmax. rename a into tuples.
  assert (Hinner : forall y m1 m2,
             (step <- step_of_year cfg tuples y ;;
              for_each (set_generator_types (sets cfg))
                       (max_production_brownfield cfg y step) m1) = Ok m2 ->
             extends m1 m2).
  { intros y m1 m2 Hy. inv_bind Hy. revert Hy. apply for_each_extends.
    intros g m3 m4 _. apply max_production_brownfield_extends. }
  destruct (for_each_added (years_of cfg) _ (fun y m1 m2 _ => Hinner y m1 m2)
              year m ma Hyear Hmax) as (m1 & m2 & _ & Hbody & Hext).
  inv_bind Hbody. rename a into step.
  destruct (for_each_added (set_generator_types (sets cfg))
              (max_production_brownfield cfg year step)
              (fun g m3 m4 _ => max_production_brownfield_extends cfg year step g m3 m4)
              gen m1 m2 Hgen Hbody) as (m3 & m4 & _ & Hgen' & Hext').
  assert (Hy0 : exists y0, py_index (years_of cfg) 0 = Ok y0).
  { unfold max_production_brownfield in Hgen'. inv_bind Hgen'. now exists a. }
  destruct Hy0 as [y0 Hy0].
  exists y0, tuples, step.
  split; [ exact Hy0 | ]. split; [ exact Hmax0 | ]. split; [ exact Hbody0 | ].
  split; [ exact (step_of_year_closed_form cfg 1 tuples year step Hmax0 Hbody0) | ].
  intros rho F pt Hpt.
  assert (F4 : feasible (sets cfg) rho m4).
  { apply (feasible_extends _ _ m4 m'); [ | exact F ].
    apply extends_trans with m2; [ exact Hext' | ].
    apply extends_trans with ma; [ exact Hext | ].
    apply extends_trans with mb; [ exact E1 | exact E2 ]. }
  destruct (max_production_brownfield_sound rho year step gen m3 m4 Hgen' F4)
    as (y0' & Hy0' & Hb).
  assert (y0' = y0) by congruence. subst y0'.
  exact (Hb pt Hpt).
Qed.

(** X14. Outside brownfield mode there is one constraint over all
    dimensions: at every coordinate the production is at most the units
    times the nominal capacity.  Production is indexed by year and units by
    step, so the production of every year is bounded by the units of every
    step, the first one included. *)
Theorem greenfield_production_bounded (m m' : Constraints) :
  brownfield cfg = false ->
  add_generator_constraints cfg m = Ok m' ->
  forall rho, feasible (sets cfg) rho m' ->
  forall pt, in_sets (sets cfg) pt ->
    rho "generator_energy_production" pt
    <= param cfg "GENERATOR_NOMINAL_CAPACITY" pt * rho "generator_units" pt
    /\ forall year step,
         In year (years_of cfg) -> In step (steps_of cfg) ->
         let here := assign years (Num year) (assign steps (Num step) pt) in
         rho "generator_energy_production" here
         <= param cfg "GENERATOR_NOMINAL_CAPACITY" here * rho "generator_units" here.
Proof.
  intros Hbf H rho F.
  destruct (add_generator_constraints_stages m m' H)
    as (ma & mb & Hmax & _ & _ & _ & E1 & E2).
  unfold add_generator_max_energy_production_constraint in Hmax. rewrite Hbf in Hmax.
  assert (Fa : feasible (sets cfg) rho ma).
  { apply (feasible_extends _ _ ma m'); [ | exact F ].
    apply extends_trans with mb; [ exact E1 | exact E2 ]. }
  pose proof (feasible_added _ _ _ _ _ _ Hmax Fa) as P.
  assert (Q : forall pt, in_sets (sets cfg) pt ->
              rho "generator_energy_production" pt
              <= param cfg "GENERATOR_NOMINAL_CAPACITY" pt * rho "generator_units" pt).
  { intros pt Hpt. exact (P pt Hpt). }
  intros pt Hpt. split; [ exact (Q pt Hpt) | ].
  intros year step Hy Hs here. apply Q. unfold here.
  apply in_sets_assign; [ apply in_sets_assign; [ exact Hpt | ] | ].
  - cbn [labels_of]. now apply in_map.
  - cbn [labels_of]. now apply in_map.
Qed.

(** X15. Without partial-load modeling, in the model built by
    [add_generator_constraints] the fuel consumed by a generator type in a
    year is its production divided by [nominal efficiency * LHV]; when that
    product is not zero, fuel times efficiency times LHV is the
    production. *)
Theorem nominal_fuel_consumption (m m' : Constraints) (year : Z) (gen : string) :
  partial_load cfg = false ->
  add_generator_constraints cfg m = Ok m' ->
  In year (years_of cfg) ->
  In gen (set_generator_types (sets cfg)) ->
  forall rho, feasible (sets cfg) rho m' ->
  forall pt, in_sets (sets cfg) pt ->
    let YG := [(years, Num year); (generator_types, Name gen)] in
    let yield := param cfg "GENERATOR_NOMINAL_EFFICIENCY" (assign generator_types (Name gen) pt)
                 * param cfg "FUEL_LHV" (assign generator_types (Name gen) pt) in
    rho "generator_fuel_consumption" (select YG pt)
    == rho "generator_energy_production" (select YG pt) / yield
    /\ (~ yield == 0 ->
        rho "generator_fuel_consumption" (select YG pt) * yield
        == rho "generator_energy_production" (select YG pt)).
Proof.
  intros Hpl H Hyear Hgen rho F pt Hpt YG yield.
  destruct (add_generator_constraints_stages m m' H)
    as (ma & mb & _ & Hfuel & _ & _ & _ & E2).
  pose proof (fuel_consumption_nominal cfg ma mb year gen Hpl Hfuel Hyear Hgen) as Hin.
  cbv zeta in Hin. apply (extends_In mb m' _ E2) in Hin.
  pose proof (F _ _ Hin pt Hpt) as P. cbn [compare sense lhs rhs] in P.
  assert (P' : rho "generator_fuel_consumption" (select YG pt)
               == rho "generator_energy_production" (select YG pt) / yield) by exact P.
  split; [ exact P' | ]. intro Hnz. rewrite P'. field. exact Hnz.
Qed.

(** X16. With partial-load modeling and a single generator type, in the
    model built by [add_generator_constraints] the fuel consumption of a
    year lies on or above the secant of every segment of the sampled fuel
    curve (of slope 0 when the segment is flat).  The step is
    [steps[(year - years[0]) // step_duration]] when the year is not before
    the first one and a step lasts at least one year. *)
Theorem partial_load_fuel_above_secants (m m' : Constraints) (year seg : Z) (gen : string) :
  partial_load cfg = true ->
  set_generator_types (sets cfg) = [gen] ->
  add_generator_constraints cfg m = Ok m' ->
  In year (years_of cfg) ->
  (0 <= seg < sampled_points cfg - 1)%Z ->
  exists tuples step,
    years_steps_tuples cfg 1 = Ok tuples
    /\ step_of_year cfg tuples year = Ok step
    /\ ((hd 0%Z (years_of cfg) <= year)%Z ->
        (0 < step_duration cfg)%Z ->
        step = nth (Z.to_nat ((year - hd 0%Z (years_of cfg)) / step_duration cfg))
                   (steps_of cfg) 0%Z
        /\ In step (steps_of cfg))
    /\ forall rho, feasible (sets cfg) rho m' ->
       forall pt, in_sets (sets cfg) pt ->
         secant_fuel cfg rho pt year step gen seg
         <= rho "generator_fuel_consumption"
                (select [(years, Num year); (generator_types, Name gen)] pt).
Proof.
  intros Hpl Hone H Hyear Hseg.
  destruct (add_generator_constraints_stages m m' H)
    as (ma & mb & _ & Hfuel & _ & _ & _ & E2).
  unfold add_generator_fuel_consumption_constraints in Hfuel. inv_bind Hfuel.
  rename a into tuples.
  assert (Hinner : forall y m1 m2,
             (step <- step_of_year cfg tuples y ;;
              for_each (set_generator_types (sets cfg))
                       (fuel_consumption_gen cfg y step) m1) = Ok m2 ->
             extends m1 m2).
  { intros y m1 m2 Hy. inv_bind Hy. revert Hy. apply for_each_extends.
    intros g m3 m4 _. apply fuel_consumption_gen_extends. }
  destruct (for_each_added (years_of cfg) _ (fun y m1 m2 _ => Hinner y m1 m2)
              year ma mb Hyear Hfuel) as (m1 & m2 & _ & Hbody & Hext).
  inv_bind Hbody. rename a into step. exists tuples, step.
  split; [ exact Hfuel0 | ]. split; [ exact Hbody0 | ].
  split; [ exact (step_of_year_closed_form cfg 1 tuples year step Hfuel0 Hbody0) | ].
  assert (Hgen : In gen (set_generator_types (sets cfg))) by (rewrite Hone; now left).
  destruct (for_each_added (set_generator_types (sets cfg))
              (fuel_consumption_gen cfg year step)
              (fun g m3 m4 _ => fuel_consumption_gen_extends cfg year step g m3 m4)
              gen m1 m2 Hgen Hbody) as (m3 & m4 & _ & Hgen' & Hext').
  unfold fuel_consumption_gen in Hgen'. rewrite Hpl in Hgen'. cbn [negb] in Hgen'.
  assert (Hsegin : In seg (map Z.of_nat (seq 0 (Z.to_nat (sampled_points cfg - 1))))).
  { apply in_map_iff. exists (Z.to_nat seg). split; [ lia | ]. apply in_seq. lia. }
  destruct (for_each_added _ (partial_load_segment cfg year step gen)
              (fun k m5 m6 _ => partial_load_segment_extends cfg year step gen k m5 m6)
              seg m3 m4 Hsegin Hgen') as (m5 & m6 & _ & Hk & Hext'').
  intros rho F pt Hpt.
  assert (F6 : feasible (sets cfg) rho m6).
  { apply (feasible_extends _ _ m6 m'); [ | exact F ].
    apply extends_trans with m4; [ exact Hext'' | ].
    apply extends_trans with m2; [ exact Hext' | ].
    apply extends_trans with mb; [ exact Hext | exact E2 ]. }
  unfold partial_load_segment, truth_value in Hk. rewrite Hone in Hk. cbn [bind] in Hk.
  pose proof (feasible_added _ _ _ _ _ _ Hk F6 pt Hpt) as P.
  unfold secant_fuel, segment_slope. cbv zeta.
  destruct (Qeq_bool _ 0); exact P.
Qed.

(** X17. With partial-load modeling, two or more generator types, a year
    and at least two sample points, the flat-segment test of the first
    segment is applied to an array over all generator types:
    [add_generator_fuel_consumption_constraints] raises [ValueError], and
    [add_generator_constraints] never returns a model. *)
Theorem partial_load_needs_single_generator_type
        (m : Constraints) (tuples : list (Z * Z))
        (y : Z) (ys : list Z) (g1 g2 : string) (gs : list string) :
  partial_load cfg = true ->
  set_generator_types (sets cfg) = g1 :: g2 :: gs ->
  years_of cfg = y :: ys ->
  years_steps_tuples cfg 1 = Ok tuples ->
  (2 <= sampled_points cfg)%Z ->
  add_generator_fuel_consumption_constraints cfg m = Raise ValueError
  /\ forall m0 m', add_generator_constraints cfg m0 <> Ok m'.
Proof.
  intros Hpl Hg Hy Ht Hn.
  assert (Hfuel : forall m1, add_generator_fuel_consumption_constraints cfg m1
                             = Raise ValueError).
  { intro m1. unfold add_generator_fuel_consumption_constraints.
    rewrite Ht. cbn [bind]. rewrite Hy. cbn [for_each].
    destruct (step_of_first_year 1 tuples y ys Hy Ht) as [step ->]. cbn [bind].
    rewrite Hg. cbn [for_each]. unfold fuel_consumption_gen at 1.
    rewrite Hpl. cbn [negb].
    destruct (Z.to_nat (sampled_points cfg - 1)) as [ | k ] eqn:Ek; [ lia | ].
    cbn [seq map for_each].
    rewrite (partial_load_segment_ambiguous cfg y step (Z.of_nat 0) g1 g1 g2 gs m1 Hg).
    reflexivity. }
  split; [ apply Hfuel | ].
  intros m0 m' H. unfold add_generator_constraints in H. inv_bind H.
  rewrite Hfuel in H. discriminate H.
Qed.

(** X18. With partial-load modeling and fewer than two sample points there
    are no segments: [add_generator_fuel_consumption_constraints] adds
    nothing, and the fuel consumption is tied to the production by no
    constraint. *)
Theorem partial_load_without_segments (m m' : Constraints) :
  partial_load cfg = true ->
  (sampled_points cfg <= 1)%Z ->
  add_generator_fuel_consumption_constraints cfg m = Ok m' ->
  m' = m.
Proof.
  intros Hpl Hn H. unfold add_generator_fuel_consumption_constraints in H.
  inv_bind H. symmetry. revert H.
  apply (for_each_rel (fun m1 m2 : Constraints => m1 = m2));
    [ reflexivity | intros; congruence | ].
  intros year m1 m2 _ H. inv_bind H. revert H.
  apply (for_each_rel (fun m1 m2 : Constraints => m1 = m2));
    [ reflexivity | intros; congruence | ].
  intros gen m3 m4 _ H. unfold fuel_consumption_gen in H. rewrite Hpl in H.
  cbn [negb] in H. replace (Z.to_nat (sampled_points cfg - 1)) with 0%nat in H by lia.
  cbn in H. congruence.
Qed.

(** X19. The expansion constraints refer to the step labelled [step - 1]:
    if some step after the first has no predecessor among the steps, the
    expansion constraints are not built ([KeyError] when it is the second
    step), and with capacity expansion enabled [add_generator_constraints]
    never returns a model. *)
Theorem capacity_expansion_needs_predecessors (m : Constraints) (step : Z) :
  In step (tl (steps_of cfg)) ->
  ~ In (step - 1)%Z (steps_of cfg) ->
  (forall m', add_generator_capacity_expansion_constraints cfg m <> Ok m')
  /\ (forall s0 rest,
        steps_of cfg = s0 :: step :: rest ->
        add_generator_capacity_expansion_constraints cfg m = Raise KeyError)
  /\ (capacity_expansion cfg = true ->
      forall m0 m', add_generator_constraints cfg m0 <> Ok m').
Proof.
  intros Hstep Hno.
  assert (Hnever : forall m0 m',
             add_generator_capacity_expansion_constraints cfg m0 <> Ok m').
  { intros m0 m' H. apply Hno.
    unfold add_generator_capacity_expansion_constraints in H.
    destruct (for_each_added (tl (steps_of cfg)) (capacity_expansion_step cfg)
                (fun x m1 m2 _ Hx => proj1 (capacity_expansion_step_ok cfg x m1 m2 Hx))
                step m0 m' Hstep H) as (m1 & m2 & _ & Hb & _).
    exact (proj2 (proj2 (capacity_expansion_step_ok cfg step m1 m2 Hb))). }
  split; [ apply Hnever | ]. split.
  - intros s0 rest Hs.
    unfold add_generator_capacity_expansion_constraints. rewrite Hs at 1.
    cbn [tl for_each]. unfold capacity_expansion_step at 1.
    destruct (existsb (Z.eqb (step - 1)) (steps_of cfg)) eqn:E; [ | reflexivity ].
    exfalso. apply Hno. apply existsb_exists in E. destruct E as (x & Hx & Hxe).
    apply Z.eqb_eq in Hxe. now subst x.
  - intros Hce m0 m' H.
    destruct (add_generator_constraints_stages m0 m' H) as (ma & mb & _ & _ & He & _).
    rewrite Hce in He. exact (Hnever mb m' He).
Qed.

End GeneratorBounds.

(** Feasibility of a concrete assignment in a concrete model, by
    enumeration of the constraints. *)
Ltac check_feasible :=
  let name := fresh "name" in
  let c := fresh "c" in
  let Hin := fresh "Hin" in
  let pt := fresh "pt" in
  let Hpt := fresh "Hpt" in
  let H := fresh "H" in
  let E := fresh "E" in
  intros name c Hin pt Hpt;
  match type of Hin with
  | In _ ?m =>
      let nf := eval vm_compute in m in
      assert (E : m = nf) by (vm_compute; reflexivity);
      rewrite E in Hin; clear E
  end;
  repeat (destruct Hin as [Hin | Hin];
          [ injection Hin as <- <-; vm_compute; try reflexivity; intro H; discriminate H | ]);
  contradiction.

Section GeneratorBoundsExamples.
Import Project Generator Examples.
Local Open Scope string_scope.

Lemma ex_point_in_sets (gens : list string) :
  In "Diesel" gens -> in_sets (sets (ex_config gens)) ex_point.
Proof.
  intros Hg d Hd. destruct d; cbn in *; try tauto.
  apply in_map. exact Hg.
Qed.

Lemma ex_greenfield_model_built :
  add_generator_constraints ex_cfg_greenfield [] = Ok ex_greenfield_model.
Proof. vm_compute. reflexivity. Qed.

Lemma ex_greenfield_running_feasible :
  feasible (sets ex_cfg_greenfield) (ex_running (20 # 3)) ex_greenfield_model.
Proof. check_feasible. Qed.

Lemma ex_generator_running_feasible :
  feasible (sets ex_cfg) (ex_running 20) ex_generator_model.
Proof. check_feasible. Qed.

Lemma brownfield_production_bounded_witness :
  exists step,
    60 <= production_bound ex_cfg (ex_running 20) ex_point 0 1 step "Diesel".
Proof.
  destruct (brownfield_production_bounded ex_cfg [] ex_generator_model 1 "Diesel"
              eq_refl ex_generator_model_built
              (or_intror (or_introl eq_refl)) (or_introl eq_refl))
    as (y0 & tuples & step & Hy0 & _ & _ & _ & H).
  exists step. injection Hy0 as <-.
  exact (H (ex_running 20) ex_generator_running_feasible ex_point
           (ex_point_in_sets ["Diesel"] (or_introl eq_refl))).
Defined.

Lemma greenfield_production_bounded_witness :
  ex_running (20 # 3) "generator_energy_production"
             (assign years (Num 5) (assign steps (Num 1) ex_point))
  <= param ex_cfg_greenfield "GENERATOR_NOMINAL_CAPACITY"
           (assign years (Num 5) (assign steps (Num 1) ex_point))
     * ex_running (20 # 3) "generator_units"
                  (assign years (Num 5) (assign steps (Num 1) ex_point)).
Proof.
  apply (proj2 (greenfield_production_bounded ex_cfg_greenfield [] ex_greenfield_model
                  eq_refl ex_greenfield_model_built
                  (ex_running (20 # 3)) ex_greenfield_running_feasible ex_point
                  (ex_point_in_sets ["Diesel"] (or_introl eq_refl))) 5%Z 1%Z).
  - cbn. tauto.
  - cbn. tauto.
Defined.

Lemma nominal_fuel_consumption_witness :
  (20 # 3) * (param ex_cfg_greenfield "GENERATOR_NOMINAL_EFFICIENCY" ex_point
              * param ex_cfg_greenfield "FUEL_LHV" ex_point) == 60.
Proof.
  apply (proj2 (nominal_fuel_consumption ex_cfg_greenfield [] ex_greenfield_model
                  2 "Diesel" eq_refl ex_greenfield_model_built
                  (or_intror (or_intror (or_introl eq_refl))) (or_introl eq_refl)
                  (ex_running (20 # 3)) ex_greenfield_running_feasible ex_point
                  (ex_point_in_sets ["Diesel"] (or_introl eq_refl)))).
  vm_compute. discriminate.
Defined.

Lemma partial_load_fuel_above_secants_witness :
  exists step, secant_fuel ex_cfg (ex_running 20) ex_point 4 step "Diesel" 1 <= 20.
Proof.
  destruct (partial_load_fuel_above_secants ex_cfg [] ex_generator_model 4 1 "Diesel"
              eq_refl eq_refl ex_generator_model_built
              (or_intror (or_intror (or_intror (or_intror (or_introl eq_refl)))))
              ltac:(cbn; lia))
    as (tuples & step & _ & _ & _ & H).
  exists step.
  exact (H (ex_running 20) ex_generator_running_feasible ex_point
           (ex_point_in_sets ["Diesel"] (or_introl eq_refl))).
Defined.

Lemma partial_load_needs_single_generator_type_witness :
  add_generator_fuel_consumption_constraints ex_cfg_two [] = Raise ValueError.
Proof.
  exact (proj1 (partial_load_needs_single_generator_type ex_cfg_two []
                  [(1, 1); (2, 1); (3, 1); (4, 2); (5, 2); (6, 2)]%Z
                  0 [1; 2; 3; 4; 5]%Z "Diesel" "Gas" []
                  eq_refl eq_refl eq_refl eq_refl ltac:(cbn; lia))).
Defined.

Lemma partial_load_without_segments_witness :
  add_generator_fuel_consumption_constraints ex_cfg_one_sample ex_max_production_model
  = Ok ex_max_production_model.
Proof.
  assert (H : exists m', add_generator_fuel_consumption_constraints
                           ex_cfg_one_sample ex_max_production_model = Ok m')
    by (eexists; vm_compute; reflexivity).
  destruct H as [m' H]. rewrite H. f_equal.
  exact (partial_load_without_segments ex_cfg_one_sample ex_max_production_model m'
           eq_refl ltac:(cbn; lia) H).
Defined.

Lemma capacity_expansion_needs_predecessors_witness :
  add_generator_capacity_expansion_constraints ex_cfg_gap [] = Raise KeyError.
Proof.
  assert (Hno : ~ In (3 - 1)%Z (steps_of ex_cfg_gap))
    by (cbn; intros [H | [H | []]]; discriminate H).
  exact (proj1 (proj2 (capacity_expansion_needs_predecessors ex_cfg_gap [] 3
                         (or_introl eq_refl) Hno)) 1%Z [] eq_refl).
Defined.

End GeneratorBoundsExamples.

(* ------------------------------------------------------------------ *)
(** ** Thermal storage: the assembled constraints *)

Section TESBounds.
Import Project TES.
Local Open Scope string_scope.

Variable cfg : Config.

Lemma soc_stage_extends (m m' : Constraints) :
  add_tes_state_of_charge_constraints cfg m = Ok m' -> extends m m'.
Proof.
  unfold add_tes_state_of_charge_constraints. intro H.
  inv_bind H. rename a into fy. inv_bind H. rename a into fp.
  inv_bind H. rename a into lp. inv_bind H. rename a into mid.
  apply extends_trans with mid.
  - revert H3. apply for_each_extends. intros y m1 m2 _.
    apply for_each_extends. intros p m3 m4 _. apply soc_dynamics_extends.
  - revert H. apply for_each_extends.
    intros y m1 m2 _ Hy. now apply soc_bounds_ok in Hy.
Qed.

Lemma flow_stage_extends (m m' : Constraints) :
  add_tes_flow_constraints cfg m = Ok m' -> extends m m'.
Proof.
  unfold add_tes_flow_constraints. intro H. inv_bind H. inv_bind H.
  revert H. apply for_each_extends.
  intros y m1 m2 _ Hy. now apply flow_bounds_ok in Hy.
Qed.

Lemma production_stage_extends (m m' : Constraints) :
  add_tes_production_constraints cfg m = Ok m' -> extends m m'.
Proof.
  unfold add_tes_production_constraints. intro H.
  inv_bind H. rename a into m1. inv_bind H. rename a into m2.
  inv_bind H. rename a into m3. inv_bind H. rename a into m4.
  inv_bind H. rename a into m5.
  apply add_constraints_extends in H0, H1, H2, H3, H4, H.
  apply extends_trans with m1; [ tauto | ].
  apply extends_trans with m2; [ tauto | ].
  apply extends_trans with m3; [ tauto | ].
  apply extends_trans with m4; [ tauto | ].
  apply extends_trans with m5; tauto.
Qed.

(** The three stages of [add_tes_constraints]. *)
Lemma add_tes_constraints_stages (m m' : Constraints) :
  add_tes_constraints cfg m = Ok m' ->
  exists m1 m2,
    add_tes_state_of_charge_constraints cfg m = Ok m1
    /\ add_tes_flow_constraints cfg m1 = Ok m2
    /\ add_tes_production_constraints cfg m2 = Ok m'
    /\ extends m1 m2 /\ extends m2 m'.
Proof.
  unfold add_tes_constraints. intro H. inv_bind H. inv_bind H.
  exists a, a0. split; [ exact H0 | ]. split; [ exact H1 | ]. split; [ exact H | ].
  split; [ exact (flow_stage_extends _ _ H1) | exact (production_stage_extends _ _ H) ].
Qed.

Lemma soc_stage_sound (rho : Assignment) (m m' : Constraints) (year period : Z) :
  add_tes_state_of_charge_constraints cfg m = Ok m' ->
  In year (years_of cfg) ->
  In period (periods_of cfg) ->
  feasible (sets cfg) rho m' ->
  forall pt, in_sets (sets cfg) pt ->
    let here := select (at_ year period) pt in
    exists soc_previous,
      previous_soc cfg rho pt year period = Ok soc_previous
      /\ rho "tes_soc" here
         == soc_previous * item (da_sel (at_ year period) (tes_storage_efficiency cfg))
            + (rho "tes_charge" here - rho "tes_discharge" here)
              * item (param cfg "DELTA_TIME")
      /\ 0 <= rho "tes_soc" here
      /\ rho "tes_soc" here <= item (param cfg "TES_CAPACITY").
Proof.
  intros H Hyear Hperiod F pt Hpt here.
  unfold add_tes_state_of_charge_constraints in H.
  inv_bind H. rename a into fy. inv_bind H. rename a into fp.
  inv_bind H. rename a into lp. inv_bind H. rename a into mid.
  set (tes_capacity := item (param cfg "TES_CAPACITY")) in *.
  destruct (for_each_added (years_of cfg) (soc_bounds tes_capacity)
              (fun y m1 m2 _ Hy => proj1 (soc_bounds_ok tes_capacity y m1 m2 Hy))
              year mid m' Hyear H) as (b1 & b2 & _ & Hb & Hbext).
  apply soc_bounds_ok in Hb. destruct Hb as (_ & Hmax & Hmin).
  apply (extends_In b2 m' _ Hbext) in Hmax, Hmin.
  assert (Hmid : extends mid m').
  { revert H. apply for_each_extends.
    intros y m1 m2 _ Hy. now apply soc_bounds_ok in Hy. }
  destruct (for_each_added (years_of cfg) _
              (fun y m1 m2 _ =>
                 for_each_extends (periods_of cfg) _
                   (fun p m3 m4 _ => soc_dynamics_extends cfg fy fp lp _ _ _ y p m3 m4) m1 m2)
              year m mid Hyear H3) as (m1 & m2 & _ & Hinner & Hext).
  destruct (for_each_added (periods_of cfg) _
              (fun p m3 m4 _ => soc_dynamics_extends cfg fy fp lp _ _ _ year p m3 m4)
              period m1 m2 Hperiod Hinner) as (m3 & m4 & _ & Hdyn & Hext').
  unfold soc_dynamics in Hdyn. inv_bind Hdyn. rename a into prev.
  apply add_constraints_extends in Hdyn. destruct Hdyn as [_ Hin].
  apply (extends_In m4 m2 _ Hext'), (extends_In m2 mid _ Hext),
        (extends_In mid m' _ Hmid) in Hin.
  pose proof (F _ _ Hin pt Hpt) as D. cbn [compare sense lhs rhs] in D.
  pose proof (in_sets_period cfg period pt Hperiod Hpt) as Hpt'.
  pose proof (F _ _ Hmax _ Hpt') as Hle.
  pose proof (F _ _ Hmin _ Hpt') as Hge.
  cbn in Hle, Hge.
  unfold previous_soc. rewrite H0, H1, H2. cbn [bind].
  eexists. split; [ reflexivity | ].
  subst here.
  split; [ | rewrite select_at; split; [ exact Hge | exact Hle ] ].
  cbn [eval] in D. rewrite !eval_var in D. unfold scalar in D. rewrite D.
  destruct ((year =? fy)%Z && (period =? fp)%Z).
  - injection Hdyn0 as <-. cbn [eval]. unfold scalar. fold tes_capacity. ring.
  - destruct (period =? fp)%Z; apply sel_soc_ok in Hdyn0; subst prev;
      rewrite eval_var; ring.
Qed.

Lemma flow_rates_ok (Mc Md : Q) (year : Z) (m m' : Constraints) :
  flow_bounds cfg Mc Md year m = Ok m' ->
  In ("TES Maximum Charge Flow Constraint - Year " ++ show_Z year,
      {| lhs := var "tes_charge" [(years, Num year)]; sense := LessEq;
         rhs := LConst (param cfg "TES_MAX_CHARGE_RATE") |}) m'
  /\ In ("TES Maximum Discharge Flow Constraint - Year " ++ show_Z year,
         {| lhs := var "tes_discharge" [(years, Num year)]; sense := LessEq;
            rhs := LConst (param cfg "TES_MAX_DISCHARGE_RATE") |}) m'.
Proof.
  unfold flow_bounds. intro H.
  inv_bind H. rename a into m1. inv_bind H. rename a into m2.
  inv_bind H. rename a into m3. inv_bind H. rename a into m4.
  apply add_constraints_extends in H0, H1, H2, H3.
  destruct H0 as [E1 I1], H1 as [E2 I2], H2 as [E3 _], H3 as [E4 _].
  assert (E5 : extends m4 m').
  { revert H. apply for_each_extends.
    intros p x y _ Hp. now apply mode_bounds_ok in Hp. }
  assert (E25 : extends m2 m').
  { apply extends_trans with m3; [ exact E3 | ].
    apply extends_trans with m4; [ exact E4 | exact E5 ]. }
  split.
  - apply (extends_In m2 m' _ E25), (extends_In m1 m2 _ E2). exact I1.
  - apply (extends_In m2 m' _ E25). exact I2.
Qed.

Lemma flow_stage_sound (rho : Assignment) (m m' : Constraints) (year period : Z) :
  add_tes_flow_constraints cfg m = Ok m' ->
  In year (years_of cfg) ->
  In period (periods_of cfg) ->
  feasible (sets cfg) rho m' ->
  forall pt, in_sets (sets cfg) pt ->
    let here := select (at_ year period) pt in
    let bigM := item (param cfg "TES_CAPACITY") / item (param cfg "DELTA_TIME") in
    0 <= rho "tes_charge" here
    /\ 0 <= rho "tes_discharge" here
    /\ rho "tes_charge" here <= param cfg "TES_MAX_CHARGE_RATE" (assign periods (Num period) pt)
    /\ rho "tes_discharge" here
       <= param cfg "TES_MAX_DISCHARGE_RATE" (assign periods (Num period) pt)
    /\ rho "tes_charge" here <= bigM * rho "tes_mode" here
    /\ rho "tes_discharge" here <= bigM * (1 - rho "tes_mode" here).
Proof.
  intros H Hyear Hperiod F pt Hpt here bigM.
  unfold add_tes_flow_constraints in H.
  inv_bind H. inv_bind H.
  unfold py_truediv in H0, H1.
  destruct (Qeq_bool (item (param cfg "DELTA_TIME")) 0); [ discriminate | ].
  injection H0 as <-. injection H1 as <-. fold bigM in H.
  destruct (for_each_added (years_of cfg) (flow_bounds cfg bigM bigM)
              (fun y m1 m2 _ Hy => proj1 (flow_bounds_ok cfg bigM bigM y m1 m2 Hy))
              year m m' Hyear H) as (m1 & m2 & _ & Hflow & Hext).
  pose proof (flow_rates_ok bigM bigM year m1 m2 Hflow) as (Hrc & Hrd).
  apply flow_bounds_ok in Hflow. destruct Hflow as (_ & Hc0 & Hd0 & mid & _ & Hmodes).
  destruct (for_each_added (periods_of cfg) (mode_bounds bigM bigM year)
              (fun p m3 m4 _ Hp => proj1 (mode_bounds_ok bigM bigM year p m3 m4 Hp))
              period mid m2 Hperiod Hmodes) as (m3 & m4 & _ & Hmode & Hext').
  apply mode_bounds_ok in Hmode. destruct Hmode as (_ & Hcm & Hdm).
  apply (extends_In m4 m2 _ Hext'), (extends_In m2 m' _ Hext) in Hcm, Hdm.
  apply (extends_In m2 m' _ Hext) in Hc0, Hd0, Hrc, Hrd.
  pose proof (in_sets_period cfg period pt Hperiod Hpt) as Hpt'.
  pose proof (F _ _ Hcm _ Hpt) as Lc.
  pose proof (F _ _ Hdm _ Hpt) as Ld.
  pose proof (F _ _ Hc0 _ Hpt') as Gc.
  pose proof (F _ _ Hd0 _ Hpt') as Gd.
  pose proof (F _ _ Hrc _ Hpt') as Rc.
  pose proof (F _ _ Hrd _ Hpt') as Rd.
  cbn in Lc, Ld, Gc, Gd, Rc, Rd. unfold scalar in Lc, Ld, Gc, Gd.
  subst here. rewrite select_at.
  set (here := assign years (Num year) (assign periods (Num period) pt)) in *.
  repeat split; try assumption. lra.
Qed.

(** What the production constraints say at one coordinate. *)
Lemma production_stage_sound (rho : Assignment) (m m' : Constraints) :
  add_tes_production_constraints cfg m = Ok m' ->
  feasible (sets cfg) rho m' ->
  forall pt, in_sets (sets cfg) pt ->
    rho "tes_charge" pt == rho "tes_ice_production" pt
    /\ param cfg "TES_Q_PER_KG" pt * rho "tes_ice_production" pt
       == param cfg "TES_COP" pt * rho "tes_electric_consumption" pt
    /\ rho "tes_electric_consumption" pt <= rho "tes_compressor_capacity" pt
    /\ rho "tes_compressor_capacity" pt <= param cfg "TES_COMPRESSOR_CAPACITY_MAX" pt
    /\ sumQ (map (fun p => param cfg "TES_Q_PER_KG" (assign periods p pt)
                           * rho "tes_discharge" (assign periods p pt))
                 (labels_of (sets cfg) periods))
       <= sumQ (map (fun p => param cfg "TES_COP" (assign periods p pt)
                              * rho "tes_electric_consumption" (assign periods p pt))
                    (labels_of (sets cfg) periods)).
Proof.
  unfold add_tes_production_constraints. intros H F pt Hpt.
  inv_bind H. rename a into m1. inv_bind H. rename a into m2.
  inv_bind H. rename a into m3. inv_bind H. rename a into m4.
  inv_bind H. rename a into m5.
  pose proof (proj1 (add_constraints_extends _ _ _ _ H)) as E6.
  pose proof (proj1 (add_constraints_extends _ _ _ _ H4)) as E5.
  pose proof (proj1 (add_constraints_extends _ _ _ _ H3)) as E4.
  pose proof (proj1 (add_constraints_extends _ _ _ _ H2)) as E3.
  pose proof (proj1 (add_constraints_extends _ _ _ _ H1)) as E2.
  pose proof (feasible_extends _ _ _ _ E6 F) as F5.
  pose proof (feasible_extends _ _ _ _ E5 F5) as F4.
  pose proof (feasible_extends _ _ _ _ E4 F4) as F3.
  pose proof (feasible_extends _ _ _ _ E3 F3) as F2.
  pose proof (feasible_extends _ _ _ _ E2 F2) as F1.
  pose proof (feasible_added _ _ _ _ _ _ H0 F1 pt Hpt) as P1.
  pose proof (feasible_added _ _ _ _ _ _ H1 F2 pt Hpt) as P2.
  pose proof (feasible_added _ _ _ _ _ _ H3 F4 pt Hpt) as P4.
  pose proof (feasible_added _ _ _ _ _ _ H4 F5 pt Hpt) as P5.
  pose proof (feasible_added _ _ _ _ _ _ H F pt Hpt) as P6.
  split; [ exact P4 | ]. split; [ exact P1 | ]. split; [ exact P2 | ].
  split; [ exact P5 | exact P6 ].
Qed.

Lemma sumQ_le {A : Type} (f g : A -> Q) (l : list A) :
  (forall x, In x l -> f x <= g x) -> sumQ (map f l) <= sumQ (map g l).
Proof.
  induction l as [ | x l IH ]; intro H; cbn [map sumQ]; [ apply Qle_refl | ].
  apply Qplus_le_compat; [ apply H; now left | ].
  apply IH. intros y Hy. apply H. now right.
Qed.

(** X20. In the model built by [add_tes_constraints], a feasible
    assignment charges the storage with exactly the ice produced, which
    takes [Q_PER_KG / COP] of electricity per kilogram, within the
    compressor capacity and its maximum; and over the periods the cold
    discharged (discharge times [Q_PER_KG]) is at most the cold charged:
    the storage never gives back more than was put in over the same
    periods. *)
Theorem tes_discharge_covered_by_charge (m m' : Constraints) :
  add_tes_constraints cfg m = Ok m' ->
  forall rho, feasible (sets cfg) rho m' ->
  forall pt, in_sets (sets cfg) pt ->
    rho "tes_charge" pt == rho "tes_ice_production" pt
    /\ param cfg "TES_Q_PER_KG" pt * rho "tes_charge" pt
       == param cfg "TES_COP" pt * rho "tes_electric_consumption" pt
    /\ rho "tes_electric_consumption" pt <= param cfg "TES_COMPRESSOR_CAPACITY_MAX" pt
    /\ sumQ (map (fun p => param cfg "TES_Q_PER_KG" (assign periods p pt)
                           * rho "tes_discharge" (assign periods p pt))
                 (labels_of (sets cfg) periods))
       <= sumQ (map (fun p => param cfg "TES_Q_PER_KG" (assign periods p pt)
                              * rho "tes_charge" (assign periods p pt))
                    (labels_of (sets cfg) periods)).
Proof.
  intros H rho F pt Hpt.
  destruct (add_tes_constraints_stages m m' H) as (m1 & m2 & _ & _ & Hp & _ & _).
  pose proof (production_stage_sound rho m2 m' Hp F) as S.
  destruct (S pt Hpt) as (Hc & Hi & He & Hcap & Hsum).
  split; [ exact Hc | ]. split; [ rewrite Hc; exact Hi | ].
  split; [ apply Qle_trans with (rho "tes_compressor_capacity" pt); assumption | ].
  apply Qle_trans with (1 := Hsum). apply Qle_lteq. right. apply sumQ_ext_In.
  intros p Hp'.
  destruct (S (assign periods p pt) (in_sets_assign _ _ _ _ Hpt Hp'))
    as (Hc' & Hi' & _).
  rewrite Hc'. symmetry. exact Hi'.
Qed.

(** X21. In the model built by [add_tes_constraints], for every year
    and period a feasible state of charge follows the dynamics
    [soc == soc_previous * efficiency + (charge - discharge) * delta_time]
    and stays in [[0, capacity]]; charge and discharge are non-negative,
    within their maximum rates and within [M * mode] and [M * (1 - mode)]
    for [M = capacity / delta_time]. *)
Theorem tes_constraints_compose (m m' : Constraints) (year period : Z) :
  add_tes_constraints cfg m = Ok m' ->
  In year (years_of cfg) ->
  In period (periods_of cfg) ->
  forall rho, feasible (sets cfg) rho m' ->
  forall pt, in_sets (sets cfg) pt ->
    let here := select (at_ year period) pt in
    let bigM := item (param cfg "TES_CAPACITY") / item (param cfg "DELTA_TIME") in
    (exists soc_previous,
       previous_soc cfg rho pt year period = Ok soc_previous
       /\ rho "tes_soc" here
          == soc_previous * item (da_sel (at_ year period) (tes_storage_efficiency cfg))
             + (rho "tes_charge" here - rho "tes_discharge" here)
               * item (param cfg "DELTA_TIME"))
    /\ 0 <= rho "tes_soc" here <= item (param cfg "TES_CAPACITY")
    /\ 0 <= rho "tes_charge" here
       <= Qmin (param cfg "TES_MAX_CHARGE_RATE" (assign periods (Num period) pt))
               (bigM * rho "tes_mode" here)
    /\ 0 <= rho "tes_discharge" here
       <= Qmin (param cfg "TES_MAX_DISCHARGE_RATE" (assign periods (Num period) pt))
               (bigM * (1 - rho "tes_mode" here)).
Proof.
  intros H Hyear Hperiod rho F pt Hpt here bigM.
  destruct (add_tes_constraints_stages m m' H) as (m1 & m2 & Hs & Hf & _ & E1 & E2).
  pose proof (feasible_extends _ _ _ _ E2 F) as F2.
  pose proof (feasible_extends _ _ _ _ E1 F2) as F1.
  pose proof (soc_stage_sound rho m m1 year period Hs Hyear Hperiod F1 pt Hpt) as S.
  pose proof (flow_stage_sound rho m1 m2 year period Hf Hyear Hperiod F2 pt Hpt) as L.
  cbv zeta in S, L. fold here in S, L. fold bigM in L.
  destruct S as (prev & Hprev & Hdyn & Hge & Hle).
  destruct L as (Gc & Gd & Rc & Rd & Lc & Ld).
  split; [ exists prev; split; assumption | ].
  split; [ split; assumption | ].
  split; (split; [ assumption | apply Q.min_glb; assumption ]).
Qed.

(** X22. The overlap constraints keep [tes_overlap] below both the
    charge and the discharge of every year and period, and set no lower
    bound; where charge and discharge are non-negative and not both
    positive, the overlap is at most 0. *)
Theorem tes_overlap_below_both_flows (m m' : Constraints) (year period : Z) :
  add_tes_overlap_constraints cfg m = Ok m' ->
  In year (years_of cfg) ->
  In period (periods_of cfg) ->
  forall rho, feasible (sets cfg) rho m' ->
  forall pt, in_sets (sets cfg) pt ->
    let here := select (at_ year period) pt in
    rho "tes_overlap" here <= Qmin (rho "tes_charge" here) (rho "tes_discharge" here)
    /\ (0 <= rho "tes_charge" here -> 0 <= rho "tes_discharge" here ->
        rho "tes_charge" here * rho "tes_discharge" here == 0 ->
        rho "tes_overlap" here <= 0).
Proof.
  intros H Hyear Hperiod rho F pt Hpt here.
  unfold add_tes_overlap_constraints in H.
  assert (Hob : forall y p m1 m2, overlap_bounds y p m1 = Ok m2 -> extends m1 m2).
  { intros y p m1 m2 Hb. unfold overlap_bounds in Hb. inv_bind Hb.
    apply add_constraints_extends in Hb0, Hb.
    apply extends_trans with a; tauto. }
  destruct (for_each_added (years_of cfg) _
              (fun y m1 m2 _ =>
                 for_each_extends (periods_of cfg) _
                   (fun p m3 m4 _ => Hob y p m3 m4) m1 m2)
              year m m' Hyear H) as (m1 & m2 & _ & Hinner & Hext).
  destruct (for_each_added (periods_of cfg) _
              (fun p m3 m4 _ => Hob year p m3 m4)
              period m1 m2 Hperiod Hinner) as (m3 & m4 & _ & Hb & Hext').
  assert (F4 : feasible (sets cfg) rho m4).
  { apply (feasible_extends _ _ m4 m'); [ | exact F ].
    apply extends_trans with m2; assumption. }
  unfold overlap_bounds in Hb. inv_bind Hb.
  pose proof (proj1 (add_constraints_extends _ _ _ _ Hb)) as Ea.
  pose proof (feasible_added _ _ _ _ _ _ Hb0 (feasible_extends _ _ _ _ Ea F4) pt Hpt) as Pc.
  pose proof (feasible_added _ _ _ _ _ _ Hb F4 pt Hpt) as Pd.
  cbn [compare sense lhs rhs] in Pc, Pd. rewrite !eval_var in Pc, Pd.
  fold here in Pc, Pd.
  split; [ apply Q.min_glb; assumption | ].
  intros Gc Gd Hx.
  destruct (Qlt_le_dec 0 (rho "tes_charge" here)) as [Hpos | Hnon]; [ | lra ].
  destruct (Qlt_le_dec 0 (rho "tes_discharge" here)) as [Hpos' | Hnon']; [ | lra ].
  exfalso. assert (0 < rho "tes_charge" here * rho "tes_discharge" here)
    by (apply Qmult_lt_0_compat; assumption).
  lra.
Qed.

(** X23. The state-of-charge constraints read [years[0]], [periods[0]]
    and [periods[-1]] first: without years or without periods they raise
    [IndexError], and so does [add_tes_constraints]. *)
Theorem tes_needs_years_and_periods (m : Constraints) :
  years_of cfg = [] \/ periods_of cfg = [] ->
  add_tes_state_of_charge_constraints cfg m = Raise IndexError
  /\ add_tes_constraints cfg m = Raise IndexError.
Proof.
  intro H.
  assert (E : add_tes_state_of_charge_constraints cfg m = Raise IndexError).
  { unfold add_tes_state_of_charge_constraints.
    destruct H as [H | H].
    - rewrite H. reflexivity.
    - destruct (years_of cfg) as [ | y ys ]; [ reflexivity | ].
      rewrite H. reflexivity. }
  split; [ exact E | ]. unfold add_tes_constraints. now rewrite E.
Qed.

(** X24. The dynamics refer to the labels [year - 1] and [period - 1]:
    the state-of-charge constraints are built only if every year but the
    first has its predecessor among the years and every period but the
    first has its predecessor among the periods. *)
Theorem tes_soc_needs_consecutive_labels (m m' : Constraints) :
  add_tes_state_of_charge_constraints cfg m = Ok m' ->
  exists first_year first_period,
    py_index (years_of cfg) 0 = Ok first_year
    /\ py_index (periods_of cfg) 0 = Ok first_period
    /\ (forall year, In year (years_of cfg) -> year <> first_year ->
          In (year - 1)%Z (years_of cfg))
    /\ (forall period, In period (periods_of cfg) -> period <> first_period ->
          In (period - 1)%Z (periods_of cfg)).
Proof.
  intro H. unfold add_tes_state_of_charge_constraints in H.
  inv_bind H. rename a into fy. inv_bind H. rename a into fp.
  inv_bind H. rename a into lp. inv_bind H. rename a into mid.
  exists fy, fp. split; [ exact H0 | ]. split; [ exact H1 | ].
  assert (Hfp : In fp (periods_of cfg)).
  { unfold py_index in H1. cbn in H1.
    destruct (periods_of cfg) as [ | p ps ]; [ discriminate | ].
    cbn in H1. injection H1 as <-. now left. }
  assert (Hfy : In fy (years_of cfg)).
  { unfold py_index in H0. cbn in H0.
    destruct (years_of cfg) as [ | y ys ]; [ discriminate | ].
    cbn in H0. injection H0 as <-. now left. }
  assert (Hbody : forall year period,
             In year (years_of cfg) -> In period (periods_of cfg) ->
             exists m3 m4,
               soc_dynamics cfg fy fp lp (item (param cfg "DELTA_TIME"))
                            (item (param cfg "TES_CAPACITY"))
                            (item (param cfg "TES_INITIAL_SOC")) year period m3 = Ok m4).
  { intros year period Hy Hp.
    destruct (for_each_added (years_of cfg) _
                (fun y m1 m2 _ =>
                   for_each_extends (periods_of cfg) _
                     (fun p m3 m4 _ => soc_dynamics_extends cfg fy fp lp _ _ _ y p m3 m4)
                     m1 m2)
                year m mid Hy H3) as (m1 & m2 & _ & Hinner & _).
    destruct (for_each_added (periods_of cfg) _
                (fun p m3 m4 _ => soc_dynamics_extends cfg fy fp lp _ _ _ year p m3 m4)
                period m1 m2 Hp Hinner) as (m3 & m4 & _ & Hdyn & _).
    now exists m3, m4. }
  assert (Hsel : forall y p e, sel_soc cfg y p = Ok e ->
                               In y (years_of cfg) /\ In p (periods_of cfg)).
  { intros y p e Hs. unfold sel_soc in Hs.
    destruct (existsb (Z.eqb y) (years_of cfg)) eqn:Ey; [ | discriminate ].
    destruct (existsb (Z.eqb p) (periods_of cfg)) eqn:Ep; [ | discriminate ].
    apply existsb_exists in Ey, Ep.
    destruct Ey as (y' & Hy' & Ey), Ep as (p' & Hp' & Ep).
    apply Z.eqb_eq in Ey, Ep. subst. now split. }
  split.
  - intros year Hy Hne.
    destruct (Hbody year fp Hy Hfp) as (m3 & m4 & Hdyn).
    unfold soc_dynamics in Hdyn. inv_bind Hdyn.
    assert (E : (year =? fy)%Z = false) by (apply Z.eqb_neq; exact Hne).
    rewrite E, Z.eqb_refl in Hdyn0. cbn [andb] in Hdyn0.
    exact (proj1 (Hsel _ _ _ Hdyn0)).
  - intros period Hp Hne.
    destruct (Hbody fy period Hfy Hp) as (m3 & m4 & Hdyn).
    unfold soc_dynamics in Hdyn. inv_bind Hdyn.
    assert (E : (period =? fp)%Z = false) by (apply Z.eqb_neq; exact Hne).
    rewrite E, andb_false_r in Hdyn0.
    exact (proj2 (Hsel _ _ _ Hdyn0)).
Qed.

(** X25. With a time step [DELTA_TIME] of zero the big-M of the flow
    constraints divides by zero: [add_tes_flow_constraints] raises
    [ZeroDivisionError], and [add_tes_constraints] never returns a model. *)
Theorem tes_needs_positive_time_step (m : Constraints) :
  item (param cfg "DELTA_TIME") == 0 ->
  add_tes_flow_constraints cfg m = Raise ZeroDivisionError
  /\ forall m0 m', add_tes_constraints cfg m0 <> Ok m'.
Proof.
  intro Hz.
  assert (E : forall m1, add_tes_flow_constraints cfg m1 = Raise ZeroDivisionError).
  { intro m1. unfold add_tes_flow_constraints, py_truediv.
    apply Qeq_bool_iff in Hz. now rewrite Hz. }
  split; [ apply E | ].
  intros m0 m' H. destruct (add_tes_constraints_stages m0 m' H) as (m1 & m2 & _ & Hf & _).
  rewrite E in Hf. discriminate Hf.
Qed.

End TESBounds.

Section TESBoundsExamples.
Import Project TES Examples.
Local Open Scope string_scope.

Lemma ex_tes_model_built : add_tes_constraints ex_cfg [] = Ok ex_tes_model.
Proof. vm_compute. reflexivity. Qed.

Lemma ex_tes_overlap_model_built :
  add_tes_overlap_constraints ex_cfg [] = Ok ex_tes_overlap_model.
Proof. vm_compute. reflexivity. Qed.

Lemma ex_tes_running_feasible :
  feasible (sets ex_cfg) ex_tes_running ex_tes_model.
Proof. check_feasible. Qed.

Lemma ex_tes_overlap_feasible :
  feasible (sets ex_cfg) ex_tes_running ex_tes_overlap_model.
Proof. check_feasible. Qed.

Lemma ex_diesel : In "Diesel" ["Diesel"].
Proof. now left. Qed.

Lemma tes_discharge_covered_by_charge_witness :
  sumQ (map (fun p => param ex_cfg "TES_Q_PER_KG" (assign periods p ex_point)
                      * ex_tes_running "tes_discharge" (assign periods p ex_point))
            (labels_of (sets ex_cfg) periods))
  <= sumQ (map (fun p => param ex_cfg "TES_Q_PER_KG" (assign periods p ex_point)
                         * ex_tes_running "tes_charge" (assign periods p ex_point))
               (labels_of (sets ex_cfg) periods)).
Proof.
  exact (proj2 (proj2 (proj2
           (tes_discharge_covered_by_charge ex_cfg [] ex_tes_model ex_tes_model_built
              ex_tes_running ex_tes_running_feasible ex_point
              (ex_point_in_sets ["Diesel"] ex_diesel))))).
Defined.

(** Year 1 starts from the last period of year 0. *)
Lemma tes_constraints_compose_witness :
  exists soc_previous,
    Ok (ex_tes_running "tes_soc" (select (at_ 0 2) ex_point)) = Ok soc_previous
    /\ ex_tes_running "tes_soc" (select (at_ 1 0) ex_point)
       == soc_previous * (99 # 100)
          + (ex_tes_running "tes_charge" (select (at_ 1 0) ex_point)
             - ex_tes_running "tes_discharge" (select (at_ 1 0) ex_point)) * 1.
Proof.
  assert (Hy : In 1%Z (years_of ex_cfg)) by (cbn; right; now left).
  assert (Hp : In 0%Z (periods_of ex_cfg)) by (cbn; now left).
  pose proof (tes_constraints_compose ex_cfg [] ex_tes_model 1 0 ex_tes_model_built Hy Hp
                ex_tes_running ex_tes_running_feasible ex_point
                (ex_point_in_sets ["Diesel"] ex_diesel)) as H.
  cbv zeta in H. exact (proj1 H).
Defined.

Lemma tes_overlap_below_both_flows_witness :
  ex_tes_running "tes_overlap" (select (at_ 2 1) ex_point)
  <= Qmin (ex_tes_running "tes_charge" (select (at_ 2 1) ex_point))
          (ex_tes_running "tes_discharge" (select (at_ 2 1) ex_point)).
Proof.
  assert (Hy : In 2%Z (years_of ex_cfg)) by (cbn; tauto).
  assert (Hp : In 1%Z (periods_of ex_cfg)) by (cbn; tauto).
  pose proof (tes_overlap_below_both_flows ex_cfg [] ex_tes_overlap_model 2 1
                ex_tes_overlap_model_built Hy Hp
                ex_tes_running ex_tes_overlap_feasible ex_point
                (ex_point_in_sets ["Diesel"] ex_diesel)) as H.
  cbv zeta in H. exact (proj1 H).
Defined.

Lemma tes_needs_years_and_periods_witness :
  add_tes_constraints ex_cfg_no_periods [] = Raise IndexError.
Proof.
  exact (proj2 (tes_needs_years_and_periods ex_cfg_no_periods [] (or_intror eq_refl))).
Defined.

Lemma tes_soc_needs_consecutive_labels_witness :
  In (3 - 1)%Z (years_of ex_cfg) /\ In (2 - 1)%Z (periods_of ex_cfg).
Proof.
  destruct (tes_soc_needs_consecutive_labels ex_cfg [] ex_tes_soc_model
              ex_tes_soc_model_built) as (fy & fp & Hfy & Hfp & Hy & Hp).
  injection Hfy as <-. injection Hfp as <-. split.
  - apply Hy; [ cbn; tauto | discriminate ].
  - apply Hp; [ cbn; tauto | discriminate ].
Defined.

Lemma tes_needs_positive_time_step_witness :
  add_tes_flow_constraints ex_cfg_no_delta [] = Raise ZeroDivisionError.
Proof.
  exact (proj1 (tes_needs_positive_time_step ex_cfg_no_delta [] ltac:(reflexivity))).
Defined.

End TESBoundsExamples.

(* ------------------------------------------------------------------ *)
(** ** Installation emissions *)

Lemma sumQ_sub {A : Type} (f g : A -> Q) (l : list A) :
  Linopy.sumQ (map (fun x => f x - g x) l)
  == Linopy.sumQ (map f l) - Linopy.sumQ (map g l).
Proof.
  induction l as [ | x l IH ]; cbn [map Linopy.sumQ]; [ ring | ].
  rewrite IH. ring.
Qed.

Section EmissionProps.
Import Project Emissions.
Local Open Scope string_scope.

Variable cfg : Config.
Variable national_grid_specific_co2_emissions : Q.
Variable var_dims : string -> list dim.

(** The term that a step adds to the emissions. *)
Lemma eval_increment (rho : Assignment) (pt : coord) (units capacity factor : string)
      (technology : option dim) (step previous : Z) :
  eval rho (sum_over cfg technology
              (LScale (param cfg factor)
                 (LScale (param cfg capacity)
                    (LSub (var units [(steps, Num step)])
                          (var units [(steps, Num previous)]))))) pt
  == emissions_of_units cfg rho pt units capacity factor technology step
     - emissions_of_units cfg rho pt units capacity factor technology previous.
Proof.
  unfold emissions_of_units, sum_over. destruct technology as [ d | ].
  - cbn [eval]. rewrite <- sumQ_sub. apply sumQ_ext. intro l. ring.
  - cbn [eval]. ring.
Qed.

(** The labels [first, first + 1, ...]. *)
Lemma consecutive_In (first : Z) (n : nat) (s : Z) :
  (first <= s < first + Z.of_nat n)%Z ->
  In s (map (fun k => (first + Z.of_nat k)%Z) (seq 0 n)).
Proof.
  intro H. apply in_map_iff. exists (Z.to_nat (s - first)). split; [ lia | ].
  apply in_seq. lia.
Qed.

(** From the second step on, every step adds the emissions of its units
    and takes back those of the step before. *)
Lemma later_steps_telescope (units capacity factor : string) (technology : option dim)
      (n : nat) :
  steps_of cfg = map (fun k => (1 + Z.of_nat k)%Z) (seq 0 n) ->
  forall r j e0,
    (1 <= j)%nat -> (j + r <= n)%nat ->
    exists e,
      for_each (map (fun k => (1 + Z.of_nat k)%Z) (seq j r))
        (fun step emissions =>
           delta <- delta_units cfg units step ;;
           Ok (LAdd emissions
                    (sum_over cfg technology
                       (LScale (param cfg factor) (LScale (param cfg capacity) delta)))))
        e0 = Ok e
      /\ forall rho pt,
           eval rho e pt
           == eval rho e0 pt
              + emissions_of_units cfg rho pt units capacity factor technology
                                   (Z.of_nat (j + r))
              - emissions_of_units cfg rho pt units capacity factor technology
                                   (Z.of_nat j).
Proof.
  intros Hsteps r. induction r as [ | r IH ]; intros j e0 Hj Hn.
  - exists e0. split; [ reflexivity | ]. intros rho pt.
    rewrite Nat.add_0_r. ring.
  - cbn [seq map for_each].
    assert (Hd : delta_units cfg units (1 + Z.of_nat j)
                 = Ok (LSub (var units [(steps, Num (1 + Z.of_nat j))])
                            (var units [(steps, Num (Z.of_nat j))]))).
    { unfold delta_units.
      destruct (1 + Z.of_nat j =? 1)%Z eqn:E; [ apply Z.eqb_eq in E; lia | ].
      unfold sel_step. replace (1 + Z.of_nat j - 1)%Z with (Z.of_nat j) by lia.
      assert (Hin : existsb (Z.eqb (Z.of_nat j)) (steps_of cfg) = true).
      { apply existsb_exists. exists (Z.of_nat j). split; [ | apply Z.eqb_refl ].
        rewrite Hsteps. apply consecutive_In. lia. }
      rewrite Hin. reflexivity. }
    rewrite Hd. cbn [bind].
    destruct (IH (S j)
                (LAdd e0
                   (sum_over cfg technology
                      (LScale (param cfg factor)
                         (LScale (param cfg capacity)
                            (LSub (var units [(steps, Num (1 + Z.of_nat j))])
                                  (var units [(steps, Num (Z.of_nat j))]))))))
                ltac:(lia) ltac:(lia)) as (e & He & Hv).
    exists e. split; [ exact He | ]. intros rho pt.
    rewrite Hv. cbn [eval]. rewrite eval_increment.
    replace (S j + r)%nat with (j + S r)%nat by lia.
    replace (Z.of_nat (S j)) with (1 + Z.of_nat j)%Z by lia. ring.
Qed.

(** With the steps labelled [1, ..., n], the emissions of the
    installations are those of the units present at the last step. *)
Lemma installation_emissions_telescope (units capacity factor : string)
      (technology : option dim) (n : nat) :
  steps_of cfg = map (fun k => (1 + Z.of_nat k)%Z) (seq 0 (S n)) ->
  exists e,
    installation_emissions cfg units capacity factor technology = Ok e
    /\ forall rho pt,
         eval rho e pt
         == emissions_of_units cfg rho pt units capacity factor technology
                               (Z.of_nat (S n)).
Proof.
  intro Hsteps.
  destruct (later_steps_telescope units capacity factor technology (S n) Hsteps
              n 1%nat
              (LAdd (LConst (scalar 0))
                 (sum_over cfg technology
                    (LScale (param cfg factor)
                       (LScale (param cfg capacity) (var units [(steps, Num 1)])))))
              ltac:(lia) ltac:(lia)) as (e & He & Hv).
  exists e. split.
  - unfold installation_emissions. rewrite Hsteps.
    cbn [seq map for_each]. exact He.
  - intros rho pt. rewrite Hv.
    cbn [eval]. unfold emissions_of_units, scalar.
    replace (Z.of_nat (1 + n)) with (Z.of_nat (S n)) by reflexivity.
    change (Z.of_nat 1) with 1%Z. ring.
Qed.

Lemma add_res_emissions_extends (m m' : Constraints) :
  add_res_emissions_constraints cfg m = Ok m' -> extends m m'.
Proof.
  unfold add_res_emissions_constraints. intro H. inv_bind H.
  now apply add_constraints_extends in H.
Qed.

Lemma add_battery_emissions_extends (m m' : Constraints) :
  add_battery_emissions_constraints cfg m = Ok m' -> extends m m'.
Proof.
  unfold add_battery_emissions_constraints. intro H. inv_bind H.
  now apply add_constraints_extends in H.
Qed.

Lemma add_generator_emissions_extends (m m' : Constraints) :
  add_generator_emissions_constraints cfg m = Ok m' -> extends m m'.
Proof.
  unfold add_generator_emissions_constraints. intro H. inv_bind H. inv_bind H.
  apply add_constraints_extends in H1, H. apply extends_trans with a0; tauto.
Qed.

Lemma add_grid_emission_extends (m m' : Constraints) :
  add_grid_emission_constraints cfg national_grid_specific_co2_emissions m = Ok m' ->
  extends m m'.
Proof.
  unfold add_grid_emission_constraints. intro H. inv_bind H.
  apply add_constraints_extends in H0, H. apply extends_trans with a; tauto.
Qed.

(** The stages of [add_project_emissions]. *)
Lemma add_project_emissions_stages
      (has_battery has_generator has_grid_connection : bool) (m m' : Constraints) :
  add_project_emissions cfg national_grid_specific_co2_emissions var_dims
                        has_battery has_generator has_grid_connection m = Ok m' ->
  exists m1 m2 m3,
    add_res_emissions_constraints cfg m = Ok m1
    /\ (if has_battery then add_battery_emissions_constraints cfg m1 else Ok m1) = Ok m2
    /\ (if has_generator then add_generator_emissions_constraints cfg m2 else Ok m2) = Ok m3
    /\ extends m1 m2 /\ extends m2 m3 /\ extends m3 m'.
Proof.
  unfold add_project_emissions. intro H.
  inv_bind H. rename a into m1. inv_bind H. destruct a as [m2 t2].
  inv_bind H. destruct a as [m3 t3]. inv_bind H. destruct a as [m4 t4].
  inv_bind H. rename a into m5.
  assert (S2 : (if has_battery then add_battery_emissions_constraints cfg m1 else Ok m1)
               = Ok m2).
  { destruct has_battery.
    - apply bind_ok in H1. destruct H1 as (mb & Hb & H1).
      injection H1 as <- _. exact Hb.
    - injection H1 as <- _. reflexivity. }
  assert (S3 : (if has_generator then add_generator_emissions_constraints cfg m2 else Ok m2)
               = Ok m3).
  { destruct has_generator.
    - apply bind_ok in H2. destruct H2 as (mb & Hb & H2).
      injection H2 as <- _. exact Hb.
    - injection H2 as <- _. reflexivity. }
  assert (E4 : extends m3 m4).
  { destruct has_grid_connection.
    - apply bind_ok in H3. destruct H3 as (mb & Hb & H3).
      injection H3 as <- _. exact (add_grid_emission_extends _ _ Hb).
    - injection H3 as <- _. apply extends_refl. }
  exists m1, m2, m3. split; [ exact H0 | ]. split; [ exact S2 | ]. split; [ exact S3 | ].
  split; [ | split ].
  - destruct has_battery.
    + exact (add_battery_emissions_extends _ _ S2).
    + injection S2 as <-. apply extends_refl.
  - destruct has_generator.
    + exact (add_generator_emissions_extends _ _ S3).
    + injection S3 as <-. apply extends_refl.
  - apply add_constraints_extends in H4, H.
    apply extends_trans with m4; [ exact E4 | ].
    apply extends_trans with m5; tauto.
Qed.

(** X27. With the investment steps labelled [1, ..., n], in the model
    built by [add_project_emissions] the installation emissions summed over
    the steps equal [units * nominal capacity * unit emission] of the units
    present at the last step, for the renewable sources and, where present,
    the battery and the generators: the step-to-step increases telescope. *)
Theorem installation_emissions_follow_final_units
        (has_battery has_generator has_grid_connection : bool) (m m' : Constraints)
        (n : nat) :
  steps_of cfg = map (fun k => (1 + Z.of_nat k)%Z) (seq 0 (S n)) ->
  add_project_emissions cfg national_grid_specific_co2_emissions var_dims
                        has_battery has_generator has_grid_connection m = Ok m' ->
  forall rho, feasible (sets cfg) rho m' ->
  forall pt, in_sets (sets cfg) pt ->
    let over_steps name :=
      sumQ (map (fun s => rho name (assign steps s pt)) (labels_of (sets cfg) steps)) in
    over_steps "res_emission"
    == emissions_of_units cfg rho pt "res_units" "RES_NOMINAL_CAPACITY"
                          "RES_UNIT_CO2_EMISSION" (Some renewable_sources)
                          (Z.of_nat (S n))
    /\ (has_battery = true ->
        over_steps "battery_emission"
        == emissions_of_units cfg rho pt "battery_units" "BATTERY_NOMINAL_CAPACITY"
                              "BATTERY_UNIT_CO2_EMISSION" None (Z.of_nat (S n)))
    /\ (has_generator = true ->
        over_steps "gen_emission"
        == emissions_of_units cfg rho pt "generator_units" "GENERATOR_NOMINAL_CAPACITY"
                              "GENERATOR_UNIT_CO2_EMISSION" (Some generator_types)
                              (Z.of_nat (S n))
        /\ rho "fuel_emission" pt
           == param cfg "FUEL_CO2_EMISSION" pt * rho "generator_fuel_consumption" pt).
Proof.
  intros Hsteps H rho F pt Hpt over_steps.
  destruct (add_project_emissions_stages _ _ _ m m' H)
    as (m1 & m2 & m3 & S1 & S2 & S3 & E12 & E23 & E3).
  pose proof (feasible_extends _ _ _ _ E3 F) as F3.
  pose proof (feasible_extends _ _ _ _ E23 F3) as F2.
  pose proof (feasible_extends _ _ _ _ E12 F2) as F1.
  split; [ | split ].
  - unfold add_res_emissions_constraints in S1.
    destruct (installation_emissions_telescope "res_units" "RES_NOMINAL_CAPACITY"
                "RES_UNIT_CO2_EMISSION" (Some renewable_sources) n Hsteps)
      as (e & He & Hv).
    rewrite He in S1. cbn [bind] in S1.
    pose proof (feasible_added _ _ _ _ _ _ S1 F1 pt Hpt) as P.
    cbn [compare sense lhs rhs] in P. rewrite Hv in P. exact P.
  - intro Hb. rewrite Hb in S2. unfold add_battery_emissions_constraints in S2.
    destruct (installation_emissions_telescope "battery_units" "BATTERY_NOMINAL_CAPACITY"
                "BATTERY_UNIT_CO2_EMISSION" None n Hsteps) as (e & He & Hv).
    rewrite He in S2. cbn [bind] in S2.
    pose proof (feasible_added _ _ _ _ _ _ S2 F2 pt Hpt) as P.
    cbn [compare sense lhs rhs] in P. rewrite Hv in P. exact P.
  - intro Hg. rewrite Hg in S3. unfold add_generator_emissions_constraints in S3.
    destruct (installation_emissions_telescope "generator_units"
                "GENERATOR_NOMINAL_CAPACITY" "GENERATOR_UNIT_CO2_EMISSION"
                (Some generator_types) n Hsteps) as (e & He & Hv).
    rewrite He in S3. cbn [bind] in S3. inv_bind S3.
    pose proof (proj1 (add_constraints_extends _ _ _ _ S3)) as Ea.
    pose proof (feasible_added _ _ _ _ _ _ S0 (feasible_extends _ _ _ _ Ea F3) pt Hpt) as P.
    pose proof (feasible_added _ _ _ _ _ _ S3 F3 pt Hpt) as P'.
    cbn [compare sense lhs rhs] in P. rewrite Hv in P.
    split; [ exact P | exact P' ].
Qed.

(** X28. The increase of the first step is taken against the step
    labelled [first - 1] unless the first step is labelled 1: with steps
    that start at another label whose predecessor is not a step (steps
    counted from 0, say), the emissions constraints raise [KeyError] and
    [add_project_emissions] adds nothing. *)
Theorem emissions_need_steps_from_one
        (has_battery has_generator has_grid_connection : bool) (m : Constraints)
        (first : Z) (rest : list Z) :
  steps_of cfg = first :: rest ->
  first <> 1%Z ->
  ~ In (first - 1)%Z (steps_of cfg) ->
  (forall units capacity factor technology,
     installation_emissions cfg units capacity factor technology = Raise KeyError)
  /\ add_project_emissions cfg national_grid_specific_co2_emissions var_dims
                           has_battery has_generator has_grid_connection m
     = Raise KeyError.
Proof.
  intros Hsteps Hne Hno.
  assert (E : forall units capacity factor technology,
             installation_emissions cfg units capacity factor technology = Raise KeyError).
  { intros units capacity factor technology.
    unfold installation_emissions. rewrite Hsteps at 1. cbn [for_each].
    unfold delta_units at 1.
    destruct (first =? 1)%Z eqn:E1; [ apply Z.eqb_eq in E1; contradiction | ].
    unfold sel_step.
    destruct (existsb (Z.eqb (first - 1)) (steps_of cfg)) eqn:E2; [ | reflexivity ].
    exfalso. apply Hno. apply existsb_exists in E2. destruct E2 as (x & Hx & Hxe).
    apply Z.eqb_eq in Hxe. now subst x. }
  split; [ exact E | ].
  unfold add_project_emissions, add_res_emissions_constraints. now rewrite E.
Qed.

End EmissionProps.

(* ------------------------------------------------------------------ *)
(** ** Grid exchange and compressor *)

Section GridProps.
Import Project Grid.
Local Open Scope string_scope.

Variable cfg : Config.
Variable year_grid_connection : Z.
Variable maximum_grid_power : Q.

Lemma power_from_grid_year_extends (year : Z) (m m' : Constraints) :
  power_from_grid_year cfg year_grid_connection maximum_grid_power year m = Ok m' ->
  extends m m'.
Proof.
  unfold power_from_grid_year.
  destruct (year_grid_connection <=? year)%Z; [ destruct (milp_formulation cfg) | ];
    intro H; now apply add_constraints_extends in H.
Qed.

Lemma power_to_grid_year_extends (year : Z) (m m' : Constraints) :
  power_to_grid_year cfg year_grid_connection maximum_grid_power year m = Ok m' ->
  extends m m'.
Proof.
  unfold power_to_grid_year.
  destruct (year_grid_connection <=? year)%Z; [ destruct (milp_formulation cfg) | ];
    intro H; now apply add_constraints_extends in H.
Qed.

(** X29. In the model built by [add_grid_constraints], a feasible
    assignment imports nothing before the year of grid connection (and
    exports nothing, where export is enabled); from that year on imports
    and exports are at most [availability * maximum power], and under the
    MILP formulation with export enabled they are scaled by the flag
    [single_flow_grid] and its complement, so that with a flag of 0 or 1
    and non-negative availability and power, import and export are not both
    positive. *)
Theorem grid_exchange_limits (m m' : Constraints) (year : Z) :
  add_grid_constraints cfg year_grid_connection maximum_grid_power m = Ok m' ->
  In year (years_of cfg) ->
  forall rho, feasible (sets cfg) rho m' ->
  forall pt, in_sets (sets cfg) pt ->
    let here := assign years (Num year) pt in
    let limit := maximum_grid_power * param cfg "GRID_AVAILABILITY" here in
    let sells := (grid_connection_type cfg =? 1)%Z in
    ((year < year_grid_connection)%Z ->
     rho "energy_from_grid" here == 0
     /\ (sells = true -> rho "energy_to_grid" here == 0))
    /\ ((year_grid_connection <= year)%Z -> milp_formulation cfg = false ->
        rho "energy_from_grid" here <= limit
        /\ (sells = true -> rho "energy_to_grid" here <= limit))
    /\ ((year_grid_connection <= year)%Z -> milp_formulation cfg = true ->
        rho "energy_from_grid" here <= limit * rho "single_flow_grid" here
        /\ (sells = true ->
            rho "energy_to_grid" here <= limit * (1 - rho "single_flow_grid" here)
            /\ (rho "single_flow_grid" here == 0 \/ rho "single_flow_grid" here == 1 ->
                ~ (0 < rho "energy_from_grid" here /\ 0 < rho "energy_to_grid" here)))).
Proof.
  intros H Hyear rho F pt Hpt here limit sells.
  unfold add_grid_constraints in H. inv_bind H. rename a into m1.
  assert (E1 : extends m1 m').
  { destruct (grid_connection_type cfg =? 1)%Z.
    - revert H. apply for_each_extends. intros y x x' _. apply power_to_grid_year_extends.
    - injection H as <-. apply extends_refl. }
  unfold add_maximum_power_from_grid_constraint in H0.
  destruct (for_each_added (years_of cfg) _
              (fun y x x' _ => power_from_grid_year_extends y x x')
              year m m1 Hyear H0) as (ma & mb & _ & Hfrom & Eb).
  assert (Fb : feasible (sets cfg) rho mb).
  { apply (feasible_extends _ _ mb m'); [ | exact F ].
    apply extends_trans with m1; assumption. }
  assert (Hto : sells = true ->
                exists mc md,
                  power_to_grid_year cfg year_grid_connection maximum_grid_power year mc
                  = Ok md
                  /\ feasible (sets cfg) rho md).
  { intro Hs. subst sells. rewrite Hs in H.
    unfold add_maximum_power_to_grid_constraint in H.
    destruct (for_each_added (years_of cfg) _
                (fun y x x' _ => power_to_grid_year_extends y x x')
                year m1 m' Hyear H) as (mc & md & _ & Hto & Ed).
    exists mc, md. split; [ exact Hto | ]. exact (feasible_extends _ _ _ _ Ed F). }
  unfold power_from_grid_year in Hfrom. unfold power_to_grid_year in Hto.
  split; [ | split ].
  - intro Hbefore.
    assert (Eb' : (year_grid_connection <=? year)%Z = false) by (apply Z.leb_gt; lia).
    rewrite Eb' in Hfrom, Hto.
    split.
    + exact (feasible_added _ _ _ _ _ _ Hfrom Fb pt Hpt).
    + intro Hs. destruct (Hto Hs) as (mc & md & Hadd & Fd).
      exact (feasible_added _ _ _ _ _ _ Hadd Fd pt Hpt).
  - intros Hafter Hlp.
    assert (Ea : (year_grid_connection <=? year)%Z = true) by (apply Z.leb_le; lia).
    rewrite Ea, Hlp in Hfrom, Hto.
    assert (Hl : da_mul (availability cfg year) (scalar maximum_grid_power) pt == limit).
    { subst limit here. unfold da_mul, availability, par, da_sel, scalar.
      cbn [select]. ring. }
    split.
    + pose proof (feasible_added _ _ _ _ _ _ Hfrom Fb pt Hpt) as P.
      cbn [compare sense lhs rhs eval] in P. rewrite Hl in P. exact P.
    + intro Hs. destruct (Hto Hs) as (mc & md & Hadd & Fd).
      pose proof (feasible_added _ _ _ _ _ _ Hadd Fd pt Hpt) as P.
      cbn [compare sense lhs rhs eval] in P. rewrite Hl in P. exact P.
  - intros Hafter Hmilp.
    assert (Ea : (year_grid_connection <=? year)%Z = true) by (apply Z.leb_le; lia).
    rewrite Ea, Hmilp in Hfrom, Hto.
    pose proof (feasible_added _ _ _ _ _ _ Hfrom Fb pt Hpt) as P.
    cbn [compare sense lhs rhs eval] in P. rewrite !eval_var in P.
    unfold availability, par, da_sel, scalar in P. cbn [select] in P. fold here in P.
    assert (P1 : rho "energy_from_grid" here <= limit * rho "single_flow_grid" here).
    { unfold limit. rewrite <- Qmult_assoc. exact P. }
    split; [ exact P1 | ].
    intro Hs. destruct (Hto Hs) as (mc & md & Hadd & Fd).
    pose proof (feasible_added _ _ _ _ _ _ Hadd Fd pt Hpt) as P'.
    cbn [compare sense lhs rhs eval] in P'. rewrite !eval_var in P'.
    unfold availability, par, da_sel, scalar in P'. cbn [select] in P'. fold here in P'.
    assert (P2 : rho "energy_to_grid" here <= limit * (1 - rho "single_flow_grid" here)).
    { unfold limit. rewrite <- Qmult_assoc. exact P'. }
    split; [ exact P2 | ].
    intros [Hf | Hf] [Hpos Hpos']; rewrite Hf in P1, P2; lra.
Qed.

End GridProps.

Section CompressorProps.
Import Project Compressor.
Local Open Scope string_scope.

Variable cfg : Config.

(** X30. With the compressor enabled, in the model built by
    [add_compressor_constraints] the cooling output is [COP_DIRECT] times
    the electric consumption at every coordinate, and in every year it is
    at most the installed capacity; so the consumption of a year times the
    COP fits the capacity. *)
Theorem compressor_output_within_capacity (m m' : Constraints) (year : Z) :
  add_compressor_constraints cfg true m = Ok m' ->
  In year (years_of cfg) ->
  forall rho, feasible (sets cfg) rho m' ->
  forall pt, in_sets (sets cfg) pt ->
    let here := assign years (Num year) pt in
    rho "compressor_cooling_output" here
    == param cfg "COP_DIRECT" here * rho "compressor_electric_consumption" here
    /\ rho "compressor_cooling_output" here <= rho "compressor_capacity" pt
    /\ param cfg "COP_DIRECT" here * rho "compressor_electric_consumption" here
       <= rho "compressor_capacity" pt.
Proof.
  intros H Hyear rho F pt Hpt here.
  unfold add_compressor_constraints in H. cbn [negb] in H. inv_bind H.
  assert (Hcy : forall y x x', capacity_year y x = Ok x' -> extends x x').
  { intros y x x' Hy. unfold capacity_year in Hy.
    now apply add_constraints_extends in Hy. }
  pose proof (for_each_extends (years_of cfg) capacity_year
                (fun y x x' _ => Hcy y x x') a m' H) as E.
  destruct (for_each_added (years_of cfg) capacity_year
              (fun y x x' _ => Hcy y x x') year a m' Hyear H)
    as (ma & mb & _ & Hcap & Eb).
  assert (Hhere : in_sets (sets cfg) here).
  { apply in_sets_assign; [ exact Hpt | ]. cbn [labels_of]. now apply in_map. }
  pose proof (feasible_added _ _ _ _ _ _ H0 (feasible_extends _ _ _ _ E F) here Hhere) as P.
  pose proof (feasible_added _ _ _ _ _ _ Hcap (feasible_extends _ _ _ _ Eb F) pt Hpt) as C.
  cbn [compare sense lhs rhs eval] in P, C. rewrite eval_var in C.
  cbn [select] in C. fold here in C.
  split; [ exact P | ]. split; [ exact C | ]. rewrite <- P. exact C.
Qed.

End CompressorProps.

Section EmissionGridExamples.
Import Project Examples.
Local Open Scope string_scope.

Lemma ex_emissions_model_built :
  Emissions.add_project_emissions ex_cfg 500 ex_var_dims true true true []
  = Ok ex_emissions_model.
Proof. vm_compute. reflexivity. Qed.

Lemma ex_emitting_feasible : feasible (sets ex_cfg) ex_emitting ex_emissions_model.
Proof. check_feasible. Qed.

Lemma ex_grid_model_built : Grid.add_grid_constraints ex_cfg 2 100 [] = Ok ex_grid_model.
Proof. vm_compute. reflexivity. Qed.

Lemma ex_importing_feasible : feasible (sets ex_cfg) ex_importing ex_grid_model.
Proof. check_feasible. Qed.

Lemma ex_compressor_model_built :
  Compressor.add_compressor_constraints ex_cfg true [] = Ok ex_compressor_model.
Proof. vm_compute. reflexivity. Qed.

Lemma ex_cooling_feasible : feasible (sets ex_cfg) ex_cooling ex_compressor_model.
Proof. check_feasible. Qed.

Lemma installation_emissions_follow_final_units_witness :
  sumQ (map (fun s => ex_emitting "res_emission" (assign steps s ex_point))
            (labels_of (sets ex_cfg) steps))
  == Emissions.emissions_of_units ex_cfg ex_emitting ex_point "res_units"
       "RES_NOMINAL_CAPACITY" "RES_UNIT_CO2_EMISSION" (Some renewable_sources) 2.
Proof.
  pose proof (installation_emissions_follow_final_units ex_cfg 500 ex_var_dims
                true true true [] ex_emissions_model 1 eq_refl ex_emissions_model_built
                ex_emitting ex_emitting_feasible ex_point
                (ex_point_in_sets ["Diesel"] (or_introl eq_refl))) as H.
  cbv zeta in H. exact (proj1 H).
Defined.

Lemma emissions_need_steps_from_one_witness :
  Emissions.add_project_emissions ex_cfg_zero_based 500 ex_var_dims true true true []
  = Raise KeyError.
Proof.
  assert (Hno : ~ In (0 - 1)%Z (steps_of ex_cfg_zero_based))
    by (cbn; intros [H | [H | []]]; discriminate H).
  exact (proj2 (emissions_need_steps_from_one ex_cfg_zero_based 500 ex_var_dims
                  true true true [] 0 [1%Z] eq_refl ltac:(discriminate) Hno)).
Defined.

Lemma grid_exchange_limits_witness :
  ex_importing "energy_from_grid" (assign years (Num 1) ex_point) == 0
  /\ ex_importing "energy_from_grid" (assign years (Num 3) ex_point)
     <= 100 * param ex_cfg "GRID_AVAILABILITY" (assign years (Num 3) ex_point)
        * ex_importing "single_flow_grid" (assign years (Num 3) ex_point).
Proof.
  assert (Hy1 : In 1%Z (years_of ex_cfg)) by (cbn; tauto).
  assert (Hy3 : In 3%Z (years_of ex_cfg)) by (cbn; tauto).
  pose proof (grid_exchange_limits ex_cfg 2 100 [] ex_grid_model 1 ex_grid_model_built Hy1
                ex_importing ex_importing_feasible ex_point
                (ex_point_in_sets ["Diesel"] (or_introl eq_refl))) as H1.
  pose proof (grid_exchange_limits ex_cfg 2 100 [] ex_grid_model 3 ex_grid_model_built Hy3
                ex_importing ex_importing_feasible ex_point
                (ex_point_in_sets ["Diesel"] (or_introl eq_refl))) as H3.
  cbv zeta in H1, H3. split.
  - exact (proj1 (proj1 H1 ltac:(lia))).
  - exact (proj1 (proj2 (proj2 H3) ltac:(lia) eq_refl)).
Defined.

Lemma compressor_output_within_capacity_witness :
  param ex_cfg "COP_DIRECT" (assign years (Num 4) ex_point)
  * ex_cooling "compressor_electric_consumption" (assign years (Num 4) ex_point)
  <= ex_cooling "compressor_capacity" ex_point.
Proof.
  assert (Hy : In 4%Z (years_of ex_cfg)) by (cbn; tauto).
  pose proof (compressor_output_within_capacity ex_cfg [] ex_compressor_model 4
                ex_compressor_model_built Hy ex_cooling ex_cooling_feasible ex_point
                (ex_point_in_sets ["Diesel"] (or_introl eq_refl))) as H.
  cbv zeta in H. exact (proj2 (proj2 H)).
Defined.

End EmissionGridExamples.

Section EnergyBalanceYearExamples.
Import Project EnergyBalance Examples.
Local Open Scope string_scope.

Lemma step_of_year_formula_witness :
  exists tuples,
    years_steps_tuples ex_cfg 1 = Ok tuples
    /\ step_of_year ex_cfg tuples 2 = Ok 1%Z
    /\ step_of_year ex_cfg tuples 3 = Ok 2%Z.
Proof.
  destruct (step_of_year_formula ex_cfg 1 0 6 eq_refl eq_refl ltac:(cbn; lia))
    as (tuples & Ht & _ & Hk).
  exists tuples. split; [ exact Ht | ].
  split; [ exact (Hk 2%Z ltac:(lia)) | exact (Hk 3%Z ltac:(lia)) ].
Defined.

Lemma zero_step_duration_raises_witness :
  add_energy_balance_constraints ex_cfg_no_duration true true true []
  = Raise ZeroDivisionError.
Proof.
  exact (proj1 (proj2 (zero_step_duration_raises ex_cfg_no_duration 0 true true true []
                         ltac:(discriminate) eq_refl))).
Defined.

Lemma too_few_steps_raises_witness :
  add_energy_balance_constraints ex_cfg_one_step true true true [] = Raise IndexError.
Proof.
  exact (proj1 (proj2 (too_few_steps_raises ex_cfg_one_step 0 true true true []
                         eq_refl ltac:(cbn; lia)))).
Defined.

Lemma ex_penetration_model_built :
  add_energy_balance_constraints ex_cfg_penetration true true true []
  = Ok ex_penetration_model.
Proof. vm_compute. reflexivity. Qed.

Lemma ex_year_3 : In 3%Z ex_years.
Proof. cbn. tauto. Qed.

Lemma ex_solar_feasible : feasible (sets ex_cfg) ex_solar ex_energy_balance_model.
Proof. check_feasible. Qed.

Lemma ex_solar_penetration_feasible :
  feasible (sets ex_cfg_penetration) ex_solar ex_penetration_model.
Proof. check_feasible. Qed.

Lemma curtailment_and_lost_load_bounded_witness :
  exists step,
    ex_solar "curtailment"
             (select [(years, Num 3); (renewable_sources, Name "Solar")] ex_point)
    <= ex_solar "res_energy_production"
                (select [(steps, Num step); (renewable_sources, Name "Solar")] ex_point)
    /\ ex_solar "lost_load" (assign years (Num 3) ex_point)
       <= param ex_cfg "DEMAND" (assign years (Num 3) ex_point)
          * param ex_cfg "LOST_LOAD_FRACTION" ex_point.
Proof.
  destruct (curtailment_and_lost_load_bounded ex_cfg true true true []
              ex_energy_balance_model 3 ex_energy_balance_model_built ex_year_3)
    as (tuples & step & _ & _ & _ & H).
  exists step.
  destruct (H ex_solar ex_solar_feasible ex_point
              (ex_point_in_sets ["Diesel"] (or_introl eq_refl))) as [Hc Hl].
  split; [ exact (Hc "Solar" (or_introl eq_refl)) | exact (Hl eq_refl) ].
Defined.

Lemma balance_with_reported_losses_witness :
  exists step,
    expected_production ex_cfg true true true ex_solar ex_point 3 step
    - reported_losses ex_cfg true true true ex_solar ex_point 3
    == param ex_cfg "DEMAND" (assign years (Num 3) ex_point).
Proof.
  destruct (balance_with_reported_losses ex_cfg true true true []
              ex_energy_balance_model 3 ex_energy_balance_model_built ex_year_3)
    as (tuples & step & _ & _ & _ & H).
  exists step.
  exact (proj2 (H ex_solar ex_solar_feasible ex_point
                  (ex_point_in_sets ["Diesel"] (or_introl eq_refl)))).
Defined.

Lemma renewable_penetration_floor_witness :
  exists step,
    param ex_cfg_penetration "MINIMUM_RENEWABLE_PENETRATION" ex_point
    * penetration_total_production ex_cfg_penetration true true ex_solar ex_point 3 step
    <= penetration_res_production ex_cfg_penetration ex_solar ex_point 3 step.
Proof.
  destruct (renewable_penetration_floor ex_cfg_penetration true true true []
              ex_penetration_model 3 ex_penetration_model_built eq_refl ex_year_3)
    as (tuples & step & _ & _ & _ & H).
  exists step.
  exact (H ex_solar ex_solar_penetration_feasible ex_point
           (ex_point_in_sets ["Diesel"] (or_introl eq_refl))).
Defined.

End EnergyBalanceYearExamples.
